(** * Retirement calculator: the projection engine of [app.py]

    A shallow embedding of the four engine functions of [app.py]
    ([apply_liquidity_events], [build_timeline], [run_monte_carlo],
    [solve_safe_withdrawal_rate]) and the properties stated about them.

    Conventions of the embedding.
    - Python [float] values are read as exact rationals ([Qc], the
      rationals in lowest terms, whose equality is Leibniz equality).
      Rounding, overflow, infinities and NaN are outside the model, so
      the theorems are statements over exact arithmetic; [Binary64] gives
      the event aggregator on binary64 numbers, where rounding shows.  A
      statistic that numpy reports as [nan] on an empty sample is [None].
    - The divisors are the literals [100.0] and [2.0], and [cpi_index],
      a power of [1 + inflation_rate] that is zero from the third age on
      when [inflation_pct] is -100.  In [build_timeline] the operands are
      Python floats and the division raises [ZeroDivisionError]
      ([py_div]).  In [run_monte_carlo] the dividend is a numpy float and
      the quotient is [inf] or [nan], which the model does not hold:
      statements about the real paths leave a zero index out.
    - [np.random.seed] takes a seed from 0 to 2^32 - 1 and raises
      [ValueError] on any other; the model takes the seed as accepted,
      and the theorems that promise a result state the range.
    - Python [int] values (ages, counts, seeds) are [Z]; [range] is
      [py_range].
    - Strings stay strings and are compared as the code compares them.
    - An exception that leaves a function is the [Raise] outcome. *)

From Stdlib Require Import ZArith QArith Qcanon Qround List String Bool Lia Lqa
  Permutation Sorted Floats.
Import ListNotations.

#[local] Set Warnings "-inexact-float".

Local Open Scope Z_scope.
Local Open Scope Qc_scope.

(** ** Numbers *)

(** An integer literal used where the code has a float or an int operand
    of float arithmetic ([100.0], [12], [2.0], [20.0]). *)
Definition num (z : Z) : Qc := Q2Qc (inject_Z z).

(** [a < b] and [a <= b] as the booleans the code branches on. *)
Definition Qcltb (a b : Qc) : bool :=
  match a ?= b with Lt => true | _ => false end.

Definition Qcleb (a b : Qc) : bool :=
  match a ?= b with Gt => false | _ => true end.

Definition Qceqb (a b : Qc) : bool :=
  match a ?= b with Eq => true | _ => false end.

(** Python's builtin [min(a, b)]: the first argument unless the second is
    strictly smaller. *)
Definition py_min (a b : Qc) : Qc := if Qcltb b a then b else a.

(** Python's [range(lo, hi)]. *)
Definition py_range (lo hi : Z) : list Z :=
  map (fun i => (lo + Z.of_nat i)%Z) (seq 0 (Z.to_nat (hi - lo))).

(** Exceptions that can leave the engine functions. *)
Inductive exn : Type :=
| IndexError          (* [df.iloc[-1]] on an empty frame, numpy on an empty sample *)
| ValueError          (* numpy: negative scale or negative dimension *)
| ZeroDivisionError.  (* float division by zero *)

Inductive result (A : Type) : Type :=
| Ok (a : A)
| Raise (e : exn).

Arguments Ok {A} a.
Arguments Raise {A} e.

(** Python's [a / b] on floats: it raises when [b] is zero. *)
Definition py_div (a b : Qc) : result Qc :=
  if Qceqb b 0 then Raise ZeroDivisionError else Ok (a / b).

(** ** Data model *)

Module LiquidityEvent.

Record t : Type := mk {
  type : string;
  label : string;
  start_age : Z;
  end_age : Z;
  amount : Qc;
  recurrence : string;
  enabled : bool;
  taxable : bool;
  tax_rate : Qc
}.

End LiquidityEvent.

Module TimelineRow.

Record t : Type := mk {
  age : Z;
  start_balance_nominal : Qc;
  contributions : Qc;
  liquidity_net : Qc;
  withdrawals : Qc;
  fees : Qc;
  taxes : Qc;
  growth : Qc;
  end_balance_nominal : Qc;
  cpi_index : Qc;
  end_balance_real : Qc
}.

End TimelineRow.

Module Scenario.

Record t : Type := mk {
  name : string;
  current_age : Z;
  retirement_age : Z;
  end_age : Z;
  current_balance : Qc;
  contrib_amount : Qc;
  contrib_cadence : string;
  nominal_return_pct : Qc;
  return_stdev_pct : Qc;
  inflation_pct : Qc;
  fee_pct : Qc;
  withdrawal_method : string;
  withdrawal_pct : Qc;
  withdrawal_real_amount : Qc;
  withdrawal_frequency : string;
  liquidity_events : list LiquidityEvent.t;
  enable_mc : bool;
  mc_runs : Z;
  enable_taxes : bool;
  effective_tax_rate_pct : Qc;
  inflation_enabled : bool
}.

(** The solver's [test_scenario]: a field-by-field copy of the scenario
    ([to_dict] and the constructor) whose [withdrawal_pct] is then
    overwritten. *)
Definition with_withdrawal_pct (s : t) (pct : Qc) : t :=
  mk (name s) (current_age s) (retirement_age s) (end_age s)
     (current_balance s) (contrib_amount s) (contrib_cadence s)
     (nominal_return_pct s) (return_stdev_pct s) (inflation_pct s)
     (fee_pct s) (withdrawal_method s) pct (withdrawal_real_amount s)
     (withdrawal_frequency s) (liquidity_events s) (enable_mc s)
     (mc_runs s) (enable_taxes s) (effective_tax_rate_pct s)
     (inflation_enabled s).

End Scenario.

(** The two string constants the engine compares against. *)
Definition PCT_METHOD : string := "Fixed % of prior-year end balance".
Definition MONTHLY : string := "Monthly".
Definition ONE_TIME : string := "One-time".

(** ** Cash-event aggregator: [apply_liquidity_events] *)

(** The body of [for event in events], on the three accumulators
    [(net, labels, event_taxes)]. *)
Definition event_step (age : Z) (acc : Qc * list string * Qc)
    (event : LiquidityEvent.t) : Qc * list string * Qc :=
  let '(net, labels, event_taxes) := acc in
  if negb (LiquidityEvent.enabled event) then acc
  else if ((LiquidityEvent.start_age event <=? age)%Z
           && (age <=? LiquidityEvent.end_age event)%Z)%bool then
    if (LiquidityEvent.recurrence event =? ONE_TIME)%string then
      if (age =? LiquidityEvent.start_age event)%Z then
        let amount := LiquidityEvent.amount event in
        (net + amount,
         labels ++ [LiquidityEvent.label event],
         if (LiquidityEvent.taxable event && Qcltb 0 amount)%bool
         then event_taxes + amount * (LiquidityEvent.tax_rate event / num 100)
         else event_taxes)
      else acc
    else
      let amount :=
        if (LiquidityEvent.recurrence event =? MONTHLY)%string
        then LiquidityEvent.amount event * num 12
        else LiquidityEvent.amount event in
      (net + amount,
       labels ++ [LiquidityEvent.label event],
       if (LiquidityEvent.taxable event && Qcltb 0 amount)%bool
       then event_taxes + amount * (LiquidityEvent.tax_rate event / num 100)
       else event_taxes)
  else acc.

Definition apply_liquidity_events (age : Z) (events : list LiquidityEvent.t)
  : Qc * list string * Qc :=
  fold_left (event_step age) events (0, [], 0).

(** *** The aggregator as the interpreter runs it *)

(** The same function on IEEE 754 binary64 numbers, the [float] of
    Python, with every operation rounded to nearest: what exact arithmetic
    leaves out. *)
Module Binary64.

Module LiquidityEvent.

Record t : Type := mk {
  type : string;
  label : string;
  start_age : Z;
  end_age : Z;
  amount : float;
  recurrence : string;
  enabled : bool;
  taxable : bool;
  tax_rate : float
}.

End LiquidityEvent.

Definition event_step (age : Z) (acc : float * list string * float)
    (event : LiquidityEvent.t) : float * list string * float :=
  let '(net, labels, event_taxes) := acc in
  if negb (LiquidityEvent.enabled event) then acc
  else if ((LiquidityEvent.start_age event <=? age)%Z
           && (age <=? LiquidityEvent.end_age event)%Z)%bool then
    if (LiquidityEvent.recurrence event =? ONE_TIME)%string then
      if (age =? LiquidityEvent.start_age event)%Z then
        let amount := LiquidityEvent.amount event in
        ((net + amount)%float,
         labels ++ [LiquidityEvent.label event],
         if (LiquidityEvent.taxable event && (0 <? amount)%float)%bool
         then (event_taxes
               + amount * (LiquidityEvent.tax_rate event / 100))%float
         else event_taxes)
      else acc
    else
      let amount :=
        if (LiquidityEvent.recurrence event =? MONTHLY)%string
        then (LiquidityEvent.amount event * 12)%float
        else LiquidityEvent.amount event in
      ((net + amount)%float,
       labels ++ [LiquidityEvent.label event],
       if (LiquidityEvent.taxable event && (0 <? amount)%float)%bool
       then (event_taxes
             + amount * (LiquidityEvent.tax_rate event / 100))%float
       else event_taxes)
  else acc.

Definition apply_liquidity_events (age : Z) (events : list LiquidityEvent.t)
  : float * list string * float :=
  fold_left (event_step age) events (0%float, [], 0%float).

(** The net amount of a result triple. *)
Definition net_of (r : float * list string * float) : float := fst (fst r).

(** A one-time, untaxed gift received at age 65. *)
Definition gift (amount : float) : LiquidityEvent.t :=
  LiquidityEvent.mk "Credit" "Gift" 65 65 amount ONE_TIME true false 0.

End Binary64.

(** ** Deterministic timeline builder: [build_timeline] *)

Module TL.

(** The loop-carried locals of [build_timeline]. *)
Record locals : Type := mk {
  balance_nominal : Qc;
  cpi_index : Qc;
  prior_year_end_balance : Qc;
  first_shortfall_age : option Z;
  rows : list TimelineRow.t
}.

End TL.

Record Metrics : Type := mkMetrics {
  terminal_nominal : Qc;
  terminal_real : Qc;
  first_shortfall_age : option Z;
  probability_no_shortfall : option Qc;
  median_terminal : option Qc;
  p10_terminal : option Qc;
  p90_terminal : option Qc
}.

Definition inflation_rate (scenario : Scenario.t) : Qc :=
  Scenario.inflation_pct scenario / num 100.

Definition nominal_return (scenario : Scenario.t) : Qc :=
  Scenario.nominal_return_pct scenario / num 100.

Definition fee_rate (scenario : Scenario.t) : Qc :=
  Scenario.fee_pct scenario / num 100.

Definition tax_rate (scenario : Scenario.t) : Qc :=
  if Scenario.enable_taxes scenario
  then Scenario.effective_tax_rate_pct scenario / num 100
  else 0.

(** Contributions of one age: the same code in both simulators. *)
Definition contributions_at (scenario : Scenario.t) (age : Z) : Qc :=
  if (age <? Scenario.retirement_age scenario)%Z then
    if (Scenario.contrib_cadence scenario =? MONTHLY)%string
    then Scenario.contrib_amount scenario * num 12
    else Scenario.contrib_amount scenario
  else 0.

(** Withdrawals of one age in [build_timeline]. *)
Definition timeline_withdrawals (scenario : Scenario.t) (age : Z)
    (prior_year_end_balance cpi_index : Qc) : Qc :=
  if (Scenario.retirement_age scenario <=? age)%Z then
    if (Scenario.withdrawal_method scenario =? PCT_METHOD)%string then
      prior_year_end_balance * (Scenario.withdrawal_pct scenario / num 100)
    else
      let withdrawals :=
        if Scenario.inflation_enabled scenario
        then Scenario.withdrawal_real_amount scenario * cpi_index
        else Scenario.withdrawal_real_amount scenario in
      if (Scenario.withdrawal_frequency scenario =? MONTHLY)%string
      then withdrawals * num 12
      else withdrawals
  else 0.

(** The body of [for age in range(current_age, end_age + 1)], first half:
    the row appended for [age], computed from the locals carried in.  The
    division by the price index is Python's: it raises when the index is
    zero. *)
Definition timeline_row (scenario : Scenario.t)
    (liquidity_events : list LiquidityEvent.t)
    (st : TL.locals) (age : Z) : result TimelineRow.t :=
  let start_balance := TL.balance_nominal st in
  let contributions := contributions_at scenario age in
  let '(liquidity_net, _, liquidity_event_taxes) :=
    apply_liquidity_events age liquidity_events in
  let withdrawals :=
    timeline_withdrawals scenario age
      (TL.prior_year_end_balance st) (TL.cpi_index st) in
  let fees := start_balance * fee_rate scenario in
  let taxes :=
    if Scenario.enable_taxes scenario
    then liquidity_event_taxes + withdrawals * tax_rate scenario
    else liquidity_event_taxes in
  let balance_after_cashflows :=
    start_balance + contributions + liquidity_net - withdrawals - fees - taxes in
  let growth := balance_after_cashflows * nominal_return scenario in
  let end_balance_nominal := balance_after_cashflows + growth in
  let cpi_index :=
    if (Scenario.inflation_enabled scenario
        && (age =? Scenario.current_age scenario)%Z)%bool
    then 1 else TL.cpi_index st in
  match (if Scenario.inflation_enabled scenario
         then py_div end_balance_nominal cpi_index
         else Ok end_balance_nominal)
  with
  | Raise e => Raise e
  | Ok end_balance_real =>
      Ok (TimelineRow.mk age start_balance contributions liquidity_net
            withdrawals fees taxes growth end_balance_nominal cpi_index
            end_balance_real)
  end.

(** Second half of the loop body, once [row] is appended: the shortfall
    marker and the updates "for next iteration". *)
Definition timeline_step (scenario : Scenario.t)
    (st : TL.locals) (age : Z) (row : TimelineRow.t) : TL.locals :=
  let end_balance_nominal := TimelineRow.end_balance_nominal row in
  let cpi_index := TimelineRow.cpi_index row in
  let first_shortfall_age :=
    match TL.first_shortfall_age st with
    | None => if Qcltb end_balance_nominal 0 then Some age else None
    | Some a => Some a
    end in
  TL.mk end_balance_nominal
    (if (Scenario.inflation_enabled scenario
         && negb (age =? Scenario.current_age scenario)%Z)%bool
     then cpi_index * (1 + inflation_rate scenario)
     else cpi_index)
    end_balance_nominal
    first_shortfall_age
    (TL.rows st ++ [row]).

Definition timeline_init (scenario : Scenario.t) : TL.locals :=
  TL.mk (Scenario.current_balance scenario) 1
        (Scenario.current_balance scenario) None [].

(** The loop over the ages; an exception raised in the body leaves it. *)
Fixpoint timeline_loop (scenario : Scenario.t)
    (liquidity_events : list LiquidityEvent.t)
    (ages : list Z) (st : TL.locals) : result TL.locals :=
  match ages with
  | [] => Ok st
  | age :: rest =>
      match timeline_row scenario liquidity_events st age with
      | Raise e => Raise e
      | Ok row =>
          timeline_loop scenario liquidity_events rest
            (timeline_step scenario st age row)
      end
  end.

(** After the loop: the frame (the list of rows) and the metrics
    dictionary; [df.iloc[-1]] raises [IndexError] on an empty frame. *)
Definition timeline_result (st : TL.locals)
  : result (list TimelineRow.t * Metrics) :=
  match last (map Some (TL.rows st)) None with
  | None => Raise IndexError
  | Some last_row =>
      Ok (TL.rows st,
          mkMetrics (TimelineRow.end_balance_nominal last_row)
                    (TimelineRow.end_balance_real last_row)
                    (TL.first_shortfall_age st)
                    None None None None)
  end.

(** [build_timeline]. *)
Definition build_timeline (scenario : Scenario.t)
    (liquidity_events : list LiquidityEvent.t)
  : result (list TimelineRow.t * Metrics) :=
  match timeline_loop scenario liquidity_events
          (py_range (Scenario.current_age scenario)
                    (Scenario.end_age scenario + 1))
          (timeline_init scenario)
  with
  | Raise e => Raise e
  | Ok st => timeline_result st
  end.

(** ** Safe withdrawal rate solver: [solve_safe_withdrawal_rate] *)

(** One line of the solver's [debug_info]: the iteration number, the rate
    tested, the minimum balance of its timeline and the verdict. *)
Record DebugEntry : Type := mkDebugEntry {
  dbg_iteration : Z;
  dbg_mid : Qc;
  dbg_min_balance : Qc;
  dbg_solvent : bool
}.

Module SWR.

(** The loop-carried locals of the binary search. *)
Record locals : Type := mk {
  low : Qc;
  high : Qc;
  best_rate : Qc;
  debug_info : list DebugEntry
}.

End SWR.

(** [df['end_balance_nominal'].min()] on a frame with at least one row. *)
Definition series_min (l : list Qc) : Qc :=
  match l with
  | [] => 0
  | x :: xs => fold_left (fun m y => if Qcltb y m then y else m) xs x
  end.

(** The minimum nominal end balance of the timeline built for [scenario]. *)
Definition min_balance_of (scenario : Scenario.t)
    (liquidity_events : list LiquidityEvent.t) : result Qc :=
  match build_timeline scenario liquidity_events with
  | Raise e => Raise e
  | Ok (df, _) => Ok (series_min (map TimelineRow.end_balance_nominal df))
  end.

(** [for iteration in range(max_iterations)], with its [break]. *)
Fixpoint swr_loop (scenario : Scenario.t)
    (liquidity_events : list LiquidityEvent.t) (tolerance : Qc)
    (iterations : list Z) (st : SWR.locals) : result SWR.locals :=
  match iterations with
  | [] => Ok st
  | iteration :: rest =>
      let mid := (SWR.low st + SWR.high st) / num 2 in
      let test_scenario := Scenario.with_withdrawal_pct scenario mid in
      match min_balance_of test_scenario liquidity_events with
      | Raise e => Raise e
      | Ok min_balance =>
          let st' :=
            if Qcleb 0 min_balance then
              SWR.mk mid (SWR.high st) mid
                (SWR.debug_info st
                 ++ [mkDebugEntry (iteration + 1) mid min_balance true])
            else
              SWR.mk (SWR.low st) mid (SWR.best_rate st)
                (SWR.debug_info st
                 ++ [mkDebugEntry (iteration + 1) mid min_balance false]) in
          if Qcltb (SWR.high st' - SWR.low st') tolerance
          then Ok st'
          else swr_loop scenario liquidity_events tolerance rest st'
      end
  end.

Definition swr_init : SWR.locals := SWR.mk 0 (num 20) 0 [].

Definition swr_search (scenario : Scenario.t)
    (liquidity_events : list LiquidityEvent.t) (tolerance : Qc)
    (max_iterations : Z) : result SWR.locals :=
  swr_loop scenario liquidity_events tolerance
    (py_range 0 max_iterations) swr_init.

(** [solve_safe_withdrawal_rate].  [swr_debug] is the entry of Streamlit's
    session state that the function overwrites before it returns a rate;
    the result pairs the returned value with the entry afterwards. *)
Definition solve_safe_withdrawal_rate (scenario : Scenario.t)
    (liquidity_events : list LiquidityEvent.t) (tolerance : Qc)
    (max_iterations : Z) (swr_debug : list DebugEntry)
  : result (option Qc * list DebugEntry) :=
  if negb (Scenario.withdrawal_method scenario =? PCT_METHOD)%string
  then Ok (None, swr_debug)
  else
    match swr_search scenario liquidity_events tolerance max_iterations with
    | Raise e => Raise e
    | Ok st => Ok (Some (SWR.best_rate st), SWR.debug_info st)
    end.

(** ** Monte Carlo simulator: [run_monte_carlo] *)

Module MC.

(** The loop-carried locals of one trial. *)
Record locals : Type := mk {
  balance_nominal : Qc;
  cpi_index : Qc;
  prior_year_end_balance : Qc;
  path : list Qc;
  min_balance : Qc
}.

End MC.

Module MCResult.

(** The dictionary [run_monte_carlo] returns; an entry is [None] where
    numpy holds [nan]. *)
Record t : Type := mk {
  probability_no_shortfall : option Qc;
  median_terminal : option Qc;
  p10_terminal : option Qc;
  p90_terminal : option Qc;
  p10_path : option (list Qc);
  p50_path : option (list Qc);
  p90_path : option (list Qc)
}.

End MCResult.

(** Python's [enumerate]. *)
Definition enumerate {A : Type} (l : list A) : list (nat * A) :=
  combine (seq 0 (List.length l)) l.

(** Withdrawals of one age in [run_monte_carlo]. *)
Definition mc_withdrawals (scenario : Scenario.t) (age : Z)
    (prior_year_end_balance cpi_index : Qc) : Qc :=
  if (Scenario.retirement_age scenario <=? age)%Z then
    if (Scenario.withdrawal_method scenario =? PCT_METHOD)%string then
      let withdrawals :=
        prior_year_end_balance * (Scenario.withdrawal_pct scenario / num 100) in
      if (Scenario.withdrawal_frequency scenario =? MONTHLY)%string
      then withdrawals * num 12
      else withdrawals
    else
      let withdrawals := Scenario.withdrawal_real_amount scenario * cpi_index in
      if (Scenario.withdrawal_frequency scenario =? MONTHLY)%string
      then withdrawals * num 12
      else withdrawals
  else 0.

(** [returns[run_idx, year_idx]]. *)
Definition grid_at (returns : list (list Qc)) (run_idx year_idx : nat) : Qc :=
  nth year_idx (nth run_idx returns []) 0.

(** The body of the inner loop over
    [enumerate(range(current_age, end_age + 1))].  The entry appended to
    [path] is the quotient in the rationals; it stands for what numpy
    computes only while [cpi_index] is not zero. *)
Definition mc_step (scenario : Scenario.t)
    (liquidity_events : list LiquidityEvent.t)
    (returns : list (list Qc)) (run_idx : nat)
    (st : MC.locals) (ya : nat * Z) : MC.locals :=
  let '(year_idx, age) := ya in
  let start_balance := MC.balance_nominal st in
  let contributions := contributions_at scenario age in
  let '(liquidity_net, _, liquidity_event_taxes) :=
    apply_liquidity_events age liquidity_events in
  let withdrawals :=
    mc_withdrawals scenario age
      (MC.prior_year_end_balance st) (MC.cpi_index st) in
  let fees := start_balance * fee_rate scenario in
  let taxes :=
    if Scenario.enable_taxes scenario
    then liquidity_event_taxes + withdrawals * tax_rate scenario
    else liquidity_event_taxes in
  let balance_after_cashflows :=
    start_balance + contributions + liquidity_net - withdrawals - fees - taxes in
  let growth := balance_after_cashflows * grid_at returns run_idx year_idx in
  let end_balance_nominal := balance_after_cashflows + growth in
  MC.mk end_balance_nominal
    (MC.cpi_index st * (1 + inflation_rate scenario))
    end_balance_nominal
    (MC.path st ++ [end_balance_nominal / MC.cpi_index st])
    (py_min (MC.min_balance st) end_balance_nominal).

Definition mc_init (scenario : Scenario.t) : MC.locals :=
  MC.mk (Scenario.current_balance scenario) 1
        (Scenario.current_balance scenario) []
        (Scenario.current_balance scenario).

(** One pass of the outer loop: the locals of trial [run_idx] when its
    inner loop ends. *)
Definition mc_trial (scenario : Scenario.t)
    (liquidity_events : list LiquidityEvent.t)
    (returns : list (list Qc)) (run_idx : nat) : MC.locals :=
  fold_left (mc_step scenario liquidity_events returns run_idx)
    (enumerate (py_range (Scenario.current_age scenario)
                         (Scenario.end_age scenario + 1)))
    (mc_init scenario).

(** *** numpy statistics *)

Fixpoint insert_sorted (x : Qc) (l : list Qc) : list Qc :=
  match l with
  | [] => [x]
  | y :: ys => if Qcleb x y then x :: l else y :: insert_sorted x ys
  end.

Definition sort (l : list Qc) : list Qc := fold_right insert_sorted [] l.

(** [np.mean(min_balances >= 0)]: the fraction of trials that never went
    negative; [nan] on an empty sample. *)
Definition fraction_nonnegative (l : list Qc) : option Qc :=
  match l with
  | [] => None
  | _ => Some (num (Z.of_nat (List.length (filter (Qcleb 0) l)))
               / num (Z.of_nat (List.length l)))
  end.

(** [np.median]: the middle element, or the mean of the two middle ones. *)
Definition np_median (l : list Qc) : option Qc :=
  match l with
  | [] => None
  | _ =>
      let a := sort l in
      let n := List.length a in
      if Nat.even n
      then Some ((nth (n / 2 - 1) a 0 + nth (n / 2) a 0) / num 2)
      else Some (nth (n / 2) a 0)
  end.

(** The percentile numpy computes by default for [0 <= q <= 100] on a
    sample that is not empty: linear interpolation between the two order
    statistics around the virtual index [(n - 1) * q / 100]. *)
Definition linear_percentile (l : list Qc) (q : Qc) : Qc :=
  let a := sort l in
  let n := List.length a in
  let virtual_index := num (Z.of_nat (n - 1)) * (q / num 100) in
  let previous := Z.to_nat (Qfloor virtual_index) in
  let next := Nat.min (S previous) (n - 1) in
  let gamma := virtual_index - num (Z.of_nat previous) in
  nth previous a 0 + (nth next a 0 - nth previous a 0) * gamma.

(** [np.percentile(l, q)]; on an empty sample numpy raises
    [IndexError]. *)
Definition np_percentile (l : list Qc) (q : Qc) : result Qc :=
  match l with
  | [] => Raise IndexError
  | _ => Ok (linear_percentile l q)
  end.

(** [np.percentile(all_paths, q, axis=0)] on the array of the trials'
    paths: one percentile per year, over the trials; with no trial numpy
    raises [IndexError]. *)
Definition np_percentile_axis0 (all_paths : list (list Qc)) (q : Qc)
  : result (list Qc) :=
  match all_paths with
  | [] => Raise IndexError
  | first_path :: _ =>
      Ok (map (fun year_idx =>
                 linear_percentile
                   (map (fun path => nth year_idx path 0) all_paths) q)
              (seq 0 (List.length first_path)))
  end.

Section MonteCarlo.

(** numpy's global generator: its state, the state [np.random.seed] puts
    it in, and one standard normal draw (which [np.random.normal] scales
    and shifts into [loc + scale * draw]). *)
Variable rng : Type.
Variable np_random_seed : Z -> rng.
Variable gauss : rng -> Qc * rng.

Fixpoint normal_row (loc scale : Qc) (n : nat) (g : rng) : list Qc * rng :=
  match n with
  | O => ([], g)
  | S n' =>
      let rest := normal_row loc scale n' (snd (gauss g)) in
      (loc + scale * fst (gauss g) :: fst rest, snd rest)
  end.

Fixpoint normal_grid (loc scale : Qc) (rows cols : nat) (g : rng)
  : list (list Qc) * rng :=
  match rows with
  | O => ([], g)
  | S rows' =>
      let r := normal_row loc scale cols g in
      let rest := normal_grid loc scale rows' cols (snd r) in
      (fst r :: fst rest, snd rest)
  end.

(** [np.random.normal(loc, scale, size=(runs, num_years))]: filled in
    row-major order; a negative scale or dimension raises [ValueError]. *)
Definition np_random_normal (loc scale : Qc) (runs num_years : Z) (g : rng)
  : result (list (list Qc)) * rng :=
  if (Qcltb scale 0 || (runs <? 0)%Z || (num_years <? 0)%Z)%bool
  then (Raise ValueError, g)
  else
    let r := normal_grid loc scale (Z.to_nat runs) (Z.to_nat num_years) g in
    (Ok (fst r), snd r).

(** The statistics computed once every trial has run.  With no trial the
    mean and the median are [nan] and the first percentile raises. *)
Definition mc_aggregate (trials : list MC.locals) : result MCResult.t :=
  let terminal_values := map MC.balance_nominal trials in
  let min_balances := map MC.min_balance trials in
  let all_paths := map MC.path trials in
  let probability_no_shortfall := fraction_nonnegative min_balances in
  let median_terminal := np_median terminal_values in
  match np_percentile terminal_values (num 10) with
  | Raise e => Raise e
  | Ok p10_terminal =>
  match np_percentile terminal_values (num 90) with
  | Raise e => Raise e
  | Ok p90_terminal =>
  match np_percentile_axis0 all_paths (num 10) with
  | Raise e => Raise e
  | Ok p10_path =>
  match np_percentile_axis0 all_paths (num 50) with
  | Raise e => Raise e
  | Ok p50_path =>
  match np_percentile_axis0 all_paths (num 90) with
  | Raise e => Raise e
  | Ok p90_path =>
      Ok (MCResult.mk probability_no_shortfall median_terminal
            (Some p10_terminal) (Some p90_terminal)
            (Some p10_path) (Some p50_path) (Some p90_path))
  end end end end end.

(** [run_monte_carlo], threading numpy's global generator: [g] is its state
    when the function is called, and the result carries the state it is
    left in.  [seed] is a seed that [np.random.seed] accepts. *)
Definition run_monte_carlo (scenario : Scenario.t)
    (liquidity_events : list LiquidityEvent.t) (runs : Z) (seed : Z)
    (g : rng) : result MCResult.t * rng :=
  let g := np_random_seed seed in
  let mean_return := Scenario.nominal_return_pct scenario / num 100 in
  let stdev_return := Scenario.return_stdev_pct scenario / num 100 in
  let num_years :=
    (Scenario.end_age scenario - Scenario.current_age scenario + 1)%Z in
  match np_random_normal mean_return stdev_return runs num_years g with
  | (Raise e, g') => (Raise e, g')
  | (Ok returns, g') =>
      (mc_aggregate
         (map (mc_trial scenario liquidity_events returns)
              (seq 0 (Z.to_nat runs))),
       g')
  end.

End MonteCarlo.

(** ** The independent check of [test_swr.py] *)

(** [test_swr.py] re-implements the retirement phase on its own, with
    rates as decimals (0.04 for 4%); what it prints is not modelled. *)

Module Sim.

(** The loop-carried locals of [simulate_portfolio]. *)
Record locals : Type := mk {
  balance : Qc;
  min_balance : Qc;
  prior_year_balance : Qc
}.

End Sim.

(** The body of [for year in range(years)] in [simulate_portfolio]. *)
Definition simulate_step (withdrawal_rate return_rate fee_rate : Qc)
    (st : Sim.locals) (year : Z) : Sim.locals :=
  let start_balance := Sim.balance st in
  let withdrawal := Sim.prior_year_balance st * withdrawal_rate in
  let fees := start_balance * fee_rate in
  let balance_after_cashflows := start_balance - withdrawal - fees in
  let growth := balance_after_cashflows * return_rate in
  let balance := balance_after_cashflows + growth in
  Sim.mk balance
    (if Qcltb balance (Sim.min_balance st) then balance
     else Sim.min_balance st)
    balance.

(** [simulate_portfolio]: the final and the minimum balance.  The
    [inflation_rate] argument is accepted and never used. *)
Definition simulate_portfolio (initial_balance : Qc) (years : Z)
    (withdrawal_rate return_rate fee_rate inflation_rate : Qc) : Qc * Qc :=
  let st :=
    fold_left (simulate_step withdrawal_rate return_rate fee_rate)
      (py_range 0 years)
      (Sim.mk initial_balance initial_balance initial_balance) in
  (Sim.balance st, Sim.min_balance st).

Module Find.

(** The loop-carried locals of [find_safe_withdrawal_rate]. *)
Record locals : Type := mk {
  low : Qc;
  high : Qc;
  best_rate : Qc
}.

End Find.

(** [for iteration in range(max_iterations)] of
    [find_safe_withdrawal_rate], with its [break]. *)
Fixpoint find_loop (initial_balance : Qc) (years : Z)
    (return_rate fee_rate tolerance : Qc)
    (iterations : list Z) (st : Find.locals) : Find.locals :=
  match iterations with
  | [] => st
  | iteration :: rest =>
      let mid := (Find.low st + Find.high st) / num 2 in
      let '(final_balance, min_balance) :=
        simulate_portfolio initial_balance years mid return_rate fee_rate 0 in
      let st' :=
        if Qcleb 0 min_balance
        then Find.mk mid (Find.high st) mid
        else Find.mk (Find.low st) mid (Find.best_rate st) in
      if Qcltb (Find.high st' - Find.low st') tolerance
      then st'
      else find_loop initial_balance years return_rate fee_rate tolerance
             rest st'
  end.

(** [find_safe_withdrawal_rate]: the search runs between 0 and 0.20. *)
Definition find_safe_withdrawal_rate (initial_balance : Qc) (years : Z)
    (return_rate fee_rate tolerance : Qc) (max_iterations : Z) : Qc :=
  Find.best_rate
    (find_loop initial_balance years return_rate fee_rate tolerance
       (py_range 0 max_iterations)
       (Find.mk 0 (Q2Qc (20 # 100)) 0)).

(** ** The lifetime tax summary of the dashboard ([main]) *)

(** The body of the inner loop [for event in liquidity_events] of the tax
    breakdown, on the accumulator [total_event_taxes]. *)
Definition breakdown_event (age : Z) (total_event_taxes : Qc)
    (event : LiquidityEvent.t) : Qc :=
  if ((LiquidityEvent.start_age event <=? age)%Z
      && (age <=? LiquidityEvent.end_age event)%Z
      && LiquidityEvent.taxable event)%bool then
    if (LiquidityEvent.recurrence event =? ONE_TIME)%string then
      if ((age =? LiquidityEvent.start_age event)%Z
          && Qcltb 0 (LiquidityEvent.amount event))%bool
      then total_event_taxes
           + LiquidityEvent.amount event
             * (LiquidityEvent.tax_rate event / num 100)
      else total_event_taxes
    else
      if Qcltb 0 (LiquidityEvent.amount event) then
        let event_amount :=
          if (LiquidityEvent.recurrence event =? MONTHLY)%string
          then LiquidityEvent.amount event * num 12
          else LiquidityEvent.amount event in
        total_event_taxes
        + event_amount * (LiquidityEvent.tax_rate event / num 100)
      else total_event_taxes
  else total_event_taxes.

(** The body of [for idx, row in timeline_a.iterrows()], on the pair
    [(total_withdrawal_taxes, total_event_taxes)]. *)
Definition breakdown_row (effective_tax_rate_pct : Qc)
    (liquidity_events : list LiquidityEvent.t)
    (totals : Qc * Qc) (row : TimelineRow.t) : Qc * Qc :=
  let '(total_withdrawal_taxes, total_event_taxes) := totals in
  let age := TimelineRow.age row in
  (if (Qcltb 0 (TimelineRow.withdrawals row)
       && Qcltb 0 effective_tax_rate_pct)%bool
   then total_withdrawal_taxes
        + TimelineRow.withdrawals row * (effective_tax_rate_pct / num 100)
   else total_withdrawal_taxes,
   fold_left (breakdown_event age) liquidity_events total_event_taxes).

(** The two category totals of the tax summary. *)
Definition tax_breakdown (timeline : list TimelineRow.t)
    (liquidity_events : list LiquidityEvent.t)
    (effective_tax_rate_pct : Qc) : Qc * Qc :=
  fold_left (breakdown_row effective_tax_rate_pct liquidity_events)
    timeline (0, 0).

(** [timeline_a['taxes'].sum()], the total the summary shows. *)
Definition taxes_total (timeline : list TimelineRow.t) : Qc :=
  fold_left Qcplus (map TimelineRow.taxes timeline) 0.

(** ** Loading and saving events *)

(** [str.lower()].  Only the ASCII capitals are folded; that is all the
    two substring tests below can observe. *)
Definition ascii_lower (c : Ascii.ascii) : Ascii.ascii :=
  let n := Ascii.nat_of_ascii c in
  if ((65 <=? n)%nat && (n <=? 90)%nat)%bool
  then Ascii.ascii_of_nat (n + 32)
  else c.

Fixpoint lower (s : string) : string :=
  match s with
  | EmptyString => EmptyString
  | String c rest => String (ascii_lower c) (lower rest)
  end.

(** Python's [needle in hay] on strings. *)
Fixpoint contains (needle hay : string) : bool :=
  (String.prefix needle hay
   || match hay with
      | EmptyString => false
      | String _ rest => contains needle rest
      end)%bool.

(** [LiquidityEvent.from_dict] on a dictionary that holds the nine fields
    of the dataclass (as [to_dict] writes it and the scenario file stores
    it): the legacy type tags are relabelled, every other entry is passed
    to the constructor as it is. *)
Definition event_from_dict (data : LiquidityEvent.t) : LiquidityEvent.t :=
  let old_type := LiquidityEvent.type data in
  let new_type :=
    if contains "inflow" (lower old_type) then "Credit"%string
    else if contains "outflow" (lower old_type) then "Debit"%string
    else old_type in
  LiquidityEvent.mk new_type
    (LiquidityEvent.label data) (LiquidityEvent.start_age data)
    (LiquidityEvent.end_age data) (LiquidityEvent.amount data)
    (LiquidityEvent.recurrence data) (LiquidityEvent.enabled data)
    (LiquidityEvent.taxable data) (LiquidityEvent.tax_rate data).

(** Python's [abs] on a float. *)
Definition py_abs (x : Qc) : Qc := if Qcltb x 0 then - x else x.

(** The "Save Events" handler of [show_liquidity_events_page], on one
    editor row that it keeps, from the point where its fields have been
    parsed: [label] is the label of the row with surrounding blanks
    stripped, and it is not empty (the handler skips a row whose label is
    blank before it reads anything else).  The recurrence defaults to
    One-time, the end age is forced to the start age for a one-time event
    and to the planning horizon for a recurring event whose end age is
    not after its start age, and the sign of the amount is set from the
    type. *)
Definition validated_event (planning_end_age : Z)
    (typ label : string) (start_age end_age : Z) (amount tax_rate : Qc)
    (recurrence : string) (enabled taxable : bool) : LiquidityEvent.t :=
  let recurrence :=
    if (recurrence =? "")%string then ONE_TIME else recurrence in
  let end_age :=
    if (recurrence =? ONE_TIME)%string then start_age
    else if (end_age <=? start_age)%Z then planning_end_age
    else end_age in
  let amount :=
    if (lower typ =? "debit")%string then - py_abs amount
    else py_abs amount in
  LiquidityEvent.mk typ label start_age end_age amount recurrence
    enabled taxable tax_rate.

(** * Vocabulary of the statements *)

Definition net_of (r : Qc * list string * Qc) : Qc := fst (fst r).
Definition labels_of (r : Qc * list string * Qc) : list string := snd (fst r).
Definition taxes_of (r : Qc * list string * Qc) : Qc := snd r.

(** Componentwise sum of two accumulator triples. *)
Definition acc_add (a b : Qc * list string * Qc) : Qc * list string * Qc :=
  (net_of a + net_of b, labels_of a ++ labels_of b, taxes_of a + taxes_of b).

(** What one event adds to the accumulators: the loop body run on zeros. *)
Definition event_delta (age : Z) (event : LiquidityEvent.t)
  : Qc * list string * Qc :=
  event_step age (0, [], 0) event.

(** The amount the loop body adds for an event it lets through: the stored
    amount, times 12 when the recurrence is Monthly. *)
Definition annualized (event : LiquidityEvent.t) : Qc :=
  if (LiquidityEvent.recurrence event =? MONTHLY)%string
  then LiquidityEvent.amount event * num 12
  else LiquidityEvent.amount event.

(** The row the loop body appends for [age] when the division does not
    raise: the same figures, the quotient taken in the rationals. *)
Definition row_at (scenario : Scenario.t)
    (liquidity_events : list LiquidityEvent.t)
    (st : TL.locals) (age : Z) : TimelineRow.t :=
  let start_balance := TL.balance_nominal st in
  let contributions := contributions_at scenario age in
  let '(liquidity_net, _, liquidity_event_taxes) :=
    apply_liquidity_events age liquidity_events in
  let withdrawals :=
    timeline_withdrawals scenario age
      (TL.prior_year_end_balance st) (TL.cpi_index st) in
  let fees := start_balance * fee_rate scenario in
  let taxes :=
    if Scenario.enable_taxes scenario
    then liquidity_event_taxes + withdrawals * tax_rate scenario
    else liquidity_event_taxes in
  let balance_after_cashflows :=
    start_balance + contributions + liquidity_net - withdrawals - fees - taxes in
  let growth := balance_after_cashflows * nominal_return scenario in
  let end_balance_nominal := balance_after_cashflows + growth in
  let cpi_index :=
    if (Scenario.inflation_enabled scenario
        && (age =? Scenario.current_age scenario)%Z)%bool
    then 1 else TL.cpi_index st in
  let end_balance_real :=
    if Scenario.inflation_enabled scenario
    then end_balance_nominal / cpi_index
    else end_balance_nominal in
  TimelineRow.mk age start_balance contributions liquidity_net withdrawals
    fees taxes growth end_balance_nominal cpi_index end_balance_real.

(** The locals after the loop body has run for [age] without raising. *)
Definition step_at (scenario : Scenario.t)
    (liquidity_events : list LiquidityEvent.t)
    (st : TL.locals) (age : Z) : TL.locals :=
  timeline_step scenario st age (row_at scenario liquidity_events st age).

(** The locals after the loop has run over [ages] without raising. *)
Definition run_ages (scenario : Scenario.t)
    (liquidity_events : list LiquidityEvent.t)
    (ages : list Z) (st : TL.locals) : TL.locals :=
  fold_left (step_at scenario liquidity_events) ages st.

(** The division that gives the real balance of [row] is by zero. *)
Definition divides_by_zero (scenario : Scenario.t) (row : TimelineRow.t)
  : bool :=
  (Scenario.inflation_enabled scenario
   && Qceqb (TimelineRow.cpi_index row) 0)%bool.

(** The price index reaches zero, and the real balance of a row divides by
    it: inflation is applied at -100% and the plan has a third age (the
    index is 1 for the first two ages). *)
Definition index_hits_zero (scenario : Scenario.t) : bool :=
  (Scenario.inflation_enabled scenario
   && Qceqb (1 + inflation_rate scenario) 0
   && (Scenario.current_age scenario + 2 <=? Scenario.end_age scenario)%Z)%bool.

(** The rows of the frame that [build_timeline] assembles when no division
    raises. *)
Definition timeline_rows (scenario : Scenario.t)
    (liquidity_events : list LiquidityEvent.t) : list TimelineRow.t :=
  TL.rows
    (run_ages scenario liquidity_events
       (py_range (Scenario.current_age scenario)
                 (Scenario.end_age scenario + 1))
       (timeline_init scenario)).

(** The rows appended while the loop runs over [ages] from the locals
    [st], in order. *)
Fixpoint timeline_gen (scenario : Scenario.t)
    (liquidity_events : list LiquidityEvent.t)
    (ages : list Z) (st : TL.locals) : list TimelineRow.t :=
  match ages with
  | [] => []
  | age :: rest =>
      row_at scenario liquidity_events st age
      :: timeline_gen scenario liquidity_events rest
           (step_at scenario liquidity_events st age)
  end.

(** The balance a row's percentage withdrawal is taken from: the end
    balance of the row before it, or the starting balance for the first. *)
Definition prior_end_balance (scenario : Scenario.t)
    (rows : list TimelineRow.t) (i : nat) : Qc :=
  match i with
  | O => Scenario.current_balance scenario
  | S j =>
      match nth_error rows j with
      | Some previous => TimelineRow.end_balance_nominal previous
      | None => 0
      end
  end.

(** The figure growth is applied to: the start balance after all cash
    flows, fees and taxes of the row. *)
Definition pre_growth (row : TimelineRow.t) : Qc :=
  TimelineRow.start_balance_nominal row + TimelineRow.contributions row
  + TimelineRow.liquidity_net row - TimelineRow.withdrawals row
  - TimelineRow.fees row - TimelineRow.taxes row.

(** Rows linked to one another: each starts from the balance the one
    before it ended with (the first from [prior]), and satisfies [P] with
    respect to that balance. *)
Fixpoint linked (P : Qc -> TimelineRow.t -> Prop) (prior : Qc)
    (rows : list TimelineRow.t) : Prop :=
  match rows with
  | [] => True
  | row :: rest =>
      P prior row /\ linked P (TimelineRow.end_balance_nominal row) rest
  end.

(** The loop keeps [prior_year_end_balance] equal to [balance_nominal]. *)
Definition balanced (st : TL.locals) : Prop :=
  TL.prior_year_end_balance st = TL.balance_nominal st.

(** A scenario that differs only in its withdrawal frequency. *)
Definition with_withdrawal_frequency (s : Scenario.t) (frequency : string)
  : Scenario.t :=
  Scenario.mk (Scenario.name s) (Scenario.current_age s)
    (Scenario.retirement_age s) (Scenario.end_age s)
    (Scenario.current_balance s) (Scenario.contrib_amount s)
    (Scenario.contrib_cadence s) (Scenario.nominal_return_pct s)
    (Scenario.return_stdev_pct s) (Scenario.inflation_pct s)
    (Scenario.fee_pct s) (Scenario.withdrawal_method s)
    (Scenario.withdrawal_pct s) (Scenario.withdrawal_real_amount s)
    frequency (Scenario.liquidity_events s) (Scenario.enable_mc s)
    (Scenario.mc_runs s) (Scenario.enable_taxes s)
    (Scenario.effective_tax_rate_pct s) (Scenario.inflation_enabled s).

(** The width of the search interval after [k] iterations: it starts at
    20 and is halved by every iteration. *)
Fixpoint width_after (k : nat) : Qc :=
  match k with
  | O => num 20
  | S k' => width_after k' / num 2
  end.

(** A line of the solver's log is faithful: the minimum it records is the
    minimum nominal end balance of the timeline built with its rate as
    [withdrawal_pct], and its verdict is the test [min_balance >= 0]. *)
Definition entry_ok (scenario : Scenario.t)
    (liquidity_events : list LiquidityEvent.t) (e : DebugEntry) : Prop :=
  min_balance_of (Scenario.with_withdrawal_pct scenario (dbg_mid e))
    liquidity_events = Ok (dbg_min_balance e)
  /\ dbg_solvent e = Qcleb 0 (dbg_min_balance e).

(** What the binary search maintains between iterations. *)
Definition swr_inv (scenario : Scenario.t)
    (liquidity_events : list LiquidityEvent.t) (st : SWR.locals) : Prop :=
  SWR.low st = SWR.best_rate st
  /\ SWR.high st - SWR.low st = width_after (List.length (SWR.debug_info st))
  /\ Forall (entry_ok scenario liquidity_events) (SWR.debug_info st)
  /\ ((SWR.best_rate st = 0
       /\ forall e, In e (SWR.debug_info st) -> dbg_solvent e = false)
      \/ exists e, In e (SWR.debug_info st)
                   /\ dbg_mid e = SWR.best_rate st /\ dbg_solvent e = true)
  /\ (SWR.high st = num 20
      \/ exists e, In e (SWR.debug_info st)
                   /\ dbg_mid e = SWR.high st /\ dbg_solvent e = false).

(** The timeline built with [r] as [withdrawal_pct] never goes negative:
    every row ends with a nominal balance [>= 0]. *)
Definition solvent_at (scenario : Scenario.t)
    (liquidity_events : list LiquidityEvent.t) (r : Qc) : Prop :=
  exists rows m,
    build_timeline (Scenario.with_withdrawal_pct scenario r) liquidity_events
    = Ok (rows, m)
    /\ forall row, In row rows -> 0 <= TimelineRow.end_balance_nominal row.

(** The timeline built with [r] as [withdrawal_pct] has a negative minimum:
    some row ends with a nominal balance [< 0]. *)
Definition insolvent_at (scenario : Scenario.t)
    (liquidity_events : list LiquidityEvent.t) (r : Qc) : Prop :=
  exists rows m,
    build_timeline (Scenario.with_withdrawal_pct scenario r) liquidity_events
    = Ok (rows, m)
    /\ exists row, In row rows /\ TimelineRow.end_balance_nominal row < 0.

(** The default arguments of [solve_safe_withdrawal_rate]. *)
Definition default_tolerance : Qc := Q2Qc (1 # 100).
Definition default_max_iterations : Z := 50.

(** A retiree in the last year of the plan: one simulated age, 100 in the
    portfolio, 7% return, 4% withdrawals by the percentage method. *)
Definition last_year_scenario : Scenario.t :=
  Scenario.mk "last year" 65 65 65 (num 100) 0 "Annual" (num 7) 0 (num 3) 0
    PCT_METHOD (num 4) (num 50000) "Annual" [] false 1000 false 0 true.

(** A plan that ends before it starts: no age is simulated. *)
Definition backwards_scenario : Scenario.t :=
  Scenario.mk "backwards" 65 65 64 (num 100) 0 "Annual" (num 7) 0 (num 3) 0
    PCT_METHOD (num 4) (num 50000) "Annual" [] false 1000 false 0 true.

(** A retiree over three ages (65 to 67) under the percentage method, with
    inflation applied at -100%: the price index is 1, 1, 0. *)
Definition deflation_scenario : Scenario.t :=
  Scenario.mk "deflation" 65 65 67 (num 1000000) 0 "Annual" (num 7) 0
    (- num 100) 0 PCT_METHOD (num 4) (num 50000) "Annual" [] true 1000
    false 0 true.

(** Price indices linked to one another when inflation is applied: a row
    records the index carried in, and the next row is carried that index
    compounded by [1 + rate]. *)
Fixpoint cpi_chain (rate : Qc) (carried : Qc) (rows : list TimelineRow.t)
  : Prop :=
  match rows with
  | [] => True
  | row :: rest =>
      TimelineRow.cpi_index row = carried
      /\ cpi_chain rate (carried * (1 + rate)) rest
  end.

(** A retiree with three simulated ages (65 to 67) drawing a fixed real
    50000 a year from 1000000 at 7% return and 3% inflation, no fees, no
    taxes, no volatility. *)
Definition three_year_scenario : Scenario.t :=
  Scenario.mk "three years" 65 65 67 (num 1000000) 0 "Annual" (num 7) 0
    (num 3) 0 "Fixed real dollars" (num 4) (num 50000) "Annual" [] true 1000
    false 0 true.

(** The same retiree over two ages (65 and 66). *)
Definition two_year_scenario : Scenario.t :=
  Scenario.mk "two years" 65 65 66 (num 1000000) 0 "Annual" (num 7) 0
    (num 3) 0 "Fixed real dollars" (num 4) (num 50000) "Annual" [] true 1000
    false 0 true.

(** One retirement year under the percentage method with the withdrawal
    frequency stored as Monthly. *)
Definition monthly_pct_scenario : Scenario.t :=
  Scenario.mk "monthly pct" 65 65 65 (num 100000) 0 "Annual" (num 7) 0
    (num 3) 0 PCT_METHOD (num 4) (num 50000) MONTHLY [] true 1000
    false 0 true.

(** A taxable monthly pension of 100 from age 60 to 90, taxed at 20%. *)
Definition pension : LiquidityEvent.t :=
  LiquidityEvent.mk "Credit" "Pension" 60 90 (num 100) MONTHLY true true
    (num 20).

(** The same pension, switched off. *)
Definition pension_disabled : LiquidityEvent.t :=
  LiquidityEvent.mk "Credit" "Pension" 60 90 (num 100) MONTHLY false true
    (num 20).

(** A one-time, untaxed purchase of 30000 at age 66. *)
Definition car : LiquidityEvent.t :=
  LiquidityEvent.mk "Debit" "Car" 66 66 (- num 30000) ONE_TIME true false 0.

(** A one-time, untaxed bill of 90 at age 65. *)
Definition final_bill : LiquidityEvent.t :=
  LiquidityEvent.mk "Debit" "Bill" 65 65 (- num 90) ONE_TIME true false 0.

(** The age of the first row whose nominal end balance is negative. *)
Definition first_negative (rows : list TimelineRow.t) : option Z :=
  option_map TimelineRow.age
    (find (fun row => Qcltb (TimelineRow.end_balance_nominal row) 0) rows).

(** The deterministic timeline reads the events only through the net
    amount and the tax of each age: two event lists that agree on both at
    every age are interchangeable. *)
Definition same_cash_flows (events events' : list LiquidityEvent.t) : Prop :=
  forall age,
    net_of (apply_liquidity_events age events)
    = net_of (apply_liquidity_events age events')
    /\ taxes_of (apply_liquidity_events age events)
       = taxes_of (apply_liquidity_events age events').

(** A saver aged 30 who retires at 32 and plans to 33: 100000 invested,
    500 a month contributed, 7% return, 0.5% fee, 4% withdrawals. *)
Definition saver_scenario : Scenario.t :=
  Scenario.mk "saver" 30 32 33 (num 100000) (num 500) MONTHLY (num 7)
    (num 15) (num 3) (Q2Qc (1 # 2)) PCT_METHOD (num 4) (num 50000) "Annual"
    [] true 1000 false 0 true.

(** The locals of the solver after one iteration tested [mid] and found
    the minimum balance [mb]. *)
Definition swr_next (st : SWR.locals) (iteration : Z) (mid mb : Qc)
  : SWR.locals :=
  if Qcleb 0 mb then
    SWR.mk mid (SWR.high st) mid
      (SWR.debug_info st ++ [mkDebugEntry (iteration + 1) mid mb true])
  else
    SWR.mk (SWR.low st) mid (SWR.best_rate st)
      (SWR.debug_info st ++ [mkDebugEntry (iteration + 1) mid mb false]).

(** The locals of [find_safe_withdrawal_rate] after one iteration. *)
Definition find_next (st : Find.locals) (mid min_balance : Qc)
  : Find.locals :=
  if Qcleb 0 min_balance
  then Find.mk mid (Find.high st) mid
  else Find.mk (Find.low st) mid (Find.best_rate st).

(** The search of [test_swr.py] works in decimals, the solver of the app
    in percent: the same interval, a hundred times smaller. *)
Definition same_search (st : SWR.locals) (ft : Find.locals) : Prop :=
  Find.low ft = SWR.low st / num 100
  /\ Find.high ft = SWR.high st / num 100
  /\ Find.best_rate ft = SWR.best_rate st / num 100.

(** A retiree over two ages (65 and 66) under the percentage method,
    with withdrawals taxed at 20%. *)
Definition taxed_scenario : Scenario.t :=
  Scenario.mk "taxed" 65 65 66 (num 1000000) 0 "Annual" (num 7) 0
    (num 3) 0 PCT_METHOD (num 4) (num 50000) "Annual" [] true 1000
    true (num 20) true.

(** A scenario that differs only in its "Apply Inflation" toggle. *)
Definition with_inflation_enabled (s : Scenario.t) (flag : bool)
  : Scenario.t :=
  Scenario.mk (Scenario.name s) (Scenario.current_age s)
    (Scenario.retirement_age s) (Scenario.end_age s)
    (Scenario.current_balance s) (Scenario.contrib_amount s)
    (Scenario.contrib_cadence s) (Scenario.nominal_return_pct s)
    (Scenario.return_stdev_pct s) (Scenario.inflation_pct s)
    (Scenario.fee_pct s) (Scenario.withdrawal_method s)
    (Scenario.withdrawal_pct s) (Scenario.withdrawal_real_amount s)
    (Scenario.withdrawal_frequency s) (Scenario.liquidity_events s)
    (Scenario.enable_mc s) (Scenario.mc_runs s) (Scenario.enable_taxes s)
    (Scenario.effective_tax_rate_pct s) flag.

(** A scenario that differs only in its inflation settings. *)
Definition with_inflation (s : Scenario.t) (pct : Qc) (flag : bool)
  : Scenario.t :=
  Scenario.mk (Scenario.name s) (Scenario.current_age s)
    (Scenario.retirement_age s) (Scenario.end_age s)
    (Scenario.current_balance s) (Scenario.contrib_amount s)
    (Scenario.contrib_cadence s) (Scenario.nominal_return_pct s)
    (Scenario.return_stdev_pct s) pct
    (Scenario.fee_pct s) (Scenario.withdrawal_method s)
    (Scenario.withdrawal_pct s) (Scenario.withdrawal_real_amount s)
    (Scenario.withdrawal_frequency s) (Scenario.liquidity_events s)
    (Scenario.enable_mc s) (Scenario.mc_runs s) (Scenario.enable_taxes s)
    (Scenario.effective_tax_rate_pct s) flag.

(** The columns of a row that are in nominal currency, with its age. *)
Definition nominal_columns (row : TimelineRow.t)
  : Z * Qc * Qc * Qc * Qc * Qc * Qc * Qc * Qc :=
  (TimelineRow.age row, TimelineRow.start_balance_nominal row,
   TimelineRow.contributions row, TimelineRow.liquidity_net row,
   TimelineRow.withdrawals row, TimelineRow.fees row, TimelineRow.taxes row,
   TimelineRow.growth row, TimelineRow.end_balance_nominal row).

(** The same event in a currency unit [k] times smaller. *)
Definition scale_event (k : Qc) (e : LiquidityEvent.t) : LiquidityEvent.t :=
  LiquidityEvent.mk (LiquidityEvent.type e) (LiquidityEvent.label e)
    (LiquidityEvent.start_age e) (LiquidityEvent.end_age e)
    (k * LiquidityEvent.amount e) (LiquidityEvent.recurrence e)
    (LiquidityEvent.enabled e) (LiquidityEvent.taxable e)
    (LiquidityEvent.tax_rate e).

(** The same scenario with every money amount multiplied by [k]. *)
Definition scale_scenario (k : Qc) (s : Scenario.t) : Scenario.t :=
  Scenario.mk (Scenario.name s) (Scenario.current_age s)
    (Scenario.retirement_age s) (Scenario.end_age s)
    (k * Scenario.current_balance s) (k * Scenario.contrib_amount s)
    (Scenario.contrib_cadence s) (Scenario.nominal_return_pct s)
    (Scenario.return_stdev_pct s) (Scenario.inflation_pct s)
    (Scenario.fee_pct s) (Scenario.withdrawal_method s)
    (Scenario.withdrawal_pct s) (k * Scenario.withdrawal_real_amount s)
    (Scenario.withdrawal_frequency s) (Scenario.liquidity_events s)
    (Scenario.enable_mc s) (Scenario.mc_runs s) (Scenario.enable_taxes s)
    (Scenario.effective_tax_rate_pct s) (Scenario.inflation_enabled s).

(** The same row with every money column multiplied by [k]. *)
Definition scale_row (k : Qc) (r : TimelineRow.t) : TimelineRow.t :=
  TimelineRow.mk (TimelineRow.age r)
    (k * TimelineRow.start_balance_nominal r)
    (k * TimelineRow.contributions r)
    (k * TimelineRow.liquidity_net r)
    (k * TimelineRow.withdrawals r)
    (k * TimelineRow.fees r)
    (k * TimelineRow.taxes r)
    (k * TimelineRow.growth r)
    (k * TimelineRow.end_balance_nominal r)
    (TimelineRow.cpi_index r)
    (k * TimelineRow.end_balance_real r).

(** Loop locals that carry the same state in the scaled currency. *)
Definition scaled_locals (k : Qc) (st st' : TL.locals) : Prop :=
  TL.balance_nominal st' = k * TL.balance_nominal st
  /\ TL.prior_year_end_balance st' = k * TL.prior_year_end_balance st
  /\ TL.cpi_index st' = TL.cpi_index st.

(** What the caller of the solver receives: the rate, without the
    iteration log left in the session state. *)
Definition returned_rate (r : result (option Qc * list DebugEntry))
  : result (option Qc) :=
  match r with
  | Ok (rate, _) => Ok rate
  | Raise e => Raise e
  end.

(** The interval and best rate a search ends with. *)
Definition search_interval (r : result SWR.locals) : result (Qc * Qc * Qc) :=
  match r with
  | Ok st => Ok (SWR.low st, SWR.high st, SWR.best_rate st)
  | Raise e => Raise e
  end.

(** The linear interpolation of [np.percentile] between the two order
    statistics around a virtual index of the sorted sample [a]. *)
Definition interpolate (a : list Qc) (virtual_index : Qc) : Qc :=
  let previous := Z.to_nat (Qfloor virtual_index) in
  let next := Nat.min (S previous) (List.length a - 1) in
  let gamma := virtual_index - num (Z.of_nat previous) in
  nth previous a 0 + (nth next a 0 - nth previous a 0) * gamma.

(** Trial locals that carry the same state in the scaled currency. *)
Definition scaled_trial (k : Qc) (st st' : MC.locals) : Prop :=
  MC.balance_nominal st' = k * MC.balance_nominal st
  /\ MC.cpi_index st' = MC.cpi_index st
  /\ MC.prior_year_end_balance st' = k * MC.prior_year_end_balance st
  /\ MC.path st' = map (Qcmult k) (MC.path st)
  /\ MC.min_balance st' = k * MC.min_balance st.

(** The same Monte Carlo result with every money figure multiplied by [k];
    the probability has no unit. *)
Definition scale_result (k : Qc) (mc : MCResult.t) : MCResult.t :=
  MCResult.mk (MCResult.probability_no_shortfall mc)
    (option_map (Qcmult k) (MCResult.median_terminal mc))
    (option_map (Qcmult k) (MCResult.p10_terminal mc))
    (option_map (Qcmult k) (MCResult.p90_terminal mc))
    (option_map (map (Qcmult k)) (MCResult.p10_path mc))
    (option_map (map (Qcmult k)) (MCResult.p50_path mc))
    (option_map (map (Qcmult k)) (MCResult.p90_path mc)).

(** * Properties *)

(** ** Order and equality helpers *)

Lemma Qcltb_lt (a b : Qc) : Qcltb a b = true <-> a < b.
Proof.
  unfold Qcltb. rewrite Qclt_alt.
  destruct (a ?= b); split; congruence.
Qed.

Lemma Qcleb_le (a b : Qc) : Qcleb a b = true <-> a <= b.
Proof.
  unfold Qcleb. rewrite Qcle_alt.
  destruct (a ?= b); split; congruence.
Qed.

Lemma Qcltb_false_le (a b : Qc) : Qcltb a b = false <-> b <= a.
Proof.
  split; intro H.
  - apply Qcnot_lt_le. intro L. apply Qcltb_lt in L. congruence.
  - destruct (Qcltb a b) eqn:E; [|reflexivity].
    apply Qcltb_lt in E. exfalso. exact (Qcle_not_lt _ _ H E).
Qed.

Lemma Qcleb_false_lt (a b : Qc) : Qcleb a b = false <-> b < a.
Proof.
  split; intro H.
  - apply Qcnot_le_lt. intro L. apply Qcleb_le in L. congruence.
  - destruct (Qcleb a b) eqn:E; [|reflexivity].
    apply Qcleb_le in E. exfalso. exact (Qcle_not_lt _ _ E H).
Qed.

Lemma num_2 : num 2 = 1 + 1.
Proof. apply Qc_is_canon. reflexivity. Qed.

Lemma num_100_neq_0 : num 100 <> 0.
Proof. discriminate. Qed.

Lemma triple_eq {A B C : Type} (a a' : A) (b b' : B) (c c' : C) :
  a = a' -> b = b' -> c = c' -> (a, b, c) = (a', b', c').
Proof. intros; subst; reflexivity. Qed.

Ltac triple := apply triple_eq; [try ring | try reflexivity | try ring].

Lemma py_range_length (lo hi : Z) :
  List.length (py_range lo hi) = Z.to_nat (hi - lo).
Proof. unfold py_range. now rewrite length_map, length_seq. Qed.

Lemma py_range_nth (lo hi : Z) (i : nat) :
  (i < Z.to_nat (hi - lo))%nat ->
  nth_error (py_range lo hi) i = Some (lo + Z.of_nat i)%Z.
Proof.
  intro H. unfold py_range.
  rewrite nth_error_map, nth_error_seq.
  destruct (Nat.ltb_spec i (Z.to_nat (hi - lo))); [reflexivity | lia].
Qed.

(** ** The aggregator is a sum of per-event contributions *)

Lemma acc_add_assoc (a b c : Qc * list string * Qc) :
  acc_add (acc_add a b) c = acc_add a (acc_add b c).
Proof.
  destruct a as [[? ?] ?], b as [[? ?] ?], c as [[? ?] ?].
  unfold acc_add, net_of, labels_of, taxes_of; simpl.
  triple. now rewrite app_assoc.
Qed.

Lemma acc_add_zero_r (a : Qc * list string * Qc) : acc_add a (0, [], 0) = a.
Proof.
  destruct a as [[n l] t].
  unfold acc_add, net_of, labels_of, taxes_of; simpl.
  triple. now rewrite app_nil_r.
Qed.

Lemma acc_add_zero_l (a : Qc * list string * Qc) : acc_add (0, [], 0) a = a.
Proof.
  destruct a as [[n l] t].
  unfold acc_add, net_of, labels_of, taxes_of; simpl.
  triple.
Qed.

Lemma event_step_delta (age : Z) (acc : Qc * list string * Qc)
    (event : LiquidityEvent.t) :
  event_step age acc event = acc_add acc (event_delta age event).
Proof.
  destruct acc as [[n l] t].
  unfold event_delta, event_step.
  destruct (negb (LiquidityEvent.enabled event));
    [now rewrite acc_add_zero_r|].
  destruct ((LiquidityEvent.start_age event <=? age)%Z
            && (age <=? LiquidityEvent.end_age event)%Z)%bool;
    [|now rewrite acc_add_zero_r].
  destruct (LiquidityEvent.recurrence event =? ONE_TIME)%string.
  - destruct (age =? LiquidityEvent.start_age event)%Z;
      [|now rewrite acc_add_zero_r].
    unfold acc_add, net_of, labels_of, taxes_of; simpl.
    destruct (LiquidityEvent.taxable event
              && Qcltb 0 (LiquidityEvent.amount event))%bool;
      triple.
  - unfold acc_add, net_of, labels_of, taxes_of; simpl.
    match goal with
    | |- context [(LiquidityEvent.taxable event && ?c)%bool] =>
        destruct (LiquidityEvent.taxable event && c)%bool
    end; triple.
Qed.

Lemma fold_event_step_acc (age : Z) (events : list LiquidityEvent.t) :
  forall acc,
    fold_left (event_step age) events acc
    = acc_add acc (apply_liquidity_events age events).
Proof.
  unfold apply_liquidity_events.
  induction events as [|e es IH]; intro acc; cbn [fold_left].
  - now rewrite acc_add_zero_r.
  - rewrite IH. rewrite (IH (event_step age (0, [], 0) e)).
    rewrite (event_step_delta age acc e).
    unfold event_delta. now rewrite acc_add_assoc.
Qed.

Lemma apply_liquidity_events_app (age : Z) (l1 l2 : list LiquidityEvent.t) :
  apply_liquidity_events age (l1 ++ l2)
  = acc_add (apply_liquidity_events age l1) (apply_liquidity_events age l2).
Proof.
  unfold apply_liquidity_events at 1.
  rewrite fold_left_app.
  now rewrite fold_event_step_acc.
Qed.

Lemma apply_liquidity_events_cons (age : Z) (e : LiquidityEvent.t)
    (l : list LiquidityEvent.t) :
  apply_liquidity_events age (e :: l)
  = acc_add (event_delta age e) (apply_liquidity_events age l).
Proof.
  unfold apply_liquidity_events at 1. cbn [fold_left].
  rewrite fold_event_step_acc. reflexivity.
Qed.

(** The contribution of one event, case by case. *)
Lemma event_delta_cases (age : Z) (event : LiquidityEvent.t) :
  event_delta age event =
  if (LiquidityEvent.enabled event
      && (LiquidityEvent.start_age event <=? age)%Z
      && (age <=? LiquidityEvent.end_age event)%Z
      && (negb (LiquidityEvent.recurrence event =? ONE_TIME)%string
          || (age =? LiquidityEvent.start_age event)%Z))%bool
  then (annualized event,
        [LiquidityEvent.label event],
        if (LiquidityEvent.taxable event && Qcltb 0 (annualized event))%bool
        then annualized event * (LiquidityEvent.tax_rate event / num 100)
        else 0)
  else (0, [], 0).
Proof.
  unfold event_delta, event_step, annualized.
  destruct (LiquidityEvent.enabled event); simpl; [|reflexivity].
  destruct (LiquidityEvent.start_age event <=? age)%Z; simpl; [|reflexivity].
  destruct (age <=? LiquidityEvent.end_age event)%Z; simpl; [|reflexivity].
  destruct (LiquidityEvent.recurrence event =? ONE_TIME)%string eqn:R; simpl.
  - apply String.eqb_eq in R. rewrite R. simpl.
    destruct (age =? LiquidityEvent.start_age event)%Z; [|reflexivity].
    destruct (LiquidityEvent.taxable event
              && Qcltb 0 (LiquidityEvent.amount event))%bool;
      simpl; triple.
  - match goal with
    | |- context [(LiquidityEvent.taxable event && ?c)%bool] =>
        destruct (LiquidityEvent.taxable event && c)%bool
    end; simpl; triple.
Qed.

(** Inserting one event anywhere in the list adds its contribution to the
    net amount and the tax, and its label at that place. *)
Lemma apply_liquidity_events_insert (age : Z) (l1 l2 : list LiquidityEvent.t)
    (event : LiquidityEvent.t) :
  let r := apply_liquidity_events age (l1 ++ event :: l2) in
  let r0 := apply_liquidity_events age (l1 ++ l2) in
  let d := event_delta age event in
  net_of r = net_of r0 + net_of d
  /\ labels_of r
     = labels_of (apply_liquidity_events age l1)
       ++ labels_of d ++ labels_of (apply_liquidity_events age l2)
  /\ taxes_of r = taxes_of r0 + taxes_of d.
Proof.
  cbv zeta.
  rewrite !apply_liquidity_events_app, apply_liquidity_events_cons.
  unfold acc_add, net_of, labels_of, taxes_of; simpl.
  repeat split; ring.
Qed.

(** C5. At every age and for every event list, one event of the list
    (wherever it stands) changes the outputs of [apply_liquidity_events]
    as follows.  (A) It changes none of the three outputs when it is
    disabled, when the age is outside [start_age, end_age], or when it is
    one-time and the age is not its start age.  (B) Otherwise (enabled,
    age in range, and recurring or at its start age) it adds its
    annualized amount (the amount, times 12 when Monthly) to the net and
    its label to the labels, and adds to the tax [amount * tax_rate / 100]
    when it is taxable with a strictly positive annualized amount, and
    nothing otherwise.  (C) Hence its tax is nonzero only if it is taxable
    and its annualized amount is strictly positive. *)
Theorem apply_liquidity_events_event_rules :
  forall (age : Z) (l1 l2 : list LiquidityEvent.t) (event : LiquidityEvent.t),
    let r := apply_liquidity_events age (l1 ++ event :: l2) in
    let r0 := apply_liquidity_events age (l1 ++ l2) in
    (LiquidityEvent.enabled event = false
     \/ ~ (LiquidityEvent.start_age event <= age <= LiquidityEvent.end_age event)%Z
     \/ (LiquidityEvent.recurrence event = ONE_TIME
         /\ age <> LiquidityEvent.start_age event)
     -> r = r0)
    /\ (LiquidityEvent.enabled event = true ->
        (LiquidityEvent.start_age event <= age <= LiquidityEvent.end_age event)%Z ->
        (LiquidityEvent.recurrence event = ONE_TIME ->
         age = LiquidityEvent.start_age event) ->
        net_of r = net_of r0 + annualized event
        /\ labels_of r
           = labels_of (apply_liquidity_events age l1)
             ++ LiquidityEvent.label event
                :: labels_of (apply_liquidity_events age l2)
        /\ taxes_of r
           = taxes_of r0
             + (if (LiquidityEvent.taxable event
                    && Qcltb 0 (annualized event))%bool
                then annualized event * LiquidityEvent.tax_rate event / num 100
                else 0))
    /\ (taxes_of r <> taxes_of r0 ->
        LiquidityEvent.taxable event = true
        /\ 0 < annualized event
        /\ taxes_of r
           = taxes_of r0
             + annualized event * LiquidityEvent.tax_rate event / num 100).
Proof.
  intros age l1 l2 event r r0.
  destruct (apply_liquidity_events_insert age l1 l2 event) as (Hn & Hl & Ht).
  fold r in Hn, Hl, Ht. fold r0 in Hn, Ht.
  pose proof (event_delta_cases age event) as Hd.
  assert (Hdiv : forall a b : Qc, a * (b / num 100) = a * b / num 100).
  { intros a b. unfold num. field. discriminate. }
  split; [|split].
  - (* (A) nothing is contributed *)
    intro Hskip.
    assert (Hz : event_delta age event = (0, [], 0)).
    { rewrite Hd.
      destruct Hskip as [He | [Hr | [Ho Hs]]].
      - now rewrite He.
      - destruct (LiquidityEvent.enabled event); [|reflexivity].
        destruct (Z.leb_spec (LiquidityEvent.start_age event) age);
          [|reflexivity].
        destruct (Z.leb_spec age (LiquidityEvent.end_age event));
          [|reflexivity].
        exfalso; apply Hr; lia.
      - rewrite Ho. simpl.
        apply Z.eqb_neq in Hs. rewrite Hs.
        now rewrite !andb_false_r. }
    subst r r0.
    rewrite !apply_liquidity_events_app, apply_liquidity_events_cons.
    now rewrite Hz, acc_add_zero_l.
  - (* (B) the event is let through *)
    intros He [Hlo Hhi] Hone.
    assert (Hon : event_delta age event
                  = (annualized event, [LiquidityEvent.label event],
                     if (LiquidityEvent.taxable event
                         && Qcltb 0 (annualized event))%bool
                     then annualized event
                          * (LiquidityEvent.tax_rate event / num 100)
                     else 0)).
    { rewrite Hd, He.
      apply Z.leb_le in Hlo. apply Z.leb_le in Hhi. rewrite Hlo, Hhi. simpl.
      destruct (LiquidityEvent.recurrence event =? ONE_TIME)%string eqn:R.
      - apply String.eqb_eq in R. rewrite (Hone R), Z.eqb_refl. reflexivity.
      - reflexivity. }
    rewrite Hon in Hn, Hl, Ht. unfold net_of, labels_of, taxes_of in *.
    simpl in Hn, Hl, Ht.
    repeat split; [exact Hn | exact Hl |].
    rewrite Ht.
    destruct (LiquidityEvent.taxable event && Qcltb 0 (annualized event))%bool;
      [now rewrite Hdiv | reflexivity].
  - (* (C) a tax needs a taxable, strictly positive amount *)
    intro Hneq.
    rewrite Hd in Ht.
    match type of Ht with
    | context [if ?c then (_, _, _) else _] => destruct c
    end; unfold taxes_of in *; simpl in Ht.
    + destruct (LiquidityEvent.taxable event) eqn:T; simpl in Ht.
      * destruct (Qcltb 0 (annualized event)) eqn:P.
        -- apply Qcltb_lt in P. repeat split; trivial.
           now rewrite Ht, Hdiv.
        -- exfalso. apply Hneq. rewrite Ht. ring.
      * exfalso. apply Hneq. rewrite Ht. ring.
    + exfalso. apply Hneq. rewrite Ht. ring.
Qed.

(** C10, as amended.  Over exact arithmetic [apply_liquidity_events] is
    additive over the event list: the net amount and the event tax of a
    concatenation are the sums of those of the two lists, the labels are
    the concatenation of the labels, and permuting the list changes
    neither the net amount nor the tax.  (In binary64 the sums are
    accumulated in list order and rounded one by one, so both equalities
    hold only up to rounding.) *)
Theorem apply_liquidity_events_additive :
  (forall (age : Z) (l1 l2 : list LiquidityEvent.t),
      net_of (apply_liquidity_events age (l1 ++ l2))
      = net_of (apply_liquidity_events age l1)
        + net_of (apply_liquidity_events age l2)
      /\ taxes_of (apply_liquidity_events age (l1 ++ l2))
         = taxes_of (apply_liquidity_events age l1)
           + taxes_of (apply_liquidity_events age l2)
      /\ labels_of (apply_liquidity_events age (l1 ++ l2))
         = labels_of (apply_liquidity_events age l1)
           ++ labels_of (apply_liquidity_events age l2))
  /\ (forall (age : Z) (l l' : list LiquidityEvent.t),
         Permutation l l' ->
         net_of (apply_liquidity_events age l)
         = net_of (apply_liquidity_events age l')
         /\ taxes_of (apply_liquidity_events age l)
            = taxes_of (apply_liquidity_events age l')).
Proof.
  split.
  - intros age l1 l2. rewrite apply_liquidity_events_app.
    unfold acc_add, net_of, labels_of, taxes_of; simpl. auto.
  - intros age l l' P.
    induction P as [|x l l' P IH|x y l|l l' l'' P1 IH1 P2 IH2].
    + auto.
    + rewrite !apply_liquidity_events_cons.
      unfold acc_add, net_of, labels_of, taxes_of in *; simpl.
      destruct IH as [IHn IHt]. now rewrite IHn, IHt.
    + rewrite !apply_liquidity_events_cons.
      unfold acc_add, net_of, labels_of, taxes_of; simpl.
      split; ring.
    + destruct IH1, IH2. split; congruence.
Qed.

(** ** The deterministic timeline, row by row *)

Lemma run_ages_rows (scenario : Scenario.t)
    (liquidity_events : list LiquidityEvent.t) (ages : list Z) :
  forall st,
    TL.rows (run_ages scenario liquidity_events ages st)
    = TL.rows st ++ timeline_gen scenario liquidity_events ages st.
Proof.
  unfold run_ages.
  induction ages as [|age rest IH]; intro st; simpl.
  - now rewrite app_nil_r.
  - rewrite IH. unfold step_at at 2. unfold timeline_step. simpl.
    now rewrite <- app_assoc.
Qed.

Lemma timeline_rows_gen (scenario : Scenario.t)
    (liquidity_events : list LiquidityEvent.t) :
  timeline_rows scenario liquidity_events
  = timeline_gen scenario liquidity_events
      (py_range (Scenario.current_age scenario)
                (Scenario.end_age scenario + 1))
      (timeline_init scenario).
Proof. unfold timeline_rows. now rewrite run_ages_rows. Qed.

Lemma last_map_Some {A : Type} (l : list A) :
  last (map Some l) None = None <-> l = [].
Proof.
  split; [|intros ->; reflexivity].
  induction l as [|x [|y l] IH]; simpl in *; intro H; try congruence.
  discriminate (IH H).
Qed.

Lemma timeline_gen_ages (scenario : Scenario.t)
    (liquidity_events : list LiquidityEvent.t) (ages : list Z) :
  forall st,
    map TimelineRow.age (timeline_gen scenario liquidity_events ages st) = ages.
Proof.
  induction ages as [|age rest IH]; intro st; simpl; [reflexivity|].
  rewrite IH. f_equal.
  unfold row_at.
  now destruct (apply_liquidity_events age liquidity_events) as [[? ?] ?].
Qed.

Lemma timeline_rows_ages (scenario : Scenario.t)
    (liquidity_events : list LiquidityEvent.t) :
  map TimelineRow.age (timeline_rows scenario liquidity_events)
  = py_range (Scenario.current_age scenario) (Scenario.end_age scenario + 1).
Proof. rewrite timeline_rows_gen. apply timeline_gen_ages. Qed.

Lemma py_range_cons (lo hi : Z) :
  (lo < hi)%Z -> py_range lo hi = lo :: py_range (lo + 1) hi.
Proof.
  intro H. unfold py_range.
  replace (Z.to_nat (hi - lo)) with (S (Z.to_nat (hi - (lo + 1)))) by lia.
  simpl. f_equal; [f_equal; lia|].
  rewrite <- seq_shift, map_map.
  apply map_ext. intro i. lia.
Qed.

Lemma py_range_nil (lo hi : Z) : (hi <= lo)%Z -> py_range lo hi = [].
Proof.
  intro H. unfold py_range.
  replace (Z.to_nat (hi - lo)) with O by lia. reflexivity.
Qed.

Lemma py_range_lower (lo hi a : Z) : In a (py_range lo hi) -> (lo <= a < hi)%Z.
Proof.
  unfold py_range. rewrite in_map_iff.
  intros (i & <- & Hi). apply in_seq in Hi. lia.
Qed.

(** ** When the division by the price index raises *)

Lemma Qceqb_eq (a b : Qc) : Qceqb a b = true <-> a = b.
Proof.
  unfold Qceqb. rewrite Qceq_alt.
  destruct (a ?= b); split; congruence.
Qed.

Lemma Qceqb_neq (a b : Qc) : Qceqb a b = false <-> a <> b.
Proof.
  rewrite <- Qceqb_eq. destruct (Qceqb a b); split; congruence.
Qed.

Lemma row_at_cpi (scenario : Scenario.t)
    (liquidity_events : list LiquidityEvent.t) (st : TL.locals) (age : Z) :
  TimelineRow.cpi_index (row_at scenario liquidity_events st age)
  = if (Scenario.inflation_enabled scenario
        && (age =? Scenario.current_age scenario)%Z)%bool
    then 1 else TL.cpi_index st.
Proof.
  unfold row_at.
  now destruct (apply_liquidity_events age liquidity_events) as [[? ?] ?].
Qed.

Lemma step_at_cpi (scenario : Scenario.t)
    (liquidity_events : list LiquidityEvent.t) (st : TL.locals) (age : Z) :
  TL.cpi_index (step_at scenario liquidity_events st age)
  = if (Scenario.inflation_enabled scenario
        && negb (age =? Scenario.current_age scenario)%Z)%bool
    then TimelineRow.cpi_index
           (row_at scenario liquidity_events st age)
         * (1 + inflation_rate scenario)
    else TimelineRow.cpi_index
           (row_at scenario liquidity_events st age).
Proof. reflexivity. Qed.

(** The loop body raises exactly when inflation is applied and the index
    the row records is zero; otherwise it appends [row_at]. *)
Lemma timeline_row_cases (scenario : Scenario.t)
    (liquidity_events : list LiquidityEvent.t) (st : TL.locals) (age : Z) :
  timeline_row scenario liquidity_events st age
  = if divides_by_zero scenario (row_at scenario liquidity_events st age)
    then Raise ZeroDivisionError
    else Ok (row_at scenario liquidity_events st age).
Proof.
  unfold divides_by_zero. rewrite row_at_cpi.
  unfold timeline_row, row_at, py_div.
  destruct (apply_liquidity_events age liquidity_events) as [[n l] t].
  destruct (Scenario.inflation_enabled scenario); cbn [andb]; [|reflexivity].
  match goal with
  | |- context [Qceqb ?c 0] => destruct (Qceqb c 0)
  end; reflexivity.
Qed.

Lemma timeline_gen_cons (scenario : Scenario.t)
    (liquidity_events : list LiquidityEvent.t) (age : Z) (rest : list Z)
    (st : TL.locals) :
  timeline_gen scenario liquidity_events (age :: rest) st
  = row_at scenario liquidity_events st age
    :: timeline_gen scenario liquidity_events rest
         (step_at scenario liquidity_events st age).
Proof. reflexivity. Qed.

Lemma run_ages_cons (scenario : Scenario.t)
    (liquidity_events : list LiquidityEvent.t) (age : Z) (rest : list Z)
    (st : TL.locals) :
  run_ages scenario liquidity_events (age :: rest) st
  = run_ages scenario liquidity_events rest
      (step_at scenario liquidity_events st age).
Proof. reflexivity. Qed.

Lemma timeline_loop_cons (scenario : Scenario.t)
    (liquidity_events : list LiquidityEvent.t) (age : Z) (rest : list Z)
    (st : TL.locals) :
  timeline_loop scenario liquidity_events (age :: rest) st
  = match timeline_row scenario liquidity_events st age with
    | Raise e => Raise e
    | Ok row =>
        timeline_loop scenario liquidity_events rest
          (timeline_step scenario st age row)
    end.
Proof. reflexivity. Qed.

(** The loop raises exactly when one of the rows divides by zero, and
    otherwise ends in the locals of [run_ages]. *)
Lemma timeline_loop_cases (scenario : Scenario.t)
    (liquidity_events : list LiquidityEvent.t) (ages : list Z) :
  forall st,
    timeline_loop scenario liquidity_events ages st
    = if existsb (divides_by_zero scenario)
           (timeline_gen scenario liquidity_events ages st)
      then Raise ZeroDivisionError
      else Ok (run_ages scenario liquidity_events ages st).
Proof.
  induction ages as [|age rest IH]; intro st; [reflexivity|].
  rewrite timeline_loop_cons, timeline_gen_cons, run_ages_cons,
    timeline_row_cases.
  cbn [existsb].
  destruct (divides_by_zero scenario
              (row_at scenario liquidity_events st age));
    cbn [orb]; [reflexivity|].
  fold (step_at scenario liquidity_events st age). apply IH.
Qed.

Lemma gen_never_divides (scenario : Scenario.t)
    (liquidity_events : list LiquidityEvent.t) :
  Scenario.inflation_enabled scenario = false
  \/ 1 + inflation_rate scenario <> 0 ->
  forall ages st,
    TL.cpi_index st <> 0 ->
    existsb (divides_by_zero scenario)
      (timeline_gen scenario liquidity_events ages st) = false.
Proof.
  intro H. induction ages as [|age rest IH]; intros st Hst; [reflexivity|].
  rewrite timeline_gen_cons. cbn [existsb].
  assert (Hrow : Scenario.inflation_enabled scenario = false
                 \/ TimelineRow.cpi_index
                      (row_at scenario liquidity_events st age) <> 0).
  { rewrite row_at_cpi.
    destruct (Scenario.inflation_enabled scenario); [right | now left].
    cbn [andb]. destruct (age =? Scenario.current_age scenario)%Z;
      [discriminate | exact Hst]. }
  assert (Hd : divides_by_zero scenario
                 (row_at scenario liquidity_events st age) = false).
  { unfold divides_by_zero. destruct Hrow as [-> | Hrow]; [reflexivity|].
    apply Qceqb_neq in Hrow. rewrite Hrow. apply andb_false_r. }
  rewrite Hd. cbn [orb].
  destruct (Scenario.inflation_enabled scenario) eqn:En.
  - destruct H as [H | H]; [discriminate|].
    destruct Hrow as [Hrow | Hrow]; [discriminate|].
    apply IH. rewrite step_at_cpi, En. cbn [andb].
    destruct (negb (age =? Scenario.current_age scenario)%Z); [|exact Hrow].
    intro E. apply Qcmult_integral in E. destruct E; contradiction.
  - clear IH Hd Hrow H Hst. revert st.
    assert (G : forall ages' st',
               existsb (divides_by_zero scenario)
                 (timeline_gen scenario liquidity_events ages' st') = false).
    { induction ages' as [|a ages' IH']; intro st'; [reflexivity|].
      rewrite timeline_gen_cons. cbn [existsb].
      unfold divides_by_zero at 1. rewrite En. cbn [andb orb]. apply IH'. }
    intro st. apply G.
Qed.

(** Over the ages of a scenario, a row divides by zero exactly when
    [index_hits_zero] says so: the index is 1 for the first two ages and
    [(1 + inflation_rate)] to the power [i - 1] for the age of rank [i]. *)
Lemma timeline_rows_divide (scenario : Scenario.t)
    (liquidity_events : list LiquidityEvent.t) :
  existsb (divides_by_zero scenario)
    (timeline_gen scenario liquidity_events
       (py_range (Scenario.current_age scenario)
          (Scenario.end_age scenario + 1))
       (timeline_init scenario))
  = index_hits_zero scenario.
Proof.
  unfold index_hits_zero.
  destruct (Scenario.inflation_enabled scenario) eqn:En; cbn [andb].
  2:{ apply gen_never_divides; [now left | discriminate]. }
  destruct (Qceqb (1 + inflation_rate scenario) 0) eqn:Ez; cbn [andb].
  2:{ apply gen_never_divides;
        [right; now apply Qceqb_neq | discriminate]. }
  apply Qceqb_eq in Ez.
  set (cur := Scenario.current_age scenario) in *.
  set (st0 := timeline_init scenario).
  assert (H0 : TimelineRow.cpi_index
                 (row_at scenario liquidity_events st0 cur) = 1).
  { rewrite row_at_cpi, En. fold cur. now rewrite Z.eqb_refl. }
  assert (D0 : divides_by_zero scenario
                 (row_at scenario liquidity_events st0 cur) = false).
  { unfold divides_by_zero. now rewrite H0, En. }
  set (st1 := step_at scenario liquidity_events st0 cur).
  assert (C1 : TL.cpi_index st1 = 1).
  { unfold st1. rewrite step_at_cpi, En, H0. fold cur.
    now rewrite Z.eqb_refl. }
  assert (N1 : ((cur + 1 =? cur)%Z = false)) by (apply Z.eqb_neq; lia).
  assert (H1 : TimelineRow.cpi_index
                 (row_at scenario liquidity_events st1 (cur + 1)) = 1).
  { rewrite row_at_cpi, En. fold cur. now rewrite N1. }
  assert (D1 : divides_by_zero scenario
                 (row_at scenario liquidity_events st1 (cur + 1)) = false).
  { unfold divides_by_zero. now rewrite H1, En. }
  set (st2 := step_at scenario liquidity_events st1 (cur + 1)).
  assert (C2 : TL.cpi_index st2 = 0).
  { unfold st2. rewrite step_at_cpi, En, H1. fold cur. rewrite N1.
    cbn [andb negb]. rewrite Ez. ring. }
  assert (N2 : ((cur + 1 + 1 =? cur)%Z = false)) by (apply Z.eqb_neq; lia).
  assert (D2 : divides_by_zero scenario
                 (row_at scenario liquidity_events st2 (cur + 1 + 1)) = true).
  { unfold divides_by_zero. rewrite row_at_cpi, En. fold cur.
    now rewrite N2, C2. }
  destruct (Z.leb_spec (cur + 2) (Scenario.end_age scenario)) as [L | L].
  - rewrite (py_range_cons cur) by lia.
    rewrite (py_range_cons (cur + 1)) by lia.
    rewrite (py_range_cons (cur + 1 + 1)) by lia.
    rewrite !timeline_gen_cons. cbn [existsb].
    fold st1. fold st2. now rewrite D0, D1, D2.
  - destruct (Z.lt_ge_cases (Scenario.end_age scenario) cur) as [L0 | L0].
    { now rewrite py_range_nil by lia. }
    rewrite (py_range_cons cur) by lia.
    rewrite timeline_gen_cons. cbn [existsb]. fold st1. rewrite D0.
    cbn [orb].
    destruct (Z.eq_dec (Scenario.end_age scenario) cur) as [E | E].
    { now rewrite py_range_nil by lia. }
    rewrite (py_range_cons (cur + 1)) by lia.
    rewrite timeline_gen_cons. cbn [existsb]. rewrite D1. cbn [orb].
    now rewrite py_range_nil by lia.
Qed.

(** [build_timeline] raises [ZeroDivisionError] exactly when the price
    index reaches zero, and otherwise returns what the rows of [run_ages]
    give. *)
Lemma build_timeline_cases (scenario : Scenario.t)
    (liquidity_events : list LiquidityEvent.t) :
  build_timeline scenario liquidity_events
  = if index_hits_zero scenario then Raise ZeroDivisionError
    else timeline_result
           (run_ages scenario liquidity_events
              (py_range (Scenario.current_age scenario)
                 (Scenario.end_age scenario + 1))
              (timeline_init scenario)).
Proof.
  unfold build_timeline.
  rewrite timeline_loop_cases, timeline_rows_divide.
  now destruct (index_hits_zero scenario).
Qed.

Lemma build_timeline_no_zero (scenario : Scenario.t)
    (liquidity_events : list LiquidityEvent.t)
    (rows : list TimelineRow.t) (m : Metrics) :
  build_timeline scenario liquidity_events = Ok (rows, m) ->
  index_hits_zero scenario = false.
Proof.
  rewrite build_timeline_cases.
  now destruct (index_hits_zero scenario).
Qed.

Lemma build_timeline_result (scenario : Scenario.t)
    (liquidity_events : list LiquidityEvent.t)
    (rows : list TimelineRow.t) (m : Metrics) :
  build_timeline scenario liquidity_events = Ok (rows, m) ->
  timeline_result
    (run_ages scenario liquidity_events
       (py_range (Scenario.current_age scenario)
          (Scenario.end_age scenario + 1))
       (timeline_init scenario)) = Ok (rows, m).
Proof.
  rewrite build_timeline_cases.
  now destruct (index_hits_zero scenario).
Qed.

(** The index reaches zero exactly when inflation is applied at -100%
    over three ages or more. *)
Lemma index_hits_zero_spec (scenario : Scenario.t) :
  index_hits_zero scenario = true
  <-> Scenario.inflation_enabled scenario = true
      /\ Scenario.inflation_pct scenario = - num 100
      /\ (Scenario.current_age scenario + 2 <= Scenario.end_age scenario)%Z.
Proof.
  unfold index_hits_zero, inflation_rate.
  rewrite !andb_true_iff, Qceqb_eq, Z.leb_le.
  assert (E : 1 + Scenario.inflation_pct scenario / num 100 = 0
              <-> Scenario.inflation_pct scenario = - num 100).
  { split; intro H.
    - assert (G : Scenario.inflation_pct scenario
                  = (1 + Scenario.inflation_pct scenario / num 100) * num 100
                    - num 100)
        by (field; discriminate).
      rewrite G, H. ring.
    - rewrite H. apply Qc_is_canon. reflexivity. }
  rewrite E. tauto.
Qed.

Lemma timeline_rows_empty (scenario : Scenario.t)
    (liquidity_events : list LiquidityEvent.t) :
  timeline_rows scenario liquidity_events = [] ->
  (Scenario.end_age scenario < Scenario.current_age scenario)%Z.
Proof.
  intro H. pose proof (timeline_rows_ages scenario liquidity_events) as A.
  rewrite H in A. cbn [map] in A.
  apply (f_equal (@List.length Z)) in A.
  rewrite py_range_length in A. cbn [List.length] in A. lia.
Qed.

(** [build_timeline] returns exactly the rows of the loop; with no row
    it raises [IndexError]. *)
Lemma build_timeline_rows (scenario : Scenario.t)
    (liquidity_events : list LiquidityEvent.t)
    (rows : list TimelineRow.t) (m : Metrics) :
  build_timeline scenario liquidity_events = Ok (rows, m) ->
  rows = timeline_rows scenario liquidity_events /\ rows <> [].
Proof.
  rewrite build_timeline_cases.
  destruct (index_hits_zero scenario); [discriminate|].
  unfold timeline_result, timeline_rows.
  destruct (last (map Some _) None) eqn:L; intro H; inversion H; subst.
  split; [reflexivity|].
  intro E. apply last_map_Some in E. congruence.
Qed.

Lemma build_timeline_returns (scenario : Scenario.t)
    (liquidity_events : list LiquidityEvent.t) :
  index_hits_zero scenario = false ->
  timeline_rows scenario liquidity_events <> [] ->
  exists m,
    build_timeline scenario liquidity_events
    = Ok (timeline_rows scenario liquidity_events, m).
Proof.
  intros Hz H. rewrite build_timeline_cases, Hz.
  unfold timeline_result. fold (timeline_rows scenario liquidity_events).
  destruct (last (map Some (timeline_rows scenario liquidity_events)) None)
    eqn:L.
  - eexists; reflexivity.
  - apply last_map_Some in L. contradiction.
Qed.

Lemma build_timeline_raises (scenario : Scenario.t)
    (liquidity_events : list LiquidityEvent.t) :
  timeline_rows scenario liquidity_events = [] ->
  build_timeline scenario liquidity_events = Raise IndexError.
Proof.
  intro H. rewrite build_timeline_cases.
  assert (Hz : index_hits_zero scenario = false).
  { apply timeline_rows_empty in H. unfold index_hits_zero.
    destruct (Z.leb_spec (Scenario.current_age scenario + 2)
                (Scenario.end_age scenario)); [lia|].
    apply andb_false_r. }
  rewrite Hz. unfold timeline_result.
  fold (timeline_rows scenario liquidity_events). now rewrite H.
Qed.

(** Every field of a row, in terms of the locals the loop carried in. *)
Lemma row_at_fields (scenario : Scenario.t)
    (liquidity_events : list LiquidityEvent.t) (st : TL.locals) (age : Z) :
  let row := row_at scenario liquidity_events st age in
  TimelineRow.age row = age
  /\ TimelineRow.start_balance_nominal row = TL.balance_nominal st
  /\ TimelineRow.contributions row = contributions_at scenario age
  /\ TimelineRow.liquidity_net row
     = net_of (apply_liquidity_events age liquidity_events)
  /\ TimelineRow.withdrawals row
     = timeline_withdrawals scenario age
         (TL.prior_year_end_balance st) (TL.cpi_index st)
  /\ TimelineRow.fees row = TL.balance_nominal st * fee_rate scenario
  /\ TimelineRow.taxes row
     = (if Scenario.enable_taxes scenario
        then taxes_of (apply_liquidity_events age liquidity_events)
             + TimelineRow.withdrawals row * tax_rate scenario
        else taxes_of (apply_liquidity_events age liquidity_events))
  /\ TimelineRow.growth row = pre_growth row * nominal_return scenario
  /\ TimelineRow.end_balance_nominal row
     = pre_growth row + TimelineRow.growth row
  /\ TimelineRow.cpi_index row
     = (if (Scenario.inflation_enabled scenario
            && (age =? Scenario.current_age scenario)%Z)%bool
        then 1 else TL.cpi_index st)
  /\ TimelineRow.end_balance_real row
     = (if Scenario.inflation_enabled scenario
        then TimelineRow.end_balance_nominal row / TimelineRow.cpi_index row
        else TimelineRow.end_balance_nominal row).
Proof.
  unfold row_at, pre_growth, net_of, taxes_of.
  destruct (apply_liquidity_events age liquidity_events) as [[n l] t].
  cbn. repeat split; reflexivity.
Qed.

Lemma step_at_balanced (scenario : Scenario.t)
    (liquidity_events : list LiquidityEvent.t) (st : TL.locals) (age : Z) :
  balanced (step_at scenario liquidity_events st age).
Proof. reflexivity. Qed.

Lemma step_at_balance (scenario : Scenario.t)
    (liquidity_events : list LiquidityEvent.t) (st : TL.locals) (age : Z) :
  TL.balance_nominal (step_at scenario liquidity_events st age)
  = TimelineRow.end_balance_nominal
      (row_at scenario liquidity_events st age).
Proof. reflexivity. Qed.

(** A property of single rows that the loop body establishes holds of
    every generated row. *)
Lemma timeline_gen_Forall (scenario : Scenario.t)
    (liquidity_events : list LiquidityEvent.t)
    (P : TimelineRow.t -> Prop) :
  (forall st age, P (row_at scenario liquidity_events st age)) ->
  forall ages st,
    Forall P (timeline_gen scenario liquidity_events ages st).
Proof.
  intros HP ages. induction ages as [|age rest IH]; intro st; simpl.
  - constructor.
  - constructor; [apply HP | apply IH].
Qed.

(** A property relating a row to the balance carried in, established by
    the loop body from balanced locals, links all generated rows. *)
Lemma timeline_gen_linked (scenario : Scenario.t)
    (liquidity_events : list LiquidityEvent.t)
    (P : Qc -> TimelineRow.t -> Prop) :
  (forall st age,
      balanced st ->
      P (TL.balance_nominal st)
        (row_at scenario liquidity_events st age)) ->
  forall ages st,
    balanced st ->
    linked P (TL.balance_nominal st)
      (timeline_gen scenario liquidity_events ages st).
Proof.
  intros HP ages. induction ages as [|age rest IH]; intros st Hb; simpl.
  - exact I.
  - split; [now apply HP|].
    rewrite <- step_at_balance.
    apply IH. apply step_at_balanced.
Qed.

Lemma linked_nth (P : Qc -> TimelineRow.t -> Prop)
    (scenario : Scenario.t) (rows : list TimelineRow.t) :
  linked P (Scenario.current_balance scenario) rows ->
  forall i row,
    nth_error rows i = Some row ->
    P (prior_end_balance scenario rows i) row.
Proof.
  intros HL i.
  assert (G : forall rows prior,
             linked P prior rows ->
             forall i row,
               nth_error rows i = Some row ->
               P (match i with
                  | O => prior
                  | S j => match nth_error rows j with
                           | Some previous =>
                               TimelineRow.end_balance_nominal previous
                           | None => 0
                           end
                  end) row).
  { clear. induction rows as [|r rest IH]; intros prior HL i row Hn.
    - destruct i; discriminate.
    - destruct HL as [Hr Hrest]. destruct i as [|j]; simpl in Hn.
      + now inversion Hn; subst.
      + specialize (IH _ Hrest j row Hn).
        destruct j as [|k]; simpl in *; exact IH. }
  intros row Hn. exact (G rows _ HL i row Hn).
Qed.

Lemma timeline_rows_length (scenario : Scenario.t)
    (liquidity_events : list LiquidityEvent.t) :
  List.length (timeline_rows scenario liquidity_events)
  = Z.to_nat (Scenario.end_age scenario + 1 - Scenario.current_age scenario).
Proof.
  rewrite <- (length_map TimelineRow.age), timeline_rows_ages.
  apply py_range_length.
Qed.

Lemma timeline_rows_nonempty (scenario : Scenario.t)
    (liquidity_events : list LiquidityEvent.t) :
  (Scenario.current_age scenario <= Scenario.end_age scenario)%Z ->
  timeline_rows scenario liquidity_events <> [].
Proof.
  intros H E. apply (f_equal (@List.length _)) in E.
  rewrite timeline_rows_length in E. simpl in E. lia.
Qed.

Lemma timeline_rows_age_nth (scenario : Scenario.t)
    (liquidity_events : list LiquidityEvent.t) (i : nat)
    (row : TimelineRow.t) :
  nth_error (timeline_rows scenario liquidity_events) i = Some row ->
  TimelineRow.age row = (Scenario.current_age scenario + Z.of_nat i)%Z.
Proof.
  intro H.
  assert (Hi : (i < List.length (timeline_rows scenario liquidity_events))%nat).
  { apply nth_error_Some. congruence. }
  rewrite timeline_rows_length in Hi.
  pose proof (py_range_nth (Scenario.current_age scenario)
                (Scenario.end_age scenario + 1) i Hi) as Hr.
  rewrite <- (timeline_rows_ages scenario liquidity_events) in Hr.
  rewrite nth_error_map, H in Hr.
  simpl in Hr. congruence.
Qed.

Lemma timeline_rows_first (scenario : Scenario.t)
    (liquidity_events : list LiquidityEvent.t) :
  (Scenario.current_age scenario <= Scenario.end_age scenario)%Z ->
  nth_error (timeline_rows scenario liquidity_events) 0
  = Some (row_at scenario liquidity_events (timeline_init scenario)
            (Scenario.current_age scenario)).
Proof.
  intro H. rewrite timeline_rows_gen, py_range_cons by lia. reflexivity.
Qed.

(** C4, as amended.  For every scenario with [current_age <= end_age]
    whose price index does not reach zero (over exact arithmetic:
    inflation off, or [inflation_pct] other than -100, or fewer than
    three ages), [build_timeline] returns a
    timeline of exactly [end_age - current_age + 1] rows; the row at
    position [i] has age [current_age + i]; the first row has price index
    1; and when [current_age = end_age] there is exactly one row.  When
    the index does reach zero, [build_timeline] returns no timeline: it
    raises [ZeroDivisionError]. *)
Theorem build_timeline_shape :
  forall (scenario : Scenario.t) (liquidity_events : list LiquidityEvent.t),
    (Scenario.current_age scenario <= Scenario.end_age scenario)%Z ->
    (index_hits_zero scenario = false ->
     exists rows m,
       build_timeline scenario liquidity_events = Ok (rows, m)
       /\ Z.of_nat (List.length rows)
          = (Scenario.end_age scenario - Scenario.current_age scenario + 1)%Z
       /\ (forall i row,
              nth_error rows i = Some row ->
              TimelineRow.age row
              = (Scenario.current_age scenario + Z.of_nat i)%Z)
       /\ (exists first,
              nth_error rows 0 = Some first
              /\ TimelineRow.age first = Scenario.current_age scenario
              /\ TimelineRow.cpi_index first = 1)
       /\ (Scenario.current_age scenario = Scenario.end_age scenario ->
           List.length rows = 1%nat))
    /\ (index_hits_zero scenario = true ->
        build_timeline scenario liquidity_events = Raise ZeroDivisionError).
Proof.
  intros scenario liquidity_events Hle.
  split; [|intro Hz; now rewrite build_timeline_cases, Hz].
  intro Hz.
  destruct (build_timeline_returns scenario liquidity_events Hz
              (timeline_rows_nonempty scenario liquidity_events Hle))
    as [m Hm].
  exists (timeline_rows scenario liquidity_events), m.
  split; [exact Hm|].
  split; [rewrite timeline_rows_length; lia|].
  split; [intros i row; apply timeline_rows_age_nth|].
  split.
  - eexists. split; [now apply timeline_rows_first|].
    destruct (row_at_fields scenario liquidity_events
                (timeline_init scenario) (Scenario.current_age scenario))
      as (Ha & _ & _ & _ & _ & _ & _ & _ & _ & Hc & _).
    split; [exact Ha|].
    rewrite Hc. simpl.
    now destruct (Scenario.inflation_enabled scenario
                  && (Scenario.current_age scenario
                      =? Scenario.current_age scenario)%Z)%bool.
  - intro E. rewrite timeline_rows_length. lia.
Qed.

Lemma timeline_rows_linked (scenario : Scenario.t)
    (liquidity_events : list LiquidityEvent.t)
    (P : Qc -> TimelineRow.t -> Prop) :
  (forall st age,
      balanced st ->
      P (TL.balance_nominal st)
        (row_at scenario liquidity_events st age)) ->
  forall i row,
    nth_error (timeline_rows scenario liquidity_events) i = Some row ->
    P (prior_end_balance scenario
         (timeline_rows scenario liquidity_events) i) row.
Proof.
  intros HP. apply linked_nth.
  rewrite timeline_rows_gen.
  apply (timeline_gen_linked scenario liquidity_events P HP _
           (timeline_init scenario)).
  reflexivity.
Qed.

(** C6. In every row of the deterministic timeline, the start balance is
    the balance the previous row ended with (the starting balance for the
    first row); fees are that start balance times the fee rate; growth is
    (start + contributions + net liquidity - withdrawals - fees - taxes)
    times the nominal return rate; and the nominal end balance is that
    same pre-growth figure plus the growth. *)
Theorem build_timeline_row_arithmetic :
  forall (scenario : Scenario.t) (liquidity_events : list LiquidityEvent.t)
         (rows : list TimelineRow.t) (m : Metrics),
    build_timeline scenario liquidity_events = Ok (rows, m) ->
    forall i row,
      nth_error rows i = Some row ->
      TimelineRow.start_balance_nominal row
      = prior_end_balance scenario rows i
      /\ TimelineRow.fees row
         = TimelineRow.start_balance_nominal row
           * (Scenario.fee_pct scenario / num 100)
      /\ TimelineRow.growth row
         = (TimelineRow.start_balance_nominal row
            + TimelineRow.contributions row
            + TimelineRow.liquidity_net row
            - TimelineRow.withdrawals row
            - TimelineRow.fees row
            - TimelineRow.taxes row)
           * (Scenario.nominal_return_pct scenario / num 100)
      /\ TimelineRow.end_balance_nominal row
         = (TimelineRow.start_balance_nominal row
            + TimelineRow.contributions row
            + TimelineRow.liquidity_net row
            - TimelineRow.withdrawals row
            - TimelineRow.fees row
            - TimelineRow.taxes row)
           + TimelineRow.growth row.
Proof.
  intros scenario liquidity_events rows m Hb i row Hn.
  apply build_timeline_rows in Hb. destruct Hb as [-> _].
  revert i row Hn.
  apply (timeline_rows_linked scenario liquidity_events
           (fun prior row =>
              TimelineRow.start_balance_nominal row = prior
              /\ TimelineRow.fees row
                 = TimelineRow.start_balance_nominal row * fee_rate scenario
              /\ TimelineRow.growth row
                 = pre_growth row * nominal_return scenario
              /\ TimelineRow.end_balance_nominal row
                 = pre_growth row + TimelineRow.growth row)).
  intros st age _.
  destruct (row_at_fields scenario liquidity_events st age)
    as (_ & Hs & _ & _ & _ & Hf & _ & Hg & He & _).
  rewrite Hs. auto.
Qed.

Lemma timeline_withdrawals_before_retirement (scenario : Scenario.t)
    (age : Z) (prior cpi : Qc) :
  (age < Scenario.retirement_age scenario)%Z ->
  timeline_withdrawals scenario age prior cpi = 0.
Proof.
  intro H. unfold timeline_withdrawals.
  destruct (Z.leb_spec (Scenario.retirement_age scenario) age);
    [lia | reflexivity].
Qed.

Lemma timeline_withdrawals_pct (scenario : Scenario.t)
    (age : Z) (prior cpi : Qc) :
  Scenario.withdrawal_method scenario = PCT_METHOD ->
  (Scenario.retirement_age scenario <= age)%Z ->
  timeline_withdrawals scenario age prior cpi
  = prior * (Scenario.withdrawal_pct scenario / num 100).
Proof.
  intros Hm H. unfold timeline_withdrawals.
  apply Z.leb_le in H. rewrite H, Hm, String.eqb_refl. reflexivity.
Qed.

Lemma row_at_frequency (scenario : Scenario.t) (frequency : string)
    (liquidity_events : list LiquidityEvent.t) (st : TL.locals) (age : Z) :
  Scenario.withdrawal_method scenario = PCT_METHOD ->
  row_at (with_withdrawal_frequency scenario frequency)
    liquidity_events st age
  = row_at scenario liquidity_events st age.
Proof.
  intro Hm. unfold row_at, timeline_withdrawals; simpl.
  rewrite Hm, String.eqb_refl. reflexivity.
Qed.

Lemma step_at_frequency (scenario : Scenario.t) (frequency : string)
    (liquidity_events : list LiquidityEvent.t) (st : TL.locals) (age : Z) :
  Scenario.withdrawal_method scenario = PCT_METHOD ->
  step_at (with_withdrawal_frequency scenario frequency)
    liquidity_events st age
  = step_at scenario liquidity_events st age.
Proof.
  intro Hm. unfold step_at, timeline_step.
  rewrite row_at_frequency by exact Hm. reflexivity.
Qed.

Lemma build_timeline_frequency (scenario : Scenario.t) (frequency : string)
    (liquidity_events : list LiquidityEvent.t) :
  Scenario.withdrawal_method scenario = PCT_METHOD ->
  build_timeline (with_withdrawal_frequency scenario frequency)
    liquidity_events
  = build_timeline scenario liquidity_events.
Proof.
  intro Hm. rewrite !build_timeline_cases. unfold run_ages.
  assert (E : forall ages st,
             fold_left (step_at
                          (with_withdrawal_frequency scenario frequency)
                          liquidity_events) ages st
             = fold_left (step_at scenario liquidity_events) ages st).
  { induction ages as [|a rest IH]; intro st; simpl; [reflexivity|].
    now rewrite step_at_frequency, IH. }
  change (index_hits_zero (with_withdrawal_frequency scenario frequency))
    with (index_hits_zero scenario).
  change (Scenario.current_age (with_withdrawal_frequency scenario frequency))
    with (Scenario.current_age scenario).
  change (Scenario.end_age (with_withdrawal_frequency scenario frequency))
    with (Scenario.end_age scenario).
  change (timeline_init (with_withdrawal_frequency scenario frequency))
    with (timeline_init scenario).
  rewrite E. reflexivity.
Qed.

(** C7. In the deterministic timeline the withdrawal of every row whose
    age is strictly before [retirement_age] is zero; under the
    percentage-of-prior-balance method the withdrawal of every row from
    [retirement_age] onward is the previous row's nominal end balance (the
    starting balance for the first row) times [withdrawal_pct / 100], with
    no factor of 12; and the timeline is the same whatever the
    [withdrawal_frequency] setting. *)
Theorem build_timeline_withdrawals :
  forall (scenario : Scenario.t) (liquidity_events : list LiquidityEvent.t)
         (rows : list TimelineRow.t) (m : Metrics),
    build_timeline scenario liquidity_events = Ok (rows, m) ->
    (forall i row,
        nth_error rows i = Some row ->
        ((TimelineRow.age row < Scenario.retirement_age scenario)%Z ->
         TimelineRow.withdrawals row = 0)
        /\ (Scenario.withdrawal_method scenario = PCT_METHOD ->
            (Scenario.retirement_age scenario <= TimelineRow.age row)%Z ->
            TimelineRow.withdrawals row
            = prior_end_balance scenario rows i
              * (Scenario.withdrawal_pct scenario / num 100)))
    /\ (Scenario.withdrawal_method scenario = PCT_METHOD ->
        forall frequency,
          build_timeline (with_withdrawal_frequency scenario frequency)
            liquidity_events
          = Ok (rows, m)).
Proof.
  intros scenario liquidity_events rows m Hb.
  split.
  - apply build_timeline_rows in Hb. destruct Hb as [-> _].
    apply (timeline_rows_linked scenario liquidity_events
             (fun prior row =>
                ((TimelineRow.age row < Scenario.retirement_age scenario)%Z ->
                 TimelineRow.withdrawals row = 0)
                /\ (Scenario.withdrawal_method scenario = PCT_METHOD ->
                    (Scenario.retirement_age scenario
                     <= TimelineRow.age row)%Z ->
                    TimelineRow.withdrawals row
                    = prior * (Scenario.withdrawal_pct scenario / num 100)))).
    intros st age Hbal.
    destruct (row_at_fields scenario liquidity_events st age)
      as (Ha & _ & _ & _ & Hw & _).
    rewrite Ha, Hw. split.
    + apply timeline_withdrawals_before_retirement.
    + intros Hm Hr. rewrite Hbal.
      now apply timeline_withdrawals_pct.
  - intros Hm frequency. now rewrite build_timeline_frequency.
Qed.

(** ** The safe withdrawal rate solver *)

Lemma min_balance_of_total (scenario : Scenario.t)
    (liquidity_events : list LiquidityEvent.t) :
  (Scenario.current_age scenario <= Scenario.end_age scenario)%Z ->
  index_hits_zero scenario = false ->
  forall pct,
  exists mb,
    min_balance_of (Scenario.with_withdrawal_pct scenario pct)
      liquidity_events = Ok mb.
Proof.
  intros H Hz pct. unfold min_balance_of.
  destruct (build_timeline_returns
              (Scenario.with_withdrawal_pct scenario pct) liquidity_events)
    as [m Hm].
  - exact Hz.
  - apply timeline_rows_nonempty. exact H.
  - rewrite Hm. eexists; reflexivity.
Qed.

Lemma half_high (low high : Qc) :
  high - (low + high) / num 2 = (high - low) / num 2.
Proof. rewrite num_2. field. discriminate. Qed.

Lemma half_low (low high : Qc) :
  (low + high) / num 2 - low = (high - low) / num 2.
Proof. rewrite num_2. field. discriminate. Qed.

Lemma swr_inv_init (scenario : Scenario.t)
    (liquidity_events : list LiquidityEvent.t) :
  swr_inv scenario liquidity_events swr_init.
Proof.
  unfold swr_inv, swr_init; simpl.
  split; [reflexivity|].
  split; [apply Qc_is_canon; reflexivity|].
  split; [constructor|].
  split; [left; split; [reflexivity | intros e []] | left; reflexivity].
Qed.

(** One iteration keeps the invariant and logs one more line. *)
Lemma swr_iteration (scenario : Scenario.t)
    (liquidity_events : list LiquidityEvent.t)
    (st : SWR.locals) (iteration : Z) (mb : Qc) :
  let mid := (SWR.low st + SWR.high st) / num 2 in
  let st' :=
    if Qcleb 0 mb then
      SWR.mk mid (SWR.high st) mid
        (SWR.debug_info st ++ [mkDebugEntry (iteration + 1) mid mb true])
    else
      SWR.mk (SWR.low st) mid (SWR.best_rate st)
        (SWR.debug_info st ++ [mkDebugEntry (iteration + 1) mid mb false]) in
  min_balance_of (Scenario.with_withdrawal_pct scenario mid)
    liquidity_events = Ok mb ->
  swr_inv scenario liquidity_events st ->
  swr_inv scenario liquidity_events st'
  /\ List.length (SWR.debug_info st') = S (List.length (SWR.debug_info st)).
Proof.
  intros mid st' Hmb (Hlow & Hw & Hlog & Hbest & Hhigh).
  subst st'. destruct (Qcleb 0 mb) eqn:S; simpl.
  - split; [|rewrite length_app; simpl; lia].
    unfold swr_inv; simpl. rewrite length_app, Nat.add_1_r. simpl.
    repeat split.
    + subst mid. now rewrite half_high, Hw.
    + apply Forall_app. split; [exact Hlog|].
      constructor; [|constructor]. split; simpl; [exact Hmb | now rewrite S].
    + right. eexists. split; [apply in_or_app; right; left; reflexivity|].
      simpl. auto.
    + destruct Hhigh as [Hh | (e & He & Hm & Hs)]; [now left|].
      right. exists e. split; [apply in_or_app; now left | auto].
  - split; [|rewrite length_app; simpl; lia].
    unfold swr_inv; simpl. rewrite length_app, Nat.add_1_r. simpl.
    repeat split.
    + exact Hlow.
    + subst mid. now rewrite half_low, Hw.
    + apply Forall_app. split; [exact Hlog|].
      constructor; [|constructor]. split; simpl; [exact Hmb | now rewrite S].
    + destruct Hbest as [[Hb Hall] | (e & He & Hm & Hs)].
      * left. split; [exact Hb|].
        intros e He. apply in_app_or in He.
        destruct He as [He | [<- | []]]; [now apply Hall | reflexivity].
      * right. exists e. split; [apply in_or_app; now left | auto].
    + right. eexists. split; [apply in_or_app; right; left; reflexivity|].
      simpl. auto.
Qed.

(** The loop returns, keeps the invariant, runs at most once per element
    of [iterations], and stops early exactly at the first iteration that
    leaves the interval narrower than the tolerance. *)
Lemma swr_loop_spec (scenario : Scenario.t)
    (liquidity_events : list LiquidityEvent.t) (tolerance : Qc) :
  (forall pct, exists mb,
      min_balance_of (Scenario.with_withdrawal_pct scenario pct)
        liquidity_events = Ok mb) ->
  forall iterations st,
    swr_inv scenario liquidity_events st ->
    exists st',
      swr_loop scenario liquidity_events tolerance iterations st = Ok st'
      /\ swr_inv scenario liquidity_events st'
      /\ (List.length (SWR.debug_info st')
          <= List.length (SWR.debug_info st) + List.length iterations)%nat
      /\ (List.length (SWR.debug_info st')
          = (List.length (SWR.debug_info st) + List.length iterations)%nat
          \/ SWR.high st' - SWR.low st' < tolerance)
      /\ (forall k,
             (List.length (SWR.debug_info st) < k
              < List.length (SWR.debug_info st'))%nat ->
             tolerance <= width_after k).
Proof.
  intros Htot iterations.
  induction iterations as [|iteration rest IH]; intros st Hinv.
  - exists st. simpl.
    split; [reflexivity|]. split; [exact Hinv|]. split; [lia|].
    split; [left; lia|]. intros k Hk. lia.
  - cbn [swr_loop].
    destruct (Htot ((SWR.low st + SWR.high st) / num 2)) as [mb Hmb].
    rewrite Hmb.
    destruct (swr_iteration scenario liquidity_events st iteration mb
                Hmb Hinv) as [Hinv' Hlen].
    set (st1 := if Qcleb 0 mb then _ else _) in *.
    destruct (Qcltb (SWR.high st1 - SWR.low st1) tolerance) eqn:Stop.
    + exists st1. rewrite Hlen. simpl.
      split; [reflexivity|]. split; [exact Hinv'|]. split; [lia|].
      split; [right; now apply Qcltb_lt|]. intros k Hk. lia.
    + destruct (IH st1 Hinv') as (st' & Hrun & Hinv'' & Hle & Hstop & Hwide).
      exists st'. rewrite Hlen in Hle, Hstop, Hwide. simpl.
      split; [exact Hrun|]. split; [exact Hinv''|]. split; [lia|].
      split; [destruct Hstop as [Hs | Hs]; [left; lia | now right]|].
      intros k Hk.
      destruct (Nat.eq_dec k (S (List.length (SWR.debug_info st))))
        as [-> | Hne].
      * apply Qcltb_false_le in Stop.
        destruct Hinv' as (_ & Hw & _). rewrite Hlen in Hw.
        now rewrite <- Hw.
      * apply Hwide. lia.
Qed.

Lemma entry_solvent_min (scenario : Scenario.t)
    (liquidity_events : list LiquidityEvent.t) (log : list DebugEntry)
    (e : DebugEntry) :
  Forall (entry_ok scenario liquidity_events) log ->
  In e log ->
  exists mb,
    min_balance_of (Scenario.with_withdrawal_pct scenario (dbg_mid e))
      liquidity_events = Ok mb
    /\ (dbg_solvent e = true -> 0 <= mb)
    /\ (dbg_solvent e = false -> mb < 0).
Proof.
  intros Hlog He.
  rewrite Forall_forall in Hlog. destruct (Hlog e He) as [Hm Hs].
  exists (dbg_min_balance e). split; [exact Hm|].
  rewrite Hs. split; intro H.
  - now apply Qcleb_le.
  - now apply Qcleb_false_lt.
Qed.

Lemma series_min_fold_le (xs : list Qc) :
  forall m,
    fold_left (fun m y => if Qcltb y m then y else m) xs m <= m
    /\ forall x, In x xs ->
                 fold_left (fun m y => if Qcltb y m then y else m) xs m <= x.
Proof.
  induction xs as [|y ys IH]; intro m; simpl.
  - split; [apply Qcle_refl | intros x []].
  - destruct (Qcltb y m) eqn:C.
    + apply Qcltb_lt in C. destruct (IH y) as [Hy Hys].
      split; [eapply Qcle_trans; [exact Hy | now apply Qclt_le_weak]|].
      intros x [<- | Hx]; [exact Hy | now apply Hys].
    + apply Qcltb_false_le in C. destruct (IH m) as [Hm Hys].
      split; [exact Hm|].
      intros x [<- | Hx]; [eapply Qcle_trans; eassumption | now apply Hys].
Qed.

Lemma series_min_fold_in (xs : list Qc) :
  forall m,
    In (fold_left (fun m y => if Qcltb y m then y else m) xs m) (m :: xs).
Proof.
  induction xs as [|y ys IH]; intro m; simpl.
  - now left.
  - destruct (Qcltb y m).
    + right. apply IH.
    + destruct (IH m) as [H | H]; [now left | right; now right].
Qed.

(** [series_min] is the minimum of a non-empty column. *)
Lemma series_min_spec (l : list Qc) :
  l <> [] ->
  In (series_min l) l /\ forall x, In x l -> series_min l <= x.
Proof.
  destruct l as [|x xs]; [congruence|]. intros _. simpl.
  split; [apply series_min_fold_in|].
  destruct (series_min_fold_le xs x) as [Hx Hxs].
  intros y [<- | Hy]; [exact Hx | now apply Hxs].
Qed.

Lemma min_balance_of_solvent (scenario : Scenario.t)
    (liquidity_events : list LiquidityEvent.t) (r mb : Qc) :
  min_balance_of (Scenario.with_withdrawal_pct scenario r) liquidity_events
  = Ok mb ->
  0 <= mb ->
  solvent_at scenario liquidity_events r.
Proof.
  unfold min_balance_of, solvent_at.
  destruct (build_timeline _ _) as [[rows m] | e] eqn:B; [|discriminate].
  intros H Hmb. inversion H; subst. exists rows, m. split; [reflexivity|].
  intros row Hrow.
  destruct (build_timeline_rows _ _ _ _ B) as [_ Hne].
  destruct (series_min_spec (map TimelineRow.end_balance_nominal rows))
    as [_ Hle].
  { destruct rows; [congruence | discriminate]. }
  eapply Qcle_trans; [exact Hmb|].
  apply Hle. now apply in_map.
Qed.

Lemma min_balance_of_insolvent (scenario : Scenario.t)
    (liquidity_events : list LiquidityEvent.t) (r mb : Qc) :
  min_balance_of (Scenario.with_withdrawal_pct scenario r) liquidity_events
  = Ok mb ->
  mb < 0 ->
  insolvent_at scenario liquidity_events r.
Proof.
  unfold min_balance_of, insolvent_at.
  destruct (build_timeline _ _) as [[rows m] | e] eqn:B; [|discriminate].
  intros H Hmb. inversion H; subst. exists rows, m. split; [reflexivity|].
  destruct (build_timeline_rows _ _ _ _ B) as [_ Hne].
  destruct (series_min_spec (map TimelineRow.end_balance_nominal rows))
    as [Hin _].
  { destruct rows; [congruence | discriminate]. }
  apply in_map_iff in Hin. destruct Hin as (row & Hrow & Hin).
  exists row. split; [exact Hin | now rewrite Hrow].
Qed.

(** C8, as amended.  [solve_safe_withdrawal_rate] returns [None] exactly
    when the withdrawal method is not the percentage method, and then it
    returns at once: the result is [None] whatever the events, tolerance
    and iteration bound (also for scenarios on which building a timeline
    would raise), and the debug log of the session is left as it was, no
    iteration having run.  For a scenario using the percentage method it
    never returns [None], but it returns a rate only when it builds no
    timeline ([max_iterations <= 0]) or the timeline can be built
    ([current_age <= end_age] and the price index does not reach zero);
    otherwise the first build raises, [IndexError] on an empty age range
    and [ZeroDivisionError] on a zero price index, and the solver lets
    the exception through. *)
Theorem solve_safe_withdrawal_rate_applicability :
  forall (scenario : Scenario.t) (liquidity_events : list LiquidityEvent.t)
         (tolerance : Qc) (max_iterations : Z) (swr_debug : list DebugEntry),
    (Scenario.withdrawal_method scenario <> PCT_METHOD ->
     solve_safe_withdrawal_rate scenario liquidity_events tolerance
       max_iterations swr_debug = Ok (None, swr_debug))
    /\ (forall log,
           solve_safe_withdrawal_rate scenario liquidity_events tolerance
             max_iterations swr_debug = Ok (None, log) ->
           Scenario.withdrawal_method scenario <> PCT_METHOD)
    /\ (Scenario.withdrawal_method scenario = PCT_METHOD ->
        ((max_iterations <= 0)%Z
         \/ ((Scenario.current_age scenario <= Scenario.end_age scenario)%Z
             /\ index_hits_zero scenario = false) ->
         exists r log,
           solve_safe_withdrawal_rate scenario liquidity_events tolerance
             max_iterations swr_debug = Ok (Some r, log))
        /\ ((1 <= max_iterations)%Z ->
            (Scenario.end_age scenario < Scenario.current_age scenario)%Z ->
            solve_safe_withdrawal_rate scenario liquidity_events tolerance
              max_iterations swr_debug = Raise IndexError)
        /\ ((1 <= max_iterations)%Z ->
            index_hits_zero scenario = true ->
            solve_safe_withdrawal_rate scenario liquidity_events tolerance
              max_iterations swr_debug = Raise ZeroDivisionError)).
Proof.
  intros scenario liquidity_events tolerance max_iterations swr_debug.
  split; [|split].
  - intro Hne. unfold solve_safe_withdrawal_rate.
    apply String.eqb_neq in Hne. now rewrite Hne.
  - intros log H Heq. unfold solve_safe_withdrawal_rate in H.
    rewrite Heq, String.eqb_refl in H. simpl in H.
    destruct (swr_search _ _ _ _); discriminate.
  - intro Hm.
    unfold solve_safe_withdrawal_rate, swr_search.
    rewrite Hm, String.eqb_refl. cbn [negb].
    split; [|split].
    + intros [H0 | [Hle Hz]].
      * rewrite py_range_nil by lia. cbn [swr_loop].
        do 2 eexists. reflexivity.
      * destruct (swr_loop_spec scenario liquidity_events tolerance
                    (min_balance_of_total scenario liquidity_events Hle Hz)
                    (py_range 0 max_iterations) swr_init
                    (swr_inv_init scenario liquidity_events))
          as (st & Hrun & _).
        exists (SWR.best_rate st), (SWR.debug_info st).
        now rewrite Hrun.
    + intros H1 Hlt. rewrite py_range_cons by lia. cbn [swr_loop].
      unfold min_balance_of.
      rewrite build_timeline_raises; [reflexivity|].
      rewrite timeline_rows_gen. simpl.
      rewrite py_range_nil by lia. reflexivity.
    + intros H1 Hz. rewrite py_range_cons by lia. cbn [swr_loop].
      unfold min_balance_of. rewrite build_timeline_cases.
      change (index_hits_zero
                (Scenario.with_withdrawal_pct scenario
                   ((SWR.low swr_init + SWR.high swr_init) / num 2)))
        with (index_hits_zero scenario).
      now rewrite Hz.
Qed.

(** C8, witness: a fixed-amount scenario gets [None], the percentage
    scenario [last_year_scenario] gets a rate. *)
Lemma solve_safe_withdrawal_rate_applicability_witness :
  solve_safe_withdrawal_rate
    (Scenario.mk "fixed" 65 65 64 (num 100) 0 "Annual" (num 7) 0 (num 3) 0
       "Fixed real dollars" (num 4) (num 50000) "Annual" [] false 1000
       false 0 true)
    [] default_tolerance default_max_iterations [] = Ok (None, [])
  /\ exists r log,
       solve_safe_withdrawal_rate last_year_scenario [] default_tolerance
         default_max_iterations [] = Ok (Some r, log).
Proof.
  split.
  - apply (solve_safe_withdrawal_rate_applicability _ [] default_tolerance
             default_max_iterations []).
    vm_compute. discriminate.
  - apply (solve_safe_withdrawal_rate_applicability last_year_scenario []
             default_tolerance default_max_iterations []).
    + reflexivity.
    + right. split; [vm_compute; discriminate | reflexivity].
Defined.

(** C8, counterexample.  Two scenarios that use the percentage method and
    get no rate: on a plan that ends before it starts the solver raises
    [IndexError], and with inflation applied at -100% over three ages it
    raises [ZeroDivisionError]. *)
Lemma solve_safe_withdrawal_rate_applicability_counterexample :
  Scenario.withdrawal_method backwards_scenario = PCT_METHOD
  /\ solve_safe_withdrawal_rate backwards_scenario [] default_tolerance
       default_max_iterations [] = Raise IndexError
  /\ Scenario.withdrawal_method deflation_scenario = PCT_METHOD
  /\ solve_safe_withdrawal_rate deflation_scenario [] default_tolerance
       default_max_iterations [] = Raise ZeroDivisionError.
Proof.
  split; [reflexivity|]. split; [vm_compute; reflexivity|].
  split; [reflexivity|]. vm_compute. reflexivity.
Qed.

(** ** The price index and the real balance *)

Ltac qc_eq := apply Qc_is_canon; vm_compute; reflexivity.

Lemma timeline_gen_cpi_chain (scenario : Scenario.t)
    (liquidity_events : list LiquidityEvent.t) :
  Scenario.inflation_enabled scenario = true ->
  forall ages st,
    (forall a, In a ages -> a <> Scenario.current_age scenario) ->
    cpi_chain (inflation_rate scenario) (TL.cpi_index st)
      (timeline_gen scenario liquidity_events ages st).
Proof.
  intros Hen ages. induction ages as [|age rest IH]; intros st Hne; simpl.
  - exact I.
  - assert (Ha : (age =? Scenario.current_age scenario)%Z = false).
    { apply Z.eqb_neq. apply Hne. now left. }
    destruct (row_at_fields scenario liquidity_events st age)
      as (_ & _ & _ & _ & _ & _ & _ & _ & _ & Hc & _).
    rewrite Hen, Ha in Hc. simpl in Hc.
    split; [exact Hc|].
    replace (TL.cpi_index st * (1 + inflation_rate scenario))
      with (TL.cpi_index
              (step_at scenario liquidity_events st age)).
    + apply IH. intros a Hin. apply Hne. now right.
    + unfold step_at, timeline_step. simpl. rewrite Hen, Ha, Hc. reflexivity.
Qed.

(** With inflation applied, the first row has index 1 and the rows after
    it are chained from a carried index of 1: the second row records 1
    again, and compounding starts with the third. *)
Lemma timeline_rows_cpi (scenario : Scenario.t)
    (liquidity_events : list LiquidityEvent.t) :
  Scenario.inflation_enabled scenario = true ->
  (Scenario.current_age scenario <= Scenario.end_age scenario)%Z ->
  exists first rest,
    timeline_rows scenario liquidity_events = first :: rest
    /\ TimelineRow.cpi_index first = 1
    /\ cpi_chain (inflation_rate scenario) 1 rest.
Proof.
  intros Hen Hle.
  rewrite timeline_rows_gen, py_range_cons by lia. simpl.
  eexists. eexists. split; [reflexivity|].
  destruct (row_at_fields scenario liquidity_events
              (timeline_init scenario) (Scenario.current_age scenario))
    as (_ & _ & _ & _ & _ & _ & _ & _ & _ & Hc & _).
  rewrite Hen, Z.eqb_refl in Hc. simpl in Hc.
  split; [exact Hc|].
  replace 1 with (TL.cpi_index
                    (step_at scenario liquidity_events
                       (timeline_init scenario)
                       (Scenario.current_age scenario))) at 1.
  - apply timeline_gen_cpi_chain; [exact Hen|].
    intros a Hin. apply py_range_lower in Hin. lia.
  - unfold step_at, timeline_step. simpl. rewrite Hen, Z.eqb_refl, Hc. reflexivity.
Qed.

(** Without inflation every row records the index 1. *)
Lemma timeline_rows_cpi_disabled (scenario : Scenario.t)
    (liquidity_events : list LiquidityEvent.t) :
  Scenario.inflation_enabled scenario = false ->
  Forall (fun row => TimelineRow.cpi_index row = 1)
    (timeline_rows scenario liquidity_events).
Proof.
  intro Hen. rewrite timeline_rows_gen.
  assert (G : forall ages st,
             TL.cpi_index st = 1 ->
             Forall (fun row => TimelineRow.cpi_index row = 1)
               (timeline_gen scenario liquidity_events ages st)).
  { induction ages as [|age rest IH]; intros st Hst; simpl; constructor.
    - destruct (row_at_fields scenario liquidity_events st age)
        as (_ & _ & _ & _ & _ & _ & _ & _ & _ & Hc & _).
      rewrite Hc, Hen. simpl. exact Hst.
    - apply IH. unfold step_at, timeline_step. simpl. rewrite Hen. simpl.
      destruct (row_at_fields scenario liquidity_events st age)
        as (_ & _ & _ & _ & _ & _ & _ & _ & _ & Hc & _).
      rewrite Hc, Hen. simpl. exact Hst. }
  apply G. reflexivity.
Qed.

(** The real end balance of every row is the nominal end balance divided
    by the row's price index when inflation is applied, and the nominal
    end balance itself when it is not. *)
Lemma build_timeline_real_balance (scenario : Scenario.t)
    (liquidity_events : list LiquidityEvent.t)
    (rows : list TimelineRow.t) (m : Metrics) :
  build_timeline scenario liquidity_events = Ok (rows, m) ->
  forall row,
    In row rows ->
    TimelineRow.end_balance_real row
    = (if Scenario.inflation_enabled scenario
       then TimelineRow.end_balance_nominal row / TimelineRow.cpi_index row
       else TimelineRow.end_balance_nominal row).
Proof.
  intros Hb. apply build_timeline_rows in Hb. destruct Hb as [-> _].
  apply Forall_forall. rewrite timeline_rows_gen.
  apply timeline_gen_Forall. intros st age.
  now destruct (row_at_fields scenario liquidity_events st age)
    as (_ & _ & _ & _ & _ & _ & _ & _ & _ & _ & Hr).
Qed.

Lemma cpi_chain_positive (rate : Qc) (rows : list TimelineRow.t) :
  0 <= rate ->
  forall carried,
    0 < carried ->
    cpi_chain rate carried rows ->
    Forall (fun row => 0 < TimelineRow.cpi_index row) rows.
Proof.
  intro Hr. induction rows as [|row rest IH]; intros carried Hc H.
  - constructor.
  - destruct H as [Hrow Hrest]. constructor; [now rewrite Hrow|].
    apply (IH (carried * (1 + rate))); [|exact Hrest].
    assert (H1 : 0 < 1 + rate).
    { apply Qclt_le_trans with (y := 0 + 1); [reflexivity|].
      rewrite (Qcplus_comm 1 rate).
      apply Qcplus_le_compat; [exact Hr | apply Qcle_refl]. }
    rewrite <- (Qcmult_0_l (1 + rate)).
    now apply Qcmult_lt_compat_r.
Qed.

(** The divisor of the real balance is never zero for the inflation
    rates the input form allows ([inflation_pct >= 0]). *)
Lemma cpi_index_positive (scenario : Scenario.t)
    (liquidity_events : list LiquidityEvent.t) :
  0 <= Scenario.inflation_pct scenario ->
  Forall (fun row => 0 < TimelineRow.cpi_index row)
    (timeline_rows scenario liquidity_events).
Proof.
  intro Hi.
  destruct (Scenario.inflation_enabled scenario) eqn:Hen.
  - destruct (Z_le_gt_dec (Scenario.current_age scenario)
                (Scenario.end_age scenario)) as [Hle | Hgt].
    + destruct (timeline_rows_cpi scenario liquidity_events Hen Hle)
        as (first & rest & -> & H1 & Hch).
      constructor; [now rewrite H1|].
      apply (cpi_chain_positive (inflation_rate scenario) rest) with (carried := 1);
        [| reflexivity | exact Hch].
      unfold inflation_rate, Qcdiv.
      rewrite <- (Qcmult_0_l (/ num 100)).
      apply Qcmult_le_compat_r; [exact Hi | discriminate].
    + rewrite timeline_rows_gen, py_range_nil by lia. constructor.
  - eapply Forall_impl; [|apply timeline_rows_cpi_disabled; exact Hen].
    intros row ->. reflexivity.
Qed.

(** C2, the code at a failing input.  For [three_year_scenario]
    (inflation applied at 3%) the rows for ages 65, 66 and 67 record the
    price indices 1, 1 and 1.03: the index of the second age is the index
    of the first, not that index compounded by [1 + inflation_rate];
    compounding starts one age late. *)
Theorem build_timeline_cpi_second_row :
  exists r0 r1 r2 m,
    build_timeline three_year_scenario [] = Ok ([r0; r1; r2], m)
    /\ Scenario.inflation_enabled three_year_scenario = true
    /\ TimelineRow.cpi_index r0 = 1
    /\ TimelineRow.cpi_index r1 = 1
    /\ TimelineRow.cpi_index r1
       <> TimelineRow.cpi_index r0 * (1 + inflation_rate three_year_scenario)
    /\ TimelineRow.cpi_index r2
       = TimelineRow.cpi_index r1 * (1 + inflation_rate three_year_scenario)
    /\ TimelineRow.cpi_index r2 = Q2Qc (103 # 100).
Proof.
  do 4 eexists.
  split; [vm_compute; reflexivity|].
  split; [reflexivity|].
  split; [qc_eq|].
  split; [qc_eq|].
  split; [|split; qc_eq].
  intro H. apply (f_equal this) in H. vm_compute in H. discriminate.
Qed.

(** ** The Monte Carlo simulator *)

Section MonteCarloProperties.

Variable rng : Type.
Variable np_random_seed : Z -> rng.
Variable gauss : rng -> Qc * rng.

(** C9. [run_monte_carlo] is a function of the scenario, the events, the
    trial count and the seed alone: whatever state numpy's global
    generator is in when it is called, the result (and the state the
    generator is left in) is the same, so a second run right after the
    first repeats its result; and the result is computed from a grid of
    returns drawn once, in row-major order, from the state the seed puts
    the generator in. *)
Theorem run_monte_carlo_deterministic :
  forall (scenario : Scenario.t) (liquidity_events : list LiquidityEvent.t)
         (runs seed : Z) (g1 g2 : rng),
    run_monte_carlo rng np_random_seed gauss scenario liquidity_events
      runs seed g1
    = run_monte_carlo rng np_random_seed gauss scenario liquidity_events
        runs seed g2
    /\ fst (run_monte_carlo rng np_random_seed gauss scenario
              liquidity_events runs seed
              (snd (run_monte_carlo rng np_random_seed gauss scenario
                      liquidity_events runs seed g1)))
       = fst (run_monte_carlo rng np_random_seed gauss scenario
                liquidity_events runs seed g1)
    /\ fst (run_monte_carlo rng np_random_seed gauss scenario
              liquidity_events runs seed g1)
       = match fst (np_random_normal rng gauss
                      (Scenario.nominal_return_pct scenario / num 100)
                      (Scenario.return_stdev_pct scenario / num 100)
                      runs
                      (Scenario.end_age scenario
                       - Scenario.current_age scenario + 1)%Z
                      (np_random_seed seed))
         with
         | Raise e => Raise e
         | Ok returns =>
             mc_aggregate
               (map (mc_trial scenario liquidity_events returns)
                    (seq 0 (Z.to_nat runs)))
         end.
Proof.
  intros scenario liquidity_events runs seed g1 g2.
  split; [reflexivity|]. split; [reflexivity|].
  unfold run_monte_carlo.
  destruct (np_random_normal _ _ _ _ _ _ _) as [[returns | e] g'];
    reflexivity.
Qed.

(** With a zero scale every draw is the location itself. *)
Lemma normal_row_zero_scale (loc scale : Qc) :
  scale = 0 ->
  forall n g, fst (normal_row rng gauss loc scale n g) = repeat loc n.
Proof.
  intros ->. induction n as [|n IH]; intro g; simpl; [reflexivity|].
  rewrite IH. f_equal. ring.
Qed.

Lemma normal_grid_zero_scale (loc scale : Qc) (cols : nat) :
  scale = 0 ->
  forall rows g,
    fst (normal_grid rng gauss loc scale rows cols g)
    = repeat (repeat loc cols) rows.
Proof.
  intro Hs. induction rows as [|rows IH]; intro g; simpl; [reflexivity|].
  now rewrite IH, normal_row_zero_scale.
Qed.

(** With [return_stdev_pct = 0] the grid holds the mean return in every
    cell, whatever the generator draws. *)
Lemma run_monte_carlo_zero_stdev (scenario : Scenario.t)
    (liquidity_events : list LiquidityEvent.t) (runs seed : Z) (g : rng) :
  Scenario.return_stdev_pct scenario = 0 ->
  (0 <= runs)%Z ->
  (Scenario.current_age scenario <= Scenario.end_age scenario + 1)%Z ->
  fst (run_monte_carlo rng np_random_seed gauss scenario liquidity_events
         runs seed g)
  = mc_aggregate
      (map (mc_trial scenario liquidity_events
              (repeat
                 (repeat (Scenario.nominal_return_pct scenario / num 100)
                    (Z.to_nat (Scenario.end_age scenario
                               - Scenario.current_age scenario + 1)))
                 (Z.to_nat runs)))
           (seq 0 (Z.to_nat runs))).
Proof.
  intros Hs Hruns Hages.
  unfold run_monte_carlo, np_random_normal.
  assert (Hz : Scenario.return_stdev_pct scenario / num 100 = 0).
  { rewrite Hs. apply Qc_is_canon. reflexivity. }
  rewrite Hz.
  replace (Qcltb 0 0) with false by reflexivity.
  destruct (Z.ltb_spec runs 0); [lia|].
  destruct (Z.ltb_spec (Scenario.end_age scenario
                        - Scenario.current_age scenario + 1) 0); [lia|].
  simpl. now rewrite normal_grid_zero_scale.
Qed.

(** C1, the code at a failing input.  For [two_year_scenario] (fixed real
    withdrawals, 3% inflation applied, [return_stdev_pct = 0]) and any
    generator, every Monte Carlo trial ends at 1032550 while the
    deterministic timeline ends at 1034155: the Monte Carlo recurrence
    compounds the price index after the first age and so withdraws 51500
    at age 66, where [build_timeline] withdraws 50000. *)
Theorem run_monte_carlo_differs_from_timeline :
  forall (seed : Z) (g : rng),
  exists mc rows m,
    fst (run_monte_carlo rng np_random_seed gauss two_year_scenario []
           3 seed g) = Ok mc
    /\ build_timeline two_year_scenario [] = Ok (rows, m)
    /\ Scenario.return_stdev_pct two_year_scenario = 0
    /\ MCResult.median_terminal mc = Some (num 1032550)
    /\ MCResult.p10_terminal mc = Some (num 1032550)
    /\ MCResult.p90_terminal mc = Some (num 1032550)
    /\ terminal_nominal m = num 1034155
    /\ map TimelineRow.withdrawals rows = [num 50000; num 50000]
    /\ MCResult.median_terminal mc <> Some (terminal_nominal m).
Proof.
  intros seed g.
  do 3 eexists.
  split.
  { rewrite run_monte_carlo_zero_stdev;
      [vm_compute; reflexivity | reflexivity | lia
      | vm_compute; discriminate]. }
  split; [vm_compute; reflexivity|].
  split; [reflexivity|].
  match goal with
  | |- ?med = ?v /\ _ =>
      assert (Hmed : med = v) by (vm_compute; f_equal; qc_eq)
  end.
  split; [exact Hmed|].
  split; [vm_compute; f_equal; qc_eq|].
  split; [vm_compute; f_equal; qc_eq|].
  match goal with
  | |- ?term = ?v /\ _ => assert (Hterm : term = v) by qc_eq
  end.
  split; [exact Hterm|].
  split; [vm_compute; repeat f_equal; qc_eq|].
  rewrite Hmed, Hterm. intro H. injection H as H1. discriminate H1.
Qed.

(** The second divergence: under the percentage method the Monte Carlo
    recurrence multiplies the withdrawal by 12 when the frequency is
    Monthly, which [build_timeline] does not. *)
Lemma run_monte_carlo_monthly_percentage :
  forall (seed : Z) (g : rng),
  exists mc rows m,
    fst (run_monte_carlo rng np_random_seed gauss monthly_pct_scenario []
           3 seed g) = Ok mc
    /\ build_timeline monthly_pct_scenario [] = Ok (rows, m)
    /\ MCResult.median_terminal mc = Some (num 55640)
    /\ terminal_nominal m = num 102720.
Proof.
  intros seed g.
  do 3 eexists.
  split.
  { rewrite run_monte_carlo_zero_stdev;
      [vm_compute; reflexivity | reflexivity | lia
      | vm_compute; discriminate]. }
  split; [vm_compute; reflexivity|].
  split; [vm_compute; f_equal; qc_eq | qc_eq].
Qed.

End MonteCarloProperties.

(** ** The statements at concrete inputs *)

(** C5, witness: at age 66 the pension adds 1200 to the net and 240 of
    tax, at age 59 it adds nothing, and switched off it adds nothing. *)
Lemma apply_liquidity_events_event_rules_witness :
  (apply_liquidity_events 66 ([car] ++ pension_disabled :: [])
   = apply_liquidity_events 66 ([car] ++ []))
  /\ (net_of (apply_liquidity_events 66 ([car] ++ pension :: []))
      = net_of (apply_liquidity_events 66 ([car] ++ [])) + annualized pension)
  /\ (LiquidityEvent.taxable pension = true /\ 0 < annualized pension).
Proof.
  split; [|split].
  - apply (apply_liquidity_events_event_rules 66 [car] [] pension_disabled).
    left. reflexivity.
  - apply (apply_liquidity_events_event_rules 66 [car] [] pension).
    + reflexivity.
    + vm_compute. split; discriminate.
    + intro H. vm_compute in H. discriminate.
  - destruct (apply_liquidity_events_event_rules 66 [car] [] pension)
      as (_ & _ & HC).
    destruct HC as (Ht & Hp & _).
    + intro H. apply (f_equal this) in H. vm_compute in H. discriminate.
    + split; assumption.
Defined.

(** C10, witness: swapping the car and the pension changes neither the
    net amount nor the tax at age 66. *)
Lemma apply_liquidity_events_additive_witness :
  net_of (apply_liquidity_events 66 [car; pension])
  = net_of (apply_liquidity_events 66 [pension; car])
  /\ taxes_of (apply_liquidity_events 66 [car; pension])
     = taxes_of (apply_liquidity_events 66 [pension; car]).
Proof.
  destruct apply_liquidity_events_additive as [_ Hperm].
  apply Hperm. apply perm_swap.
Defined.

(** C10, counterexample.  In binary64 the net amount of three gifts of
    0.1, 0.2 and 0.3 at age 65 is 0.6000000000000001, while the net
    amount of the first plus that of the other two is 0.6, and so is the
    net amount of the same gifts in reverse order. *)
Lemma apply_liquidity_events_binary64_counterexample :
  Binary64.net_of
    (Binary64.apply_liquidity_events 65
       ([Binary64.gift 0.1] ++ [Binary64.gift 0.2; Binary64.gift 0.3]))
  = 0.6000000000000001%float
  /\ (Binary64.net_of
        (Binary64.apply_liquidity_events 65 [Binary64.gift 0.1])
      + Binary64.net_of
          (Binary64.apply_liquidity_events 65
             [Binary64.gift 0.2; Binary64.gift 0.3]))%float
     = 0.6%float
  /\ Binary64.net_of
       (Binary64.apply_liquidity_events 65
          [Binary64.gift 0.3; Binary64.gift 0.2; Binary64.gift 0.1])
     = 0.6%float
  /\ (0.6000000000000001 =? 0.6)%float = false.
Proof. vm_compute. repeat split. Qed.

(** C4, witness: [three_year_scenario] runs from 65 to 67 and gets three
    rows. *)
Lemma build_timeline_shape_witness :
  exists rows m,
    build_timeline three_year_scenario [car] = Ok (rows, m)
    /\ Z.of_nat (List.length rows) = 3%Z.
Proof.
  destruct (build_timeline_shape three_year_scenario [car]) as [Hok _].
  - vm_compute. discriminate.
  - destruct Hok as (rows & m & Hb & Hlen & _); [reflexivity|].
    exists rows, m. split; [exact Hb | exact Hlen].
Defined.

(** C4, counterexample: [deflation_scenario] has [current_age <= end_age]
    and three ages, and [build_timeline] returns no row for it: the real
    balance of the third age divides by a price index of zero. *)
Lemma build_timeline_shape_counterexample :
  (Scenario.current_age deflation_scenario
   <= Scenario.end_age deflation_scenario)%Z
  /\ build_timeline deflation_scenario [] = Raise ZeroDivisionError.
Proof.
  split; [vm_compute; discriminate | vm_compute; reflexivity].
Qed.

(** C6, witness: the row for age 66 of [three_year_scenario]. *)
Lemma build_timeline_row_arithmetic_witness :
  exists rows m row,
    build_timeline three_year_scenario [car] = Ok (rows, m)
    /\ nth_error rows 1 = Some row
    /\ TimelineRow.start_balance_nominal row
       = prior_end_balance three_year_scenario rows 1
    /\ TimelineRow.fees row
       = TimelineRow.start_balance_nominal row
         * (Scenario.fee_pct three_year_scenario / num 100).
Proof.
  do 3 eexists.
  split; [vm_compute; reflexivity|].
  split; [reflexivity|].
  match goal with
  | |- TimelineRow.start_balance_nominal ?row
       = prior_end_balance _ ?rows _ /\ _ =>
      destruct (build_timeline_row_arithmetic three_year_scenario [car]
                  rows
                  (mkMetrics (TimelineRow.end_balance_nominal
                                (last rows row))
                             (TimelineRow.end_balance_real (last rows row))
                             None None None None None)
                  ltac:(vm_compute; reflexivity) 1%nat row
                  ltac:(reflexivity))
        as (Hs & Hf & _)
  end.
  split; assumption.
Defined.

(** C7, witness: the only row of [last_year_scenario] withdraws 4% of the
    starting balance. *)
Lemma build_timeline_withdrawals_witness :
  exists rows m row,
    build_timeline last_year_scenario [] = Ok (rows, m)
    /\ nth_error rows 0 = Some row
    /\ TimelineRow.withdrawals row
       = Scenario.current_balance last_year_scenario
         * (Scenario.withdrawal_pct last_year_scenario / num 100).
Proof.
  do 3 eexists.
  split; [vm_compute; reflexivity|].
  split; [reflexivity|].
  match goal with
  | |- TimelineRow.withdrawals ?row = _ =>
      destruct (build_timeline_withdrawals last_year_scenario []
                  [row]
                  (mkMetrics (TimelineRow.end_balance_nominal row)
                             (TimelineRow.end_balance_real row)
                             None None None None None)
                  ltac:(vm_compute; reflexivity))
        as (Hrows & _);
      destruct (Hrows 0%nat row ltac:(reflexivity)) as (_ & Hpct)
  end.
  apply Hpct.
  - reflexivity.
  - vm_compute. discriminate.
Defined.

(** * Further properties of the engine *)

(** ** Bridge from [Qc] to [Q], for linear arithmetic *)

Lemma this_plus (x y : Qc) : (this (x + y) == this x + this y)%Q.
Proof. unfold Qcplus, Q2Qc. cbn [this]. apply Qred_correct. Qed.

Lemma this_mult (x y : Qc) : (this (x * y) == this x * this y)%Q.
Proof. unfold Qcmult, Q2Qc. cbn [this]. apply Qred_correct. Qed.

Lemma this_opp (x : Qc) : (this (- x) == - this x)%Q.
Proof. unfold Qcopp, Q2Qc. cbn [this]. apply Qred_correct. Qed.

Lemma this_minus (x y : Qc) : (this (x - y) == this x - this y)%Q.
Proof. unfold Qcminus. rewrite this_plus, this_opp. reflexivity. Qed.

Lemma this_div_100 (x : Qc) : (this (x / num 100) == this x * (1 # 100))%Q.
Proof.
  unfold Qcdiv, Qcinv, num, Q2Qc. rewrite this_mult. cbn [this].
  rewrite !Qred_correct. reflexivity.
Qed.

Lemma this_div_2 (x : Qc) : (this (x / num 2) == this x * (1 # 2))%Q.
Proof.
  unfold Qcdiv, Qcinv, num, Q2Qc. rewrite this_mult. cbn [this].
  rewrite !Qred_correct. reflexivity.
Qed.

(** Rewrites an order or equality statement on [Qc] into one on [Q]. *)
Ltac to_Q :=
  unfold Qcle, Qclt in *;
  repeat match goal with
         | H : @eq Qc _ _ |- _ => apply (f_equal this) in H
         end;
  repeat (progress (rewrite ?this_div_100, ?this_div_2, ?this_minus,
                      ?this_plus, ?this_mult, ?this_opp in * ));
  change (this 0) with 0%Q in *;
  change (this 1) with 1%Q in *.

(** ** Cash flows of a row *)

(** X1. In every row of the deterministic timeline, contributions are
    zero from [retirement_age] onward; before it they are [contrib_amount],
    times 12 when the cadence is Monthly. *)
Theorem build_timeline_contributions :
  forall (scenario : Scenario.t) (liquidity_events : list LiquidityEvent.t)
         (rows : list TimelineRow.t) (m : Metrics),
    build_timeline scenario liquidity_events = Ok (rows, m) ->
    forall row,
      In row rows ->
      ((Scenario.retirement_age scenario <= TimelineRow.age row)%Z ->
       TimelineRow.contributions row = 0)
      /\ ((TimelineRow.age row < Scenario.retirement_age scenario)%Z ->
          Scenario.contrib_cadence scenario = MONTHLY ->
          TimelineRow.contributions row
          = Scenario.contrib_amount scenario * num 12)
      /\ ((TimelineRow.age row < Scenario.retirement_age scenario)%Z ->
          Scenario.contrib_cadence scenario <> MONTHLY ->
          TimelineRow.contributions row = Scenario.contrib_amount scenario).
Proof.
  intros scenario liquidity_events rows m Hb.
  apply build_timeline_rows in Hb. destruct Hb as [-> _].
  apply Forall_forall. rewrite timeline_rows_gen.
  apply timeline_gen_Forall. intros st age.
  destruct (row_at_fields scenario liquidity_events st age)
    as (Ha & _ & Hc & _).
  rewrite Ha, Hc. unfold contributions_at.
  destruct (Z.ltb_spec age (Scenario.retirement_age scenario)).
  - split; [lia|]. split; intros _ Hm.
    + now rewrite Hm, String.eqb_refl.
    + apply String.eqb_neq in Hm. now rewrite Hm.
  - split; [reflexivity|]. split; intros; lia.
Qed.

(** X1, witness: the rows of [three_year_scenario] are all in retirement
    and carry no contribution. *)
Lemma build_timeline_contributions_witness :
  exists rows m row,
    build_timeline three_year_scenario [] = Ok (rows, m)
    /\ nth_error rows 2 = Some row
    /\ TimelineRow.contributions row = 0.
Proof.
  eassert (Hb : build_timeline three_year_scenario [] = Ok (_, _))
    by (vm_compute; reflexivity).
  do 3 eexists.
  split; [exact Hb|].
  split; [reflexivity|].
  match goal with
  | |- TimelineRow.contributions ?row = _ =>
      destruct (build_timeline_contributions _ _ _ _ Hb row) as (H0 & _)
  end.
  - right. right. left. reflexivity.
  - apply H0. vm_compute. intro H. discriminate H.
Defined.

(** X2. In every row of the deterministic timeline the net liquidity is
    the aggregator's net amount for the row's age, and the taxes are the
    aggregator's event tax for that age plus, only when taxes are
    enabled, the row's withdrawals times [effective_tax_rate_pct / 100]. *)
Theorem build_timeline_taxes :
  forall (scenario : Scenario.t) (liquidity_events : list LiquidityEvent.t)
         (rows : list TimelineRow.t) (m : Metrics),
    build_timeline scenario liquidity_events = Ok (rows, m) ->
    forall row,
      In row rows ->
      TimelineRow.liquidity_net row
      = net_of (apply_liquidity_events (TimelineRow.age row) liquidity_events)
      /\ (Scenario.enable_taxes scenario = true ->
          TimelineRow.taxes row
          = taxes_of (apply_liquidity_events (TimelineRow.age row)
                        liquidity_events)
            + TimelineRow.withdrawals row
              * (Scenario.effective_tax_rate_pct scenario / num 100))
      /\ (Scenario.enable_taxes scenario = false ->
          TimelineRow.taxes row
          = taxes_of (apply_liquidity_events (TimelineRow.age row)
                        liquidity_events)).
Proof.
  intros scenario liquidity_events rows m Hb.
  apply build_timeline_rows in Hb. destruct Hb as [-> _].
  apply Forall_forall. rewrite timeline_rows_gen.
  apply timeline_gen_Forall. intros st age.
  destruct (row_at_fields scenario liquidity_events st age)
    as (Ha & _ & _ & Hl & _ & _ & Ht & _).
  rewrite Ha, Hl, Ht. unfold tax_rate.
  split; [reflexivity|].
  split; intros ->; reflexivity.
Qed.

(** X2, witness: at age 66 the car purchase is the whole net liquidity of
    the row and, taxes being off, no tax is charged. *)
Lemma build_timeline_taxes_witness :
  exists rows m row,
    build_timeline three_year_scenario [car] = Ok (rows, m)
    /\ nth_error rows 1 = Some row
    /\ TimelineRow.liquidity_net row
       = net_of (apply_liquidity_events (TimelineRow.age row) [car])
    /\ TimelineRow.taxes row
       = taxes_of (apply_liquidity_events (TimelineRow.age row) [car]).
Proof.
  eassert (Hb : build_timeline three_year_scenario [car] = Ok (_, _))
    by (vm_compute; reflexivity).
  do 3 eexists.
  split; [exact Hb|].
  split; [reflexivity|].
  match goal with
  | |- TimelineRow.liquidity_net ?row = _ /\ _ =>
      destruct (build_timeline_taxes _ _ _ _ Hb row) as (Hl & _ & Ht)
  end.
  - right. left. reflexivity.
  - split; [exact Hl | apply Ht; reflexivity].
Defined.

Lemma timeline_gen_Forall_ages (scenario : Scenario.t)
    (liquidity_events : list LiquidityEvent.t)
    (P : TimelineRow.t -> Prop) (ages : list Z) :
  (forall st age,
      In age ages -> P (row_at scenario liquidity_events st age)) ->
  forall st, Forall P (timeline_gen scenario liquidity_events ages st).
Proof.
  induction ages as [|age rest IH]; intros HP st; simpl.
  - constructor.
  - constructor; [apply HP; now left|].
    apply IH. intros st' a Hin. apply HP. now right.
Qed.

Lemma row_at_fixed_withdrawals (scenario : Scenario.t)
    (liquidity_events : list LiquidityEvent.t) (st : TL.locals) (age : Z) :
  TL.cpi_index st = 1 \/ age <> Scenario.current_age scenario ->
  Scenario.withdrawal_method scenario <> PCT_METHOD ->
  let row := row_at scenario liquidity_events st age in
  (Scenario.retirement_age scenario <= TimelineRow.age row)%Z ->
  TimelineRow.withdrawals row
  = (if Scenario.inflation_enabled scenario
     then Scenario.withdrawal_real_amount scenario * TimelineRow.cpi_index row
     else Scenario.withdrawal_real_amount scenario)
    * (if (Scenario.withdrawal_frequency scenario =? MONTHLY)%string
       then num 12 else 1).
Proof.
  intros Hst Hm row. subst row.
  destruct (row_at_fields scenario liquidity_events st age)
    as (Ha & _ & _ & _ & Hw & _ & _ & _ & _ & Hc & _).
  rewrite Ha, Hw, Hc. intro Hr. unfold timeline_withdrawals.
  apply Z.leb_le in Hr. rewrite Hr.
  apply String.eqb_neq in Hm. rewrite Hm.
  assert (Hcpi : (if (Scenario.inflation_enabled scenario
                      && (age =? Scenario.current_age scenario)%Z)%bool
                  then 1 else TL.cpi_index st) = TL.cpi_index st).
  { destruct (Scenario.inflation_enabled scenario); [|reflexivity].
    destruct (Z.eqb_spec age (Scenario.current_age scenario)) as [E|E];
      [|reflexivity].
    simpl. destruct Hst as [-> | Hne]; [reflexivity | contradiction]. }
  rewrite Hcpi.
  destruct (Scenario.inflation_enabled scenario);
    destruct (Scenario.withdrawal_frequency scenario =? MONTHLY)%string;
    ring.
Qed.

(** X3. Under the fixed-real-amount method every row from
    [retirement_age] onward withdraws [withdrawal_real_amount] times the
    price index recorded in that same row when inflation is applied, and
    [withdrawal_real_amount] itself when it is not; times 12 when the
    withdrawal frequency is Monthly. *)
Theorem build_timeline_fixed_withdrawals :
  forall (scenario : Scenario.t) (liquidity_events : list LiquidityEvent.t)
         (rows : list TimelineRow.t) (m : Metrics),
    build_timeline scenario liquidity_events = Ok (rows, m) ->
    Scenario.withdrawal_method scenario <> PCT_METHOD ->
    forall row,
      In row rows ->
      (Scenario.retirement_age scenario <= TimelineRow.age row)%Z ->
      TimelineRow.withdrawals row
      = (if Scenario.inflation_enabled scenario
         then Scenario.withdrawal_real_amount scenario
              * TimelineRow.cpi_index row
         else Scenario.withdrawal_real_amount scenario)
        * (if (Scenario.withdrawal_frequency scenario =? MONTHLY)%string
           then num 12 else 1).
Proof.
  intros scenario liquidity_events rows m Hb Hm.
  apply build_timeline_rows in Hb. destruct Hb as [-> _].
  assert (F : Forall
                (fun row =>
                   (Scenario.retirement_age scenario
                    <= TimelineRow.age row)%Z ->
                   TimelineRow.withdrawals row
                   = (if Scenario.inflation_enabled scenario
                      then Scenario.withdrawal_real_amount scenario
                           * TimelineRow.cpi_index row
                      else Scenario.withdrawal_real_amount scenario)
                     * (if (Scenario.withdrawal_frequency scenario
                            =? MONTHLY)%string
                        then num 12 else 1))
                (timeline_rows scenario liquidity_events)).
  { destruct (Z_le_gt_dec (Scenario.current_age scenario)
                (Scenario.end_age scenario)) as [Hle | Hgt].
    - rewrite timeline_rows_gen, py_range_cons by lia. simpl.
      constructor.
      + apply row_at_fixed_withdrawals; [now left | exact Hm].
      + apply timeline_gen_Forall_ages. intros st age Hin.
        apply row_at_fixed_withdrawals; [|exact Hm].
        right. apply py_range_lower in Hin. lia.
    - rewrite timeline_rows_gen, py_range_nil by lia. constructor. }
  rewrite Forall_forall in F. exact F.
Qed.

(** X3, witness: at age 67 [three_year_scenario] withdraws 50000 times the
    recorded index 1.03. *)
Lemma build_timeline_fixed_withdrawals_witness :
  exists rows m row,
    build_timeline three_year_scenario [] = Ok (rows, m)
    /\ nth_error rows 2 = Some row
    /\ TimelineRow.withdrawals row
       = Scenario.withdrawal_real_amount three_year_scenario
         * TimelineRow.cpi_index row * 1.
Proof.
  eassert (Hb : build_timeline three_year_scenario [] = Ok (_, _))
    by (vm_compute; reflexivity).
  do 3 eexists.
  split; [exact Hb|].
  split; [reflexivity|].
  match goal with
  | |- TimelineRow.withdrawals ?row = _ =>
      apply (build_timeline_fixed_withdrawals _ _ _ _ Hb
               ltac:(intro H; discriminate H) row)
  end.
  - right. right. left. reflexivity.
  - vm_compute. intro H. discriminate H.
Defined.

(** ** Metrics and the shortfall marker *)

Lemma find_app_first {A : Type} (f : A -> bool) (l l' : list A) :
  find f (l ++ l')
  = match find f l with Some x => Some x | None => find f l' end.
Proof.
  induction l as [|x l IH]; simpl; [reflexivity|].
  now destruct (f x).
Qed.

Lemma find_split_first {A : Type} (f : A -> bool) (l : list A) (x : A) :
  find f l = Some x ->
  exists front back,
    l = front ++ x :: back
    /\ f x = true
    /\ forall y, In y front -> f y = false.
Proof.
  induction l as [|y l IH]; simpl; [discriminate|].
  destruct (f y) eqn:F; intro H.
  - inversion H; subst. exists [], l. repeat split; auto. intros z [].
  - destruct (IH H) as (front & back & -> & Hx & Hfront).
    exists (y :: front), back. repeat split; auto.
    intros z [<- | Hz]; auto.
Qed.

Lemma run_ages_shortfall (scenario : Scenario.t)
    (liquidity_events : list LiquidityEvent.t) (ages : list Z) :
  forall st,
    TL.first_shortfall_age st = first_negative (TL.rows st) ->
    TL.first_shortfall_age
      (run_ages scenario liquidity_events ages st)
    = first_negative
        (TL.rows (run_ages scenario liquidity_events ages st)).
Proof.
  unfold run_ages.
  induction ages as [|age rest IH]; intros st Hst; simpl; [exact Hst|].
  apply IH. unfold step_at, timeline_step. simpl.
  unfold first_negative in *. rewrite find_app_first. rewrite Hst.
  destruct (find _ (TL.rows st)) as [r|]; simpl; [reflexivity|].
  destruct (row_at_fields scenario liquidity_events st age)
    as (Ha & _).
  destruct (Qcltb _ 0); simpl; [now rewrite Ha | reflexivity].
Qed.

Lemma last_map_Some_split {A : Type} (l : list A) (x : A) :
  last (map Some l) None = Some x -> exists front, l = front ++ [x].
Proof.
  induction l as [|y [|z l] IH]; simpl in *; intro H.
  - discriminate.
  - inversion H; subst. now exists [].
  - destruct (IH H) as [front Hf]. exists (y :: front).
    simpl. now rewrite Hf.
Qed.

(** X4. The metrics [build_timeline] returns: the terminal balances are
    those of the last row; [first_shortfall_age] is the age of the first
    row whose nominal end balance is negative, so it is [None] exactly
    when every row ends at or above zero, and when it is an age, every
    earlier row ended at or above zero; the Monte Carlo entries are
    [None]. *)
Theorem build_timeline_metrics :
  forall (scenario : Scenario.t) (liquidity_events : list LiquidityEvent.t)
         (rows : list TimelineRow.t) (m : Metrics),
    build_timeline scenario liquidity_events = Ok (rows, m) ->
    (exists front last_row,
        rows = front ++ [last_row]
        /\ terminal_nominal m = TimelineRow.end_balance_nominal last_row
        /\ terminal_real m = TimelineRow.end_balance_real last_row)
    /\ first_shortfall_age m = first_negative rows
    /\ (first_shortfall_age m = None <->
        forall row, In row rows -> 0 <= TimelineRow.end_balance_nominal row)
    /\ (forall a,
           first_shortfall_age m = Some a ->
           exists front row back,
             rows = front ++ row :: back
             /\ TimelineRow.age row = a
             /\ TimelineRow.end_balance_nominal row < 0
             /\ forall r, In r front ->
                          0 <= TimelineRow.end_balance_nominal r)
    /\ probability_no_shortfall m = None
    /\ median_terminal m = None
    /\ p10_terminal m = None
    /\ p90_terminal m = None.
Proof.
  intros scenario liquidity_events rows m Hb.
  apply build_timeline_result in Hb. unfold timeline_result in Hb.
  destruct (last (map Some _) None) as [last_row|] eqn:L; [|discriminate].
  inversion Hb; subst; clear Hb. simpl.
  set (st := run_ages scenario liquidity_events _ _) in *.
  assert (Hf : TL.first_shortfall_age st = first_negative (TL.rows st)).
  { apply run_ages_shortfall. reflexivity. }
  split.
  { destruct (last_map_Some_split _ _ L) as [front Hfront].
    exists front, last_row. auto. }
  split; [exact Hf|].
  split.
  { rewrite Hf. unfold first_negative. split.
    - intros Hn row Hin.
      destruct (find _ (TL.rows st)) eqn:F; [discriminate|].
      apply Qcltb_false_le.
      exact (find_none _ _ F row Hin).
    - intro Hall.
      destruct (find _ (TL.rows st)) as [r|] eqn:F; [|reflexivity].
      apply find_some in F. destruct F as [Hin Hneg].
      apply Qcltb_lt in Hneg. exfalso.
      exact (Qcle_not_lt _ _ (Hall r Hin) Hneg). }
  split.
  { intros a Ha. rewrite Hf in Ha. unfold first_negative in Ha.
    destruct (find _ (TL.rows st)) as [r|] eqn:F; [|discriminate].
    simpl in Ha. inversion Ha; subst.
    destruct (find_split_first _ _ _ F) as (front & back & E & Hneg & Hfront).
    exists front, r, back.
    split; [exact E|]. split; [reflexivity|].
    split; [now apply Qcltb_lt|].
    intros r' Hin. apply Qcltb_false_le. now apply Hfront. }
  repeat split.
Qed.

(** X4, witness: [last_year_scenario] ends at 102.72 without shortfall. *)
Lemma build_timeline_metrics_witness :
  exists rows m,
    build_timeline last_year_scenario [] = Ok (rows, m)
    /\ first_shortfall_age m = first_negative rows.
Proof.
  eassert (Hb : build_timeline last_year_scenario [] = Ok (_, _))
    by (vm_compute; reflexivity).
  do 2 eexists. split; [exact Hb|].
  exact (proj1 (proj2 (build_timeline_metrics _ _ _ _ Hb))).
Defined.

(** X5. The exceptions of [build_timeline], over exact arithmetic.  It
    raises [IndexError] (from [df.iloc[-1]] on the empty frame) exactly
    when [end_age < current_age]; it raises [ZeroDivisionError] (from the
    real balance of the third age) exactly when inflation is applied,
    [inflation_pct] is -100 and [current_age + 2 <= end_age]; and in every
    other case it returns a timeline. *)
Theorem build_timeline_raises_iff :
  forall (scenario : Scenario.t) (liquidity_events : list LiquidityEvent.t),
    (build_timeline scenario liquidity_events = Raise IndexError <->
     (Scenario.end_age scenario < Scenario.current_age scenario)%Z)
    /\ (build_timeline scenario liquidity_events = Raise ZeroDivisionError <->
        Scenario.inflation_enabled scenario = true
        /\ Scenario.inflation_pct scenario = - num 100
        /\ (Scenario.current_age scenario + 2
            <= Scenario.end_age scenario)%Z)
    /\ ((exists rows m,
            build_timeline scenario liquidity_events = Ok (rows, m)) <->
        (Scenario.current_age scenario <= Scenario.end_age scenario)%Z
        /\ ~ (Scenario.inflation_enabled scenario = true
              /\ Scenario.inflation_pct scenario = - num 100
              /\ (Scenario.current_age scenario + 2
                  <= Scenario.end_age scenario)%Z)).
Proof.
  intros scenario liquidity_events.
  rewrite <- index_hits_zero_spec.
  assert (Hempty : (Scenario.end_age scenario
                    < Scenario.current_age scenario)%Z ->
                   index_hits_zero scenario = false).
  { intro Hlt. unfold index_hits_zero.
    destruct (Z.leb_spec (Scenario.current_age scenario + 2)
                (Scenario.end_age scenario)); [lia|].
    apply andb_false_r. }
  destruct (index_hits_zero scenario) eqn:Hz.
  - assert (Hr : build_timeline scenario liquidity_events
                 = Raise ZeroDivisionError)
      by (now rewrite build_timeline_cases, Hz).
    rewrite Hr. split; [|split].
    + split; [discriminate|]. intro Hlt. discriminate (Hempty Hlt).
    + tauto.
    + split; [intros (rows & m & H); discriminate|].
      intros [_ H]. exfalso. now apply H.
  - destruct (Z.le_gt_cases (Scenario.current_age scenario)
                (Scenario.end_age scenario)) as [Hle | Hlt].
    + destruct (build_timeline_returns scenario liquidity_events Hz
                  (timeline_rows_nonempty scenario liquidity_events Hle))
        as [m Hm].
      rewrite Hm. split; [|split].
      * split; [discriminate | lia].
      * split; [discriminate | discriminate].
      * split; [intros _; split; [exact Hle | discriminate]|].
        intros _. now exists (timeline_rows scenario liquidity_events), m.
    + assert (Hr : build_timeline scenario liquidity_events
                   = Raise IndexError).
      { apply build_timeline_raises.
        rewrite timeline_rows_gen, py_range_nil by lia. reflexivity. }
      rewrite Hr. split; [|split].
      * tauto.
      * split; discriminate.
      * split; [intros (rows & m & H); discriminate | lia].
Qed.

(** X5, witness: a plan that ends before it starts. *)
Lemma build_timeline_raises_iff_witness :
  build_timeline
    (Scenario.mk "backwards" 65 65 64 (num 100) 0 "Annual" (num 7) 0
       (num 3) 0 PCT_METHOD (num 4) (num 50000) "Annual" [] false 1000
       false 0 true) [] = Raise IndexError.
Proof.
  apply build_timeline_raises_iff. vm_compute. reflexivity.
Defined.

(** ** Which events the projections see *)

Lemma row_at_same_flows (scenario : Scenario.t)
    (events events' : list LiquidityEvent.t) (st : TL.locals) (age : Z) :
  same_cash_flows events events' ->
  row_at scenario events st age = row_at scenario events' st age.
Proof.
  intro H. destruct (H age) as [Hn Ht].
  unfold row_at, net_of, taxes_of in *.
  destruct (apply_liquidity_events age events) as [[n l] t].
  destruct (apply_liquidity_events age events') as [[n' l'] t'].
  simpl in Hn, Ht. subst. reflexivity.
Qed.

Lemma build_timeline_same_flows (scenario : Scenario.t)
    (events events' : list LiquidityEvent.t) :
  same_cash_flows events events' ->
  build_timeline scenario events = build_timeline scenario events'.
Proof.
  intro H. rewrite !build_timeline_cases. unfold run_ages.
  assert (E : forall ages st,
             fold_left (step_at scenario events) ages st
             = fold_left (step_at scenario events') ages st).
  { induction ages as [|a rest IH]; intro st; simpl; [reflexivity|].
    unfold step_at at 2 4. unfold timeline_step.
    rewrite (row_at_same_flows scenario events events' st a H).
    apply IH. }
  now rewrite E.
Qed.

Lemma mc_step_same_flows (scenario : Scenario.t)
    (events events' : list LiquidityEvent.t) (returns : list (list Qc))
    (run_idx : nat) (st : MC.locals) (ya : nat * Z) :
  same_cash_flows events events' ->
  mc_step scenario events returns run_idx st ya
  = mc_step scenario events' returns run_idx st ya.
Proof.
  intro H. destruct ya as [year_idx age]. destruct (H age) as [Hn Ht].
  unfold mc_step, net_of, taxes_of in *.
  destruct (apply_liquidity_events age events) as [[n l] t].
  destruct (apply_liquidity_events age events') as [[n' l'] t'].
  simpl in Hn, Ht. subst. reflexivity.
Qed.

Lemma mc_trial_same_flows (scenario : Scenario.t)
    (events events' : list LiquidityEvent.t) (returns : list (list Qc))
    (run_idx : nat) :
  same_cash_flows events events' ->
  mc_trial scenario events returns run_idx
  = mc_trial scenario events' returns run_idx.
Proof.
  intro H. unfold mc_trial.
  generalize (mc_init scenario).
  generalize (enumerate (py_range (Scenario.current_age scenario)
                           (Scenario.end_age scenario + 1))).
  induction l as [|ya rest IH]; intro st; simpl; [reflexivity|].
  rewrite (mc_step_same_flows scenario events events' returns run_idx st ya H).
  apply IH.
Qed.

Lemma swr_loop_same_flows (scenario : Scenario.t)
    (events events' : list LiquidityEvent.t) (tolerance : Qc) :
  same_cash_flows events events' ->
  forall iterations st,
    swr_loop scenario events tolerance iterations st
    = swr_loop scenario events' tolerance iterations st.
Proof.
  intro H. induction iterations as [|i rest IH]; intro st; simpl;
    [reflexivity|].
  unfold min_balance_of.
  rewrite (build_timeline_same_flows _ events events' H).
  destruct (build_timeline _ events') as [[df m] | e]; [|reflexivity].
  destruct (Qcltb _ tolerance); [reflexivity | apply IH].
Qed.

Lemma same_cash_flows_disabled (l1 l2 : list LiquidityEvent.t)
    (event : LiquidityEvent.t) :
  LiquidityEvent.enabled event = false ->
  same_cash_flows (l1 ++ event :: l2) (l1 ++ l2).
Proof.
  intros He age.
  rewrite !apply_liquidity_events_app, apply_liquidity_events_cons.
  rewrite event_delta_cases, He. cbn [andb].
  rewrite acc_add_zero_l. split; reflexivity.
Qed.

Lemma same_cash_flows_perm (l l' : list LiquidityEvent.t) :
  Permutation l l' -> same_cash_flows l l'.
Proof.
  intros P age.
  induction P as [|x l l' P IH|x y l|l l' l'' P1 IH1 P2 IH2].
  - auto.
  - rewrite !apply_liquidity_events_cons.
    unfold acc_add, net_of, labels_of, taxes_of in *; simpl.
    destruct IH as [IHn IHt]. now rewrite IHn, IHt.
  - rewrite !apply_liquidity_events_cons.
    unfold acc_add, net_of, labels_of, taxes_of; simpl.
    split; ring.
  - destruct IH1, IH2. split; congruence.
Qed.

Section EventsSeen.

Variable rng : Type.
Variable np_random_seed : Z -> rng.
Variable gauss : rng -> Qc * rng.

Lemma run_monte_carlo_same_flows (scenario : Scenario.t)
    (events events' : list LiquidityEvent.t) (runs seed : Z) (g : rng) :
  same_cash_flows events events' ->
  run_monte_carlo rng np_random_seed gauss scenario events runs seed g
  = run_monte_carlo rng np_random_seed gauss scenario events' runs seed g.
Proof.
  intro H. unfold run_monte_carlo.
  destruct (np_random_normal _ _ _ _ _ _ _) as [[returns | e] g'];
    [|reflexivity].
  rewrite (map_ext _ _ (fun run_idx =>
                          mc_trial_same_flows scenario events events'
                            returns run_idx H)).
  reflexivity.
Qed.

(** X6. A disabled event is invisible to all three projections: with the
    event anywhere in the list or removed from it, [build_timeline],
    [run_monte_carlo] and [solve_safe_withdrawal_rate] return the same. *)
Theorem disabled_event_is_ignored :
  forall (scenario : Scenario.t) (l1 l2 : list LiquidityEvent.t)
         (event : LiquidityEvent.t),
    LiquidityEvent.enabled event = false ->
    build_timeline scenario (l1 ++ event :: l2)
    = build_timeline scenario (l1 ++ l2)
    /\ (forall runs seed g,
           run_monte_carlo rng np_random_seed gauss scenario
             (l1 ++ event :: l2) runs seed g
           = run_monte_carlo rng np_random_seed gauss scenario
               (l1 ++ l2) runs seed g)
    /\ (forall tolerance max_iterations swr_debug,
           solve_safe_withdrawal_rate scenario (l1 ++ event :: l2)
             tolerance max_iterations swr_debug
           = solve_safe_withdrawal_rate scenario (l1 ++ l2)
               tolerance max_iterations swr_debug).
Proof.
  intros scenario l1 l2 event He.
  pose proof (same_cash_flows_disabled l1 l2 event He) as H.
  split; [now apply build_timeline_same_flows|].
  split.
  - intros. now apply run_monte_carlo_same_flows.
  - intros. unfold solve_safe_withdrawal_rate, swr_search.
    now rewrite (swr_loop_same_flows scenario _ _ tolerance H).
Qed.

(** X7. The order of the events does not matter to any projection:
    permuting the event list leaves the results of [build_timeline],
    [run_monte_carlo] and [solve_safe_withdrawal_rate] unchanged. *)
Theorem event_order_is_irrelevant :
  forall (scenario : Scenario.t) (events events' : list LiquidityEvent.t),
    Permutation events events' ->
    build_timeline scenario events = build_timeline scenario events'
    /\ (forall runs seed g,
           run_monte_carlo rng np_random_seed gauss scenario events
             runs seed g
           = run_monte_carlo rng np_random_seed gauss scenario events'
               runs seed g)
    /\ (forall tolerance max_iterations swr_debug,
           solve_safe_withdrawal_rate scenario events
             tolerance max_iterations swr_debug
           = solve_safe_withdrawal_rate scenario events'
               tolerance max_iterations swr_debug).
Proof.
  intros scenario events events' P.
  pose proof (same_cash_flows_perm events events' P) as H.
  split; [now apply build_timeline_same_flows|].
  split.
  - intros. now apply run_monte_carlo_same_flows.
  - intros. unfold solve_safe_withdrawal_rate, swr_search.
    now rewrite (swr_loop_same_flows scenario _ _ tolerance H).
Qed.

End EventsSeen.

(** X6, witness: the switched-off pension next to the car purchase. *)
Lemma disabled_event_is_ignored_witness :
  build_timeline three_year_scenario ([car] ++ pension_disabled :: [])
  = build_timeline three_year_scenario ([car] ++ []).
Proof.
  apply (disabled_event_is_ignored unit (fun _ => tt) (fun g => (0, g))
           three_year_scenario [car] [] pension_disabled).
  reflexivity.
Defined.

(** X7, witness: the car and the pension in either order. *)
Lemma event_order_is_irrelevant_witness :
  build_timeline three_year_scenario [car; pension]
  = build_timeline three_year_scenario [pension; car].
Proof.
  apply (event_order_is_irrelevant unit (fun _ => tt) (fun g => (0, g))
           three_year_scenario [car; pension] [pension; car]).
  apply perm_swap.
Defined.

(** ** The accumulation phase *)

Lemma build_timeline_first_negative (scenario : Scenario.t)
    (liquidity_events : list LiquidityEvent.t)
    (rows : list TimelineRow.t) (m : Metrics) :
  build_timeline scenario liquidity_events = Ok (rows, m) ->
  first_shortfall_age m = first_negative rows.
Proof.
  intro Hb. apply build_timeline_result in Hb. revert Hb.
  unfold timeline_result.
  destruct (last (map Some _) None) as [last_row|]; [|discriminate].
  intro Hb. inversion Hb; subst; clear Hb. simpl.
  apply run_ages_shortfall. reflexivity.
Qed.

(** One accumulation year keeps a non-negative balance non-negative. *)
Lemma row_at_accumulates (scenario : Scenario.t)
    (liquidity_events : list LiquidityEvent.t) (st : TL.locals) (age : Z) :
  0 <= Scenario.contrib_amount scenario ->
  0 <= Scenario.fee_pct scenario ->
  Scenario.fee_pct scenario <= num 100 ->
  - num 100 <= Scenario.nominal_return_pct scenario ->
  taxes_of (apply_liquidity_events age liquidity_events)
  <= net_of (apply_liquidity_events age liquidity_events) ->
  0 <= TL.balance_nominal st ->
  (age < Scenario.retirement_age scenario)%Z ->
  0 <= TimelineRow.end_balance_nominal
         (row_at scenario liquidity_events st age).
Proof.
  intros Hc Hf0 Hf1 Hr Hev Hb Hage.
  destruct (row_at_fields scenario liquidity_events st age)
    as (_ & Hs & Hco & Hl & Hw & Hfe & Ht & Hg & He & _).
  rewrite He, Hg. unfold pre_growth.
  rewrite Hfe, Ht, Hl, Hs, Hw, Hco.
  rewrite timeline_withdrawals_before_retirement by exact Hage.
  unfold tax_rate, fee_rate, nominal_return.
  set (n := net_of (apply_liquidity_events age liquidity_events)) in *.
  set (t := taxes_of (apply_liquidity_events age liquidity_events)) in *.
  assert (Hcontrib : 0 <= contributions_at scenario age).
  { unfold contributions_at.
    destruct (age <? Scenario.retirement_age scenario)%Z;
      [|apply Qcle_refl].
    destruct (Scenario.contrib_cadence scenario =? MONTHLY)%string;
      [|exact Hc].
    rewrite <- (Qcmult_0_l (num 12)).
    apply Qcmult_le_compat_r; [exact Hc | discriminate]. }
  set (c := contributions_at scenario age) in *.
  set (b := TL.balance_nominal st) in *.
  set (f := Scenario.fee_pct scenario) in *.
  set (r := Scenario.nominal_return_pct scenario) in *.
  assert (Htax : (if Scenario.enable_taxes scenario
                  then t + 0 * (if Scenario.enable_taxes scenario
                                then Scenario.effective_tax_rate_pct scenario
                                     / num 100
                                else 0)
                  else t) = t).
  { destruct (Scenario.enable_taxes scenario); ring. }
  rewrite Htax.
  clearbody n t c b f r. clear - Hcontrib Hf0 Hf1 Hr Hev Hb.
  to_Q.
  change (this (num 100)) with 100%Q in *.
  generalize dependent (this n). generalize dependent (this t).
  generalize dependent (this c). generalize dependent (this b).
  generalize dependent (this f). generalize dependent (this r).
  intros qr Hr qf Hf0 Hf1 qb Hb qc Hc qt qn Hev.
  assert (H1 : (0 <= qb * (1 - qf * (1 # 100)))%Q)
    by (apply Qmult_le_0_compat; lra).
  assert (H2 : (0 <= (qb * (1 - qf * (1 # 100)) + qc + (qn - qt))
                    * (1 + qr * (1 # 100)))%Q)
    by (apply Qmult_le_0_compat; lra).
  lra.
Qed.

Lemma timeline_rows_accumulate (scenario : Scenario.t)
    (liquidity_events : list LiquidityEvent.t) :
  0 <= Scenario.current_balance scenario ->
  0 <= Scenario.contrib_amount scenario ->
  0 <= Scenario.fee_pct scenario ->
  Scenario.fee_pct scenario <= num 100 ->
  - num 100 <= Scenario.nominal_return_pct scenario ->
  (forall age,
      taxes_of (apply_liquidity_events age liquidity_events)
      <= net_of (apply_liquidity_events age liquidity_events)) ->
  forall i row,
    nth_error (timeline_rows scenario liquidity_events) i = Some row ->
    (TimelineRow.age row < Scenario.retirement_age scenario)%Z ->
    0 <= TimelineRow.end_balance_nominal row.
Proof.
  intros Hb Hc Hf0 Hf1 Hr Hev.
  pose proof (timeline_rows_linked scenario liquidity_events
                (fun prior row =>
                   0 <= prior ->
                   (TimelineRow.age row < Scenario.retirement_age scenario)%Z ->
                   0 <= TimelineRow.end_balance_nominal row)) as HL.
  assert (Hstep : forall i row,
             nth_error (timeline_rows scenario liquidity_events) i = Some row ->
             0 <= prior_end_balance scenario
                    (timeline_rows scenario liquidity_events) i ->
             (TimelineRow.age row < Scenario.retirement_age scenario)%Z ->
             0 <= TimelineRow.end_balance_nominal row).
  { apply HL. intros st age _ Hst Hage.
    destruct (row_at_fields scenario liquidity_events st age)
      as (Ha & _).
    rewrite Ha in Hage.
    now apply row_at_accumulates. }
  induction i as [|i IH]; intros row Hn Hage.
  - apply (Hstep 0%nat row Hn); [exact Hb | exact Hage].
  - apply (Hstep (S i) row Hn); [|exact Hage].
    simpl.
    destruct (nth_error (timeline_rows scenario liquidity_events) i)
      as [previous|] eqn:Hp; [|apply Qcle_refl].
    apply (IH previous eq_refl).
    rewrite (timeline_rows_age_nth _ _ _ _ Hp).
    rewrite (timeline_rows_age_nth _ _ _ _ Hn) in Hage. lia.
Qed.

(** X8. No shortfall before retirement, over exact arithmetic.  When the
    starting balance and the contribution are non-negative, the fee is
    between 0% and 100%, the return is at least -100%, and at no age the
    event taxes exceed the net event amount, every row before
    [retirement_age] ends with a non-negative nominal balance, and
    [first_shortfall_age], if any, is at or after [retirement_age].  (In
    binary64 a row that ends at exactly zero in exact arithmetic can end
    a rounding error below it.) *)
Theorem no_shortfall_before_retirement :
  forall (scenario : Scenario.t) (liquidity_events : list LiquidityEvent.t)
         (rows : list TimelineRow.t) (m : Metrics),
    build_timeline scenario liquidity_events = Ok (rows, m) ->
    0 <= Scenario.current_balance scenario ->
    0 <= Scenario.contrib_amount scenario ->
    0 <= Scenario.fee_pct scenario ->
    Scenario.fee_pct scenario <= num 100 ->
    - num 100 <= Scenario.nominal_return_pct scenario ->
    (forall age,
        taxes_of (apply_liquidity_events age liquidity_events)
        <= net_of (apply_liquidity_events age liquidity_events)) ->
    (forall row,
        In row rows ->
        (TimelineRow.age row < Scenario.retirement_age scenario)%Z ->
        0 <= TimelineRow.end_balance_nominal row)
    /\ (forall a,
           first_shortfall_age m = Some a ->
           (Scenario.retirement_age scenario <= a)%Z).
Proof.
  intros scenario liquidity_events rows m Hbuild Hb Hc Hf0 Hf1 Hr Hev.
  pose proof (build_timeline_first_negative _ _ _ _ Hbuild) as Hfirst.
  apply build_timeline_rows in Hbuild. destruct Hbuild as [-> _].
  assert (Hrows : forall row,
             In row (timeline_rows scenario liquidity_events) ->
             (TimelineRow.age row < Scenario.retirement_age scenario)%Z ->
             0 <= TimelineRow.end_balance_nominal row).
  { intros row Hin Hage.
    apply In_nth_error in Hin. destruct Hin as [i Hi].
    exact (timeline_rows_accumulate scenario liquidity_events
             Hb Hc Hf0 Hf1 Hr Hev i row Hi Hage). }
  split; [exact Hrows|].
  intros a Ha. rewrite Hfirst in Ha. unfold first_negative in Ha.
  destruct (find _ (timeline_rows scenario liquidity_events)) as [row|] eqn:F;
    [|discriminate].
  simpl in Ha. inversion Ha; subst.
  apply find_some in F. destruct F as [Hin Hneg].
  apply Qcltb_lt in Hneg.
  destruct (Z_le_gt_dec (Scenario.retirement_age scenario)
              (TimelineRow.age row)) as [Hle | Hgt]; [exact Hle|].
  exfalso.
  apply (Qcle_not_lt _ _ (Hrows row Hin ltac:(lia)) Hneg).
Qed.

(** Closes a closed [<=] goal on [Z] or [Qc] by evaluation. *)
Ltac by_eval := vm_compute; let H := fresh in intro H; discriminate H.

(** X8, witness: the second accumulation year of [saver_scenario]. *)
Lemma no_shortfall_before_retirement_witness :
  exists rows m row,
    build_timeline saver_scenario [] = Ok (rows, m)
    /\ nth_error rows 1 = Some row
    /\ 0 <= TimelineRow.end_balance_nominal row.
Proof.
  eassert (Hb : build_timeline saver_scenario [] = Ok (_, _))
    by (vm_compute; reflexivity).
  do 3 eexists.
  split; [exact Hb|].
  split; [reflexivity|].
  match goal with
  | |- 0 <= TimelineRow.end_balance_nominal ?row =>
      destruct (no_shortfall_before_retirement _ _ _ _ Hb) as [Hrows _];
        [by_eval | by_eval | by_eval | by_eval | by_eval
        | intro age; by_eval
        | apply (Hrows row); [right; left; reflexivity | reflexivity] ]
  end.
Defined.

(** ** More on the solver *)

Lemma swr_loop_range (scenario : Scenario.t)
    (liquidity_events : list LiquidityEvent.t) (tolerance : Qc) :
  forall iterations st st',
    swr_loop scenario liquidity_events tolerance iterations st = Ok st' ->
    0 <= SWR.low st /\ SWR.low st < SWR.high st /\ SWR.high st <= num 20
    /\ SWR.best_rate st = SWR.low st ->
    0 <= SWR.low st' /\ SWR.low st' < SWR.high st' /\ SWR.high st' <= num 20
    /\ SWR.best_rate st' = SWR.low st'.
Proof.
  induction iterations as [|i rest IH]; intros st st' Hrun Hst.
  - simpl in Hrun. inversion Hrun; subst. exact Hst.
  - cbn [swr_loop] in Hrun.
    destruct (min_balance_of _ _) as [mb | e]; [|discriminate].
    set (mid := (SWR.low st + SWR.high st) / num 2) in *.
    assert (Hmid : SWR.low st < mid /\ mid < SWR.high st).
    { destruct Hst as (_ & Hlt & _). subst mid.
      generalize dependent (SWR.low st). generalize dependent (SWR.high st).
      intros h l Hlt. to_Q. split; lra. }
    assert (Hnext :
              forall st1,
                st1 = (if Qcleb 0 mb
                       then SWR.mk mid (SWR.high st) mid
                              (SWR.debug_info st
                               ++ [mkDebugEntry (i + 1) mid mb true])
                       else SWR.mk (SWR.low st) mid (SWR.best_rate st)
                              (SWR.debug_info st
                               ++ [mkDebugEntry (i + 1) mid mb false])) ->
                0 <= SWR.low st1 /\ SWR.low st1 < SWR.high st1
                /\ SWR.high st1 <= num 20
                /\ SWR.best_rate st1 = SWR.low st1).
    { intros st1 ->. destruct Hst as (H0 & Hlt & H20 & Hbest).
      destruct Hmid as [Hl Hh].
      destruct (Qcleb 0 mb); simpl.
      - repeat split; auto.
        eapply Qcle_trans; [exact H0 | now apply Qclt_le_weak].
      - repeat split; auto.
        eapply Qcle_trans; [apply Qclt_le_weak; exact Hh | exact H20]. }
    match type of Hrun with
    | (if Qcltb (SWR.high ?s - SWR.low ?s) _ then _ else _) = _ =>
        specialize (Hnext s eq_refl);
          destruct (Qcltb (SWR.high s - SWR.low s) tolerance)
    end.
    + inversion Hrun; subst. exact Hnext.
    + exact (IH _ _ Hrun Hnext).
Qed.

(** X9. Over exact arithmetic, whatever the scenario, events, tolerance
    and iteration bound, a rate returned by [solve_safe_withdrawal_rate]
    lies in [0, 20): the solver never reports a rate of 20% or more, nor a
    negative one.  (In binary64 the midpoints are exact for the first 50
    iterations, the default bound; beyond it a midpoint can round up to
    20.0.) *)
Theorem solve_safe_withdrawal_rate_range :
  forall (scenario : Scenario.t) (liquidity_events : list LiquidityEvent.t)
         (tolerance : Qc) (max_iterations : Z) (swr_debug : list DebugEntry)
         (r : Qc) (log : list DebugEntry),
    solve_safe_withdrawal_rate scenario liquidity_events tolerance
      max_iterations swr_debug = Ok (Some r, log) ->
    0 <= r /\ r < num 20.
Proof.
  intros scenario liquidity_events tolerance max_iterations swr_debug r log.
  unfold solve_safe_withdrawal_rate, swr_search.
  destruct (negb _); [discriminate|].
  destruct (swr_loop _ _ _ _ _) as [st | e] eqn:Hrun; [|discriminate].
  intro H. inversion H; subst; clear H.
  destruct (swr_loop_range _ _ _ _ _ _ Hrun) as (H0 & Hlt & H20 & Hbest).
  { unfold swr_init; simpl. repeat split; try reflexivity; by_eval. }
  rewrite Hbest. split; [exact H0|].
  eapply Qclt_le_trans; eassumption.
Qed.

(** X9, witness: the rate found for [last_year_scenario]. *)
Lemma solve_safe_withdrawal_rate_range_witness :
  exists r log,
    solve_safe_withdrawal_rate last_year_scenario [] default_tolerance
      default_max_iterations [] = Ok (Some r, log)
    /\ 0 <= r /\ r < num 20.
Proof.
  eassert (Hs : solve_safe_withdrawal_rate last_year_scenario []
                  default_tolerance default_max_iterations []
                = Ok (Some _, _)) by (vm_compute; reflexivity).
  do 2 eexists. split; [exact Hs|].
  exact (solve_safe_withdrawal_rate_range _ _ _ _ _ _ _ Hs).
Defined.

(** ** A higher rate leaves less *)

Lemma Qcmult_nonneg (a b : Qc) : 0 <= a -> 0 <= b -> 0 <= a * b.
Proof.
  intros Ha Hb.
  assert (H : 0 * b <= a * b) by (apply Qcmult_le_compat_r; assumption).
  now rewrite Qcmult_0_l in H.
Qed.

Lemma Qcplus_nonneg (a b : Qc) : 0 <= a -> 0 <= b -> 0 <= a + b.
Proof. intros Ha Hb. to_Q. lra. Qed.

Lemma Qcle_diff (x y : Qc) : 0 <= y - x <-> x <= y.
Proof. split; intro H; to_Q; lra. Qed.

(** The nominal end balance of a row under the percentage method, from
    the balance carried in. *)
Lemma row_at_end_pct (scenario : Scenario.t)
    (liquidity_events : list LiquidityEvent.t) (st : TL.locals) (age : Z) :
  Scenario.withdrawal_method scenario = PCT_METHOD ->
  balanced st ->
  TimelineRow.end_balance_nominal
    (row_at scenario liquidity_events st age)
  = (TL.balance_nominal st
     * (1 - fee_rate scenario
        - (if (Scenario.retirement_age scenario <=? age)%Z
           then Scenario.withdrawal_pct scenario / num 100
                * (1 + tax_rate scenario)
           else 0))
     + (contributions_at scenario age
        + net_of (apply_liquidity_events age liquidity_events)
        - taxes_of (apply_liquidity_events age liquidity_events)))
    * (1 + nominal_return scenario).
Proof.
  intros Hm Hb. unfold row_at, net_of, taxes_of. red in Hb.
  destruct (apply_liquidity_events age liquidity_events) as [[n l] t].
  cbn [TimelineRow.end_balance_nominal fst snd].
  unfold timeline_withdrawals. rewrite Hm, String.eqb_refl, Hb.
  unfold tax_rate.
  destruct (Scenario.retirement_age scenario <=? age)%Z,
           (Scenario.enable_taxes scenario); ring.
Qed.

Section HigherRate.

Variable scenario : Scenario.t.
Variable liquidity_events : list LiquidityEvent.t.
Variables p p' : Qc.

Hypothesis Hm : Scenario.withdrawal_method scenario = PCT_METHOD.
Hypothesis Hret : 0 <= 1 + nominal_return scenario.
Hypothesis Htax : 0 <= 1 + tax_rate scenario.
Hypothesis Hfee : 0 <= 1 - fee_rate scenario.
Hypothesis Ha :
  0 <= 1 - fee_rate scenario - p / num 100 * (1 + tax_rate scenario).
Hypothesis Hpp : p <= p'.

Lemma row_end_mono (st st' : TL.locals) (age : Z) :
  balanced st -> balanced st' ->
  TL.balance_nominal st' <= TL.balance_nominal st ->
  0 <= TL.balance_nominal st' ->
  TimelineRow.end_balance_nominal
    (row_at (Scenario.with_withdrawal_pct scenario p') liquidity_events
       st' age)
  <= TimelineRow.end_balance_nominal
       (row_at (Scenario.with_withdrawal_pct scenario p) liquidity_events
          st age).
Proof.
  intros Hb Hb' Hle H0.
  rewrite (row_at_end_pct (Scenario.with_withdrawal_pct scenario p')
             liquidity_events st' age Hm Hb').
  rewrite (row_at_end_pct (Scenario.with_withdrawal_pct scenario p)
             liquidity_events st age Hm Hb).
  change (fee_rate (Scenario.with_withdrawal_pct scenario p'))
    with (fee_rate scenario).
  change (fee_rate (Scenario.with_withdrawal_pct scenario p))
    with (fee_rate scenario).
  change (tax_rate (Scenario.with_withdrawal_pct scenario p'))
    with (tax_rate scenario).
  change (tax_rate (Scenario.with_withdrawal_pct scenario p))
    with (tax_rate scenario).
  change (nominal_return (Scenario.with_withdrawal_pct scenario p'))
    with (nominal_return scenario).
  change (nominal_return (Scenario.with_withdrawal_pct scenario p))
    with (nominal_return scenario).
  change (contributions_at (Scenario.with_withdrawal_pct scenario p') age)
    with (contributions_at scenario age).
  change (contributions_at (Scenario.with_withdrawal_pct scenario p) age)
    with (contributions_at scenario age).
  change (Scenario.retirement_age (Scenario.with_withdrawal_pct scenario p'))
    with (Scenario.retirement_age scenario).
  change (Scenario.retirement_age (Scenario.with_withdrawal_pct scenario p))
    with (Scenario.retirement_age scenario).
  change (Scenario.withdrawal_pct (Scenario.with_withdrawal_pct scenario p'))
    with p'.
  change (Scenario.withdrawal_pct (Scenario.with_withdrawal_pct scenario p))
    with p.
  apply Qcmult_le_compat_r; [|exact Hret].
  apply Qcplus_le_compat; [|apply Qcle_refl].
  set (B := TL.balance_nominal st) in *.
  set (B' := TL.balance_nominal st') in *.
  set (f := fee_rate scenario) in *.
  set (t := tax_rate scenario) in *.
  assert (Hq : 0 <= p' / num 100 - p / num 100) by (to_Q; lra).
  set (q := p / num 100) in *. set (q' := p' / num 100) in *.
  assert (HB : 0 <= B - B') by (now apply Qcle_diff).
  apply Qcle_diff.
  destruct (Scenario.retirement_age scenario <=? age)%Z.
  - replace (B * (1 - f - q * (1 + t)) - B' * (1 - f - q' * (1 + t)))
      with ((B - B') * (1 - f - q * (1 + t))
            + B' * ((q' - q) * (1 + t))) by ring.
    assert (H1 : 0 <= (B - B') * (1 - f - q * (1 + t)))
      by (now apply Qcmult_nonneg).
    assert (H2 : 0 <= B' * ((q' - q) * (1 + t)))
      by (apply Qcmult_nonneg; [exact H0 | now apply Qcmult_nonneg]).
    now apply Qcplus_nonneg.
  - replace (B * (1 - f - 0) - B' * (1 - f - 0))
      with ((B - B') * (1 - f)) by ring.
    now apply Qcmult_nonneg.
Qed.

Lemma timeline_gen_mono :
  forall ages st st',
    balanced st -> balanced st' ->
    TL.balance_nominal st' <= TL.balance_nominal st ->
    0 <= TL.balance_nominal st' ->
    (forall row,
        In row (timeline_gen (Scenario.with_withdrawal_pct scenario p')
                  liquidity_events ages st') ->
        0 <= TimelineRow.end_balance_nominal row) ->
    forall row,
      In row (timeline_gen (Scenario.with_withdrawal_pct scenario p)
                liquidity_events ages st) ->
      0 <= TimelineRow.end_balance_nominal row.
Proof.
  induction ages as [|age rest IH]; intros st st' Hb Hb' Hle H0 Hall row Hin;
    [destruct Hin|].
  rewrite timeline_gen_cons in Hin, Hall.
  pose proof (row_end_mono st st' age Hb Hb' Hle H0) as Hrow.
  assert (Hend' : 0 <= TimelineRow.end_balance_nominal
                         (row_at (Scenario.with_withdrawal_pct scenario p')
                            liquidity_events st' age))
    by (apply Hall; now left).
  destruct Hin as [<- | Hin].
  - eapply Qcle_trans; [exact Hend' | exact Hrow].
  - apply (IH (step_at (Scenario.with_withdrawal_pct scenario p)
                 liquidity_events st age)
              (step_at (Scenario.with_withdrawal_pct scenario p')
                 liquidity_events st' age)).
    + apply step_at_balanced.
    + apply step_at_balanced.
    + rewrite !step_at_balance. exact Hrow.
    + rewrite step_at_balance. exact Hend'.
    + intros r Hr. apply Hall. now right.
    + exact Hin.
Qed.

End HigherRate.

(** Under the percentage method a plan that survives a rate survives
    every lower rate, as long as the balance starts non-negative, the
    return is no worse than -100%, and fees and withdrawals (with the tax
    on them) at the lower rate take no more than the whole balance. *)
Lemma solvent_at_lower (scenario : Scenario.t)
    (liquidity_events : list LiquidityEvent.t) (p p' : Qc) :
  Scenario.withdrawal_method scenario = PCT_METHOD ->
  0 <= Scenario.current_balance scenario ->
  0 <= 1 + nominal_return scenario ->
  0 <= 1 + tax_rate scenario ->
  0 <= 1 - fee_rate scenario ->
  0 <= 1 - fee_rate scenario - p / num 100 * (1 + tax_rate scenario) ->
  p <= p' ->
  solvent_at scenario liquidity_events p' ->
  solvent_at scenario liquidity_events p.
Proof.
  intros Hm Hbal Hret Htax Hfee Ha Hpp (rows' & m' & Hb' & Hall).
  pose proof (build_timeline_no_zero _ _ _ _ Hb') as Hz.
  destruct (build_timeline_rows _ _ _ _ Hb') as [-> Hne].
  assert (Hne2 : timeline_rows (Scenario.with_withdrawal_pct scenario p)
                   liquidity_events <> []).
  { apply timeline_rows_nonempty.
    apply Z.nlt_ge. intro Hlt. apply Hne.
    rewrite timeline_rows_gen.
    change (Scenario.current_age (Scenario.with_withdrawal_pct scenario p'))
      with (Scenario.current_age scenario).
    change (Scenario.end_age (Scenario.with_withdrawal_pct scenario p'))
      with (Scenario.end_age scenario).
    change (Scenario.current_age (Scenario.with_withdrawal_pct scenario p))
      with (Scenario.current_age scenario) in Hlt.
    change (Scenario.end_age (Scenario.with_withdrawal_pct scenario p))
      with (Scenario.end_age scenario) in Hlt.
    now rewrite py_range_nil by lia. }
  destruct (build_timeline_returns
              (Scenario.with_withdrawal_pct scenario p) liquidity_events
              Hz Hne2) as [m Hb].
  exists (timeline_rows (Scenario.with_withdrawal_pct scenario p)
            liquidity_events), m.
  split; [exact Hb|].
  rewrite timeline_rows_gen in Hall |- *.
  apply (timeline_gen_mono scenario liquidity_events p p' Hm Hret Htax Hfee
           Ha Hpp _ (timeline_init (Scenario.with_withdrawal_pct scenario p))
           (timeline_init (Scenario.with_withdrawal_pct scenario p')));
    try reflexivity; try exact Hall.
  - apply Qcle_refl.
  - exact Hbal.
Qed.

(** So a rate above an insolvent one is insolvent. *)
Lemma insolvent_at_higher (scenario : Scenario.t)
    (liquidity_events : list LiquidityEvent.t) (p p' : Qc) :
  Scenario.withdrawal_method scenario = PCT_METHOD ->
  0 <= Scenario.current_balance scenario ->
  0 <= 1 + nominal_return scenario ->
  0 <= 1 + tax_rate scenario ->
  0 <= 1 - fee_rate scenario ->
  0 <= 1 - fee_rate scenario - p / num 100 * (1 + tax_rate scenario) ->
  p <= p' ->
  insolvent_at scenario liquidity_events p ->
  insolvent_at scenario liquidity_events p'.
Proof.
  intros Hm Hbal Hret Htax Hfee Ha Hpp (rows & m & Hb & row & Hin & Hneg).
  pose proof (build_timeline_no_zero _ _ _ _ Hb) as Hz.
  assert (Hle : (Scenario.current_age scenario
                 <= Scenario.end_age scenario)%Z).
  { apply Z.nlt_ge. intro Hlt.
    destruct (build_timeline_rows _ _ _ _ Hb) as [E Hne]. apply Hne.
    rewrite E, timeline_rows_gen.
    change (Scenario.current_age (Scenario.with_withdrawal_pct scenario p))
      with (Scenario.current_age scenario).
    change (Scenario.end_age (Scenario.with_withdrawal_pct scenario p))
      with (Scenario.end_age scenario).
    now rewrite py_range_nil by lia. }
  destruct (min_balance_of_total scenario liquidity_events Hle Hz p')
    as [mb Hmb].
  destruct (Qcleb 0 mb) eqn:S.
  - apply Qcleb_le in S.
    pose proof (min_balance_of_solvent _ _ _ _ Hmb S) as Hs'.
    destruct (solvent_at_lower scenario liquidity_events p p' Hm Hbal Hret
                Htax Hfee Ha Hpp Hs') as (rows2 & m2 & Hb2 & Hall).
    rewrite Hb in Hb2. injection Hb2 as <- <-.
    exfalso. apply (Qclt_not_le _ _ Hneg). now apply Hall.
  - apply Qcleb_false_lt in S.
    exact (min_balance_of_insolvent _ _ _ _ Hmb S).
Qed.

Lemma rate_within_balance (f t p : Qc) :
  0 <= t ->
  f + num 20 / num 100 * (1 + t) <= 1 ->
  p <= num 20 ->
  0 <= 1 - f - p / num 100 * (1 + t).
Proof.
  intros Ht Hf Hp.
  assert (H1 : 0 <= 1 + t) by (to_Q; lra).
  assert (H2 : 0 <= num 20 / num 100 - p / num 100) by (to_Q; lra).
  replace (1 - f - p / num 100 * (1 + t))
    with ((1 - (f + num 20 / num 100 * (1 + t)))
          + (num 20 / num 100 - p / num 100) * (1 + t)) by ring.
  apply Qcplus_nonneg.
  - now apply Qcle_diff.
  - now apply Qcmult_nonneg.
Qed.

(** C3, as amended.  Over exact arithmetic: for every scenario using the
    percentage method with [current_age <= end_age] whose price index
    does not reach zero, the solver returns a rate [r]; every logged line
    is a faithful test of its rate; [r] is 0 with no tested rate solvent,
    or a tested midpoint whose timeline never goes negative; the upper
    end of the final interval is 20 or a tested midpoint whose timeline
    has a negative minimum, and lies [20 / 2^N] above [r] after [N]
    iterations; the search runs at most [max_iterations] iterations and
    stops after the first one that leaves the interval narrower than the
    tolerance.  When it stopped on that test, and the starting balance is
    not negative, the return is no worse than -100%, the tax rate is not
    negative and the fee with a 20% withdrawal and the tax on it takes no
    more than the whole balance, every rate that exceeds [r] by more than
    the tolerance yields a timeline with a negative minimum; the one
    exception is a rate above 20 when no tested rate was insolvent (the
    upper end is still 20). *)
Theorem solve_safe_withdrawal_rate_search :
  forall (scenario : Scenario.t) (liquidity_events : list LiquidityEvent.t)
         (tolerance : Qc) (max_iterations : Z) (swr_debug : list DebugEntry),
    Scenario.withdrawal_method scenario = PCT_METHOD ->
    (Scenario.current_age scenario <= Scenario.end_age scenario)%Z ->
    index_hits_zero scenario = false ->
    exists st,
      swr_search scenario liquidity_events tolerance max_iterations = Ok st
      /\ solve_safe_withdrawal_rate scenario liquidity_events tolerance
           max_iterations swr_debug
         = Ok (Some (SWR.best_rate st), SWR.debug_info st)
      /\ Forall (entry_ok scenario liquidity_events) (SWR.debug_info st)
      /\ ((SWR.best_rate st = 0
           /\ forall e, In e (SWR.debug_info st) -> dbg_solvent e = false)
          \/ ((exists e, In e (SWR.debug_info st)
                         /\ dbg_mid e = SWR.best_rate st
                         /\ dbg_solvent e = true)
              /\ solvent_at scenario liquidity_events (SWR.best_rate st)))
      /\ (SWR.high st = num 20
          \/ ((exists e, In e (SWR.debug_info st)
                         /\ dbg_mid e = SWR.high st
                         /\ dbg_solvent e = false)
              /\ insolvent_at scenario liquidity_events (SWR.high st)))
      /\ SWR.high st - SWR.best_rate st
         = width_after (List.length (SWR.debug_info st))
      /\ (Z.of_nat (List.length (SWR.debug_info st))
          <= Z.max 0 max_iterations)%Z
      /\ (Z.of_nat (List.length (SWR.debug_info st)) = Z.max 0 max_iterations
          \/ SWR.high st - SWR.best_rate st < tolerance)
      /\ (forall k,
             (0 < k < List.length (SWR.debug_info st))%nat ->
             tolerance <= width_after k)
      /\ (SWR.high st - SWR.best_rate st < tolerance ->
          0 <= Scenario.current_balance scenario ->
          0 <= 1 + nominal_return scenario ->
          0 <= tax_rate scenario ->
          fee_rate scenario + num 20 / num 100 * (1 + tax_rate scenario)
          <= 1 ->
          forall r',
            SWR.best_rate st + tolerance < r' ->
            SWR.high st <> num 20 \/ r' <= num 20 ->
            insolvent_at scenario liquidity_events r').
Proof.
  intros scenario liquidity_events tolerance max_iterations swr_debug
    Hm Hle Hz.
  destruct (swr_loop_spec scenario liquidity_events tolerance
              (min_balance_of_total scenario liquidity_events Hle Hz)
              (py_range 0 max_iterations) swr_init
              (swr_inv_init scenario liquidity_events))
    as (st & Hrun & (Hlow & Hw & Hlog & Hbest & Hhigh) & Hn & Hstop & Hwide).
  rewrite py_range_length in Hn, Hstop. simpl in Hn, Hstop, Hwide.
  assert (Hinsolvent :
            SWR.high st = num 20
            \/ ((exists e, In e (SWR.debug_info st)
                           /\ dbg_mid e = SWR.high st
                           /\ dbg_solvent e = false)
                /\ insolvent_at scenario liquidity_events (SWR.high st))).
  { destruct Hhigh as [Htop | (e & He & Hmid & Hs)]; [now left | right].
    split; [now exists e|].
    destruct (entry_solvent_min _ _ _ _ Hlog He) as (mb & Hmb & _ & Hneg).
    rewrite Hmid in Hmb.
    exact (min_balance_of_insolvent _ _ _ _ Hmb (Hneg Hs)). }
  exists st.
  split; [exact Hrun|].
  split.
  { unfold solve_safe_withdrawal_rate. rewrite Hm, String.eqb_refl. simpl.
    unfold swr_search in Hrun. unfold swr_search. now rewrite Hrun. }
  split; [exact Hlog|].
  split.
  { destruct Hbest as [Hzero | (e & He & Hmid & Hs)]; [now left | right].
    split; [now exists e|].
    destruct (entry_solvent_min _ _ _ _ Hlog He) as (mb & Hmb & Hpos & _).
    rewrite Hmid in Hmb.
    exact (min_balance_of_solvent _ _ _ _ Hmb (Hpos Hs)). }
  split; [exact Hinsolvent|].
  rewrite <- Hlow.
  split; [exact Hw|].
  split; [lia|].
  split; [destruct Hstop as [Hs | Hs]; [left; lia | now right]|].
  split; [exact Hwide|].
  intros Hnarrow Hbal Hret Htax Hfee r' Habove Hside.
  assert (H20 : SWR.high st <= num 20).
  { destruct (swr_loop_range _ _ _ _ _ _ Hrun) as (_ & _ & H20 & _);
      [|exact H20].
    unfold swr_init; simpl. repeat split; try reflexivity; by_eval. }
  assert (Hlt : SWR.high st < r').
  { clear - Hnarrow Habove.
    generalize dependent (SWR.high st). generalize dependent (SWR.low st).
    intros l Habove h Hnarrow. to_Q. lra. }
  destruct Hinsolvent as [Htop | [_ Hins]].
  - exfalso. destruct Hside as [Hne | Hrange]; [now apply Hne|].
    rewrite Htop in Hlt. exact (Qclt_not_le _ _ Hlt Hrange).
  - apply (insolvent_at_higher scenario liquidity_events (SWR.high st) r');
      try assumption.
    + to_Q. lra.
    + assert (H0 : 0 <= num 20 / num 100 * (1 + tax_rate scenario)).
      { apply Qcmult_nonneg; [by_eval | to_Q; lra]. }
      clear - Hfee H0.
      generalize dependent (num 20 / num 100 * (1 + tax_rate scenario)).
      intros x Hfee H0. to_Q. lra.
    + apply rate_within_balance; [exact Htax | exact Hfee | exact H20].
    + now apply Qclt_le_weak.
Qed.

(** C3, witness: the search on [last_year_scenario] with a bill of 90 due
    that year and the default tolerance and iteration bound.  The plan
    survives a rate of 10 and no higher one; the search stops on the
    tolerance test, and every rate that exceeds the returned one by more
    than the tolerance is insolvent. *)
Lemma solve_safe_withdrawal_rate_search_witness :
  exists st,
    swr_search last_year_scenario [final_bill] default_tolerance
      default_max_iterations = Ok st
    /\ solve_safe_withdrawal_rate last_year_scenario [final_bill]
         default_tolerance default_max_iterations []
       = Ok (Some (SWR.best_rate st), SWR.debug_info st)
    /\ SWR.best_rate st = num 10
    /\ forall r',
         SWR.best_rate st + default_tolerance < r' ->
         insolvent_at last_year_scenario [final_bill] r'.
Proof.
  destruct (solve_safe_withdrawal_rate_search last_year_scenario
              [final_bill] default_tolerance default_max_iterations [])
    as (st & H1 & H2 & _ & _ & _ & _ & _ & _ & _ & Hall).
  - reflexivity.
  - by_eval.
  - reflexivity.
  - eassert (E : swr_search last_year_scenario [final_bill]
                   default_tolerance default_max_iterations = Ok _)
      by (vm_compute; reflexivity).
    exists st. split; [exact H1|]. split; [exact H2|].
    rewrite H1 in E. injection E as E.
    split; [rewrite E; apply Qc_is_canon; reflexivity|].
    intros r' Hr.
    apply Hall; [ | by_eval | by_eval | by_eval | by_eval | exact Hr | ].
    + rewrite E. reflexivity.
    + left. rewrite E. intro H. apply (f_equal this) in H.
      vm_compute in H. discriminate H.
Defined.

(** C3, counterexample.  On [last_year_scenario] with three iterations
    the search stops on the iteration bound and returns 17.5, yet a rate
    of 19 leaves the balance positive.  So a rate of the search range
    above the returned one by more than the tolerance need not yield a
    negative minimum. *)
Lemma solve_safe_withdrawal_rate_cap_counterexample :
  exists r log,
    solve_safe_withdrawal_rate last_year_scenario [] default_tolerance
      3 [] = Ok (Some r, log)
    /\ r = Q2Qc (35 # 2)
    /\ r + default_tolerance < num 19 /\ num 19 <= num 20
    /\ ~ insolvent_at last_year_scenario [] (num 19).
Proof.
  eexists. eexists. split; [vm_compute; reflexivity|].
  split; [reflexivity|].
  split; [vm_compute; reflexivity|].
  split; [by_eval|].
  intros (rows & m & Hb & row & Hin & Hneg).
  vm_compute in Hb. inversion Hb; subst. clear Hb.
  destruct Hin as [<- | []].
  vm_compute in Hneg. discriminate.
Qed.

Lemma width_after_small : width_after 11 < default_tolerance.
Proof. reflexivity. Qed.

Lemma width_after_large (k : nat) :
  (k <= 10)%nat -> default_tolerance <= width_after k.
Proof.
  intro H.
  do 11 (destruct k as [|k]; [by_eval|]). lia.
Qed.

(** X10. With the default tolerance of 0.01 and any iteration bound of at
    least 11 (the default is 50), the search on a percentage-method
    scenario with [current_age <= end_age] whose price index does not
    reach zero (over exact arithmetic: inflation off, [inflation_pct]
    other than -100, or fewer than three ages) builds exactly 11
    timelines, whatever the rest of the scenario and its events, and ends
    with an interval of width [20 / 2^11] above the returned rate. *)
Theorem solve_safe_withdrawal_rate_default_iterations :
  forall (scenario : Scenario.t) (liquidity_events : list LiquidityEvent.t)
         (max_iterations : Z) (swr_debug : list DebugEntry),
    Scenario.withdrawal_method scenario = PCT_METHOD ->
    (Scenario.current_age scenario <= Scenario.end_age scenario)%Z ->
    index_hits_zero scenario = false ->
    (11 <= max_iterations)%Z ->
    exists st,
      swr_search scenario liquidity_events default_tolerance max_iterations
      = Ok st
      /\ solve_safe_withdrawal_rate scenario liquidity_events
           default_tolerance max_iterations swr_debug
         = Ok (Some (SWR.best_rate st), SWR.debug_info st)
      /\ List.length (SWR.debug_info st) = 11%nat
      /\ SWR.high st - SWR.best_rate st = width_after 11.
Proof.
  intros scenario liquidity_events max_iterations swr_debug Hm Hle Hz Hmax.
  destruct (swr_loop_spec scenario liquidity_events default_tolerance
              (min_balance_of_total scenario liquidity_events Hle Hz)
              (py_range 0 max_iterations) swr_init
              (swr_inv_init scenario liquidity_events))
    as (st & Hrun & (Hlow & Hw & _) & Hn & Hstop & Hwide).
  rewrite py_range_length in Hn, Hstop. simpl in Hn, Hstop, Hwide.
  exists st.
  split; [exact Hrun|].
  split.
  { unfold solve_safe_withdrawal_rate. rewrite Hm, String.eqb_refl. simpl.
    unfold swr_search in Hrun. unfold swr_search. now rewrite Hrun. }
  assert (HN : List.length (SWR.debug_info st) = 11%nat).
  { destruct (Nat.lt_trichotomy (List.length (SWR.debug_info st)) 11)
      as [Hlt | [Heq | Hgt]]; [|exact Heq|].
    - exfalso. destruct Hstop as [Hs | Hs]; [lia|].
      rewrite Hw in Hs.
      apply (Qcle_not_lt _ _
               (width_after_large (List.length (SWR.debug_info st))
                  ltac:(lia)) Hs).
    - exfalso.
      apply (Qcle_not_lt _ _ (Hwide 11%nat ltac:(lia)) width_after_small). }
  split; [exact HN|].
  rewrite <- Hlow, Hw, HN. reflexivity.
Qed.

(** X10, witness: [last_year_scenario] with the default bound of 50. *)
Lemma solve_safe_withdrawal_rate_default_iterations_witness :
  exists st,
    swr_search last_year_scenario [] default_tolerance
      default_max_iterations = Ok st
    /\ List.length (SWR.debug_info st) = 11%nat.
Proof.
  destruct (solve_safe_withdrawal_rate_default_iterations
              last_year_scenario [] default_max_iterations [])
    as (st & Hrun & _ & Hlen & _).
  - reflexivity.
  - by_eval.
  - reflexivity.
  - by_eval.
  - exists st. split; assumption.
Defined.

(** X11. Degenerate requests on a percentage-method scenario: with an
    iteration bound of zero or less the solver returns 0.0 with an empty
    log and builds no timeline (whatever the ages); with a bound of at
    least one and [end_age < current_age] the first timeline build raises
    [IndexError], which the solver lets through. *)
Theorem solve_safe_withdrawal_rate_degenerate :
  forall (scenario : Scenario.t) (liquidity_events : list LiquidityEvent.t)
         (tolerance : Qc) (max_iterations : Z) (swr_debug : list DebugEntry),
    Scenario.withdrawal_method scenario = PCT_METHOD ->
    ((max_iterations <= 0)%Z ->
     solve_safe_withdrawal_rate scenario liquidity_events tolerance
       max_iterations swr_debug = Ok (Some 0, []))
    /\ ((1 <= max_iterations)%Z ->
        (Scenario.end_age scenario < Scenario.current_age scenario)%Z ->
        solve_safe_withdrawal_rate scenario liquidity_events tolerance
          max_iterations swr_debug = Raise IndexError).
Proof.
  intros scenario liquidity_events tolerance max_iterations swr_debug Hm.
  unfold solve_safe_withdrawal_rate, swr_search.
  rewrite Hm, String.eqb_refl. simpl.
  split.
  - intro H0. rewrite py_range_nil by lia. reflexivity.
  - intros H1 Hlt. rewrite py_range_cons by lia. cbn [swr_loop].
    unfold min_balance_of.
    rewrite build_timeline_raises; [reflexivity|].
    rewrite timeline_rows_gen. simpl.
    rewrite py_range_nil by lia. reflexivity.
Qed.

(** X11, witness: a bound of zero on [last_year_scenario], and a bound of
    one on a plan that ends before it starts. *)
Lemma solve_safe_withdrawal_rate_degenerate_witness :
  solve_safe_withdrawal_rate last_year_scenario [] default_tolerance 0 []
  = Ok (Some 0, [])
  /\ solve_safe_withdrawal_rate
       (Scenario.mk "backwards" 65 65 64 (num 100) 0 "Annual" (num 7) 0
          (num 3) 0 PCT_METHOD (num 4) (num 50000) "Annual" [] false 1000
          false 0 true)
       [] default_tolerance 1 [] = Raise IndexError.
Proof.
  split.
  - apply (solve_safe_withdrawal_rate_degenerate last_year_scenario []
             default_tolerance 0 []); [reflexivity | by_eval].
  - apply (solve_safe_withdrawal_rate_degenerate _ [] default_tolerance 1 []);
      [reflexivity | by_eval | reflexivity].
Defined.

(** ** Where the two simulators agree *)

(** The balance the loop ends with is the end balance of the last row. *)
Lemma run_ages_final_balance (scenario : Scenario.t)
    (liquidity_events : list LiquidityEvent.t)
    (rows : list TimelineRow.t) (m : Metrics) :
  build_timeline scenario liquidity_events = Ok (rows, m) ->
  terminal_nominal m
  = TL.balance_nominal
      (run_ages scenario liquidity_events
         (py_range (Scenario.current_age scenario)
                   (Scenario.end_age scenario + 1))
         (timeline_init scenario)).
Proof.
  intro Hb. apply build_timeline_result in Hb. revert Hb.
  unfold timeline_result.
  generalize (py_range (Scenario.current_age scenario)
                (Scenario.end_age scenario + 1)).
  intro ages.
  destruct (last (map Some _) None) as [last_row|] eqn:L; [|discriminate].
  intro H. inversion H; subst; clear H. simpl.
  destruct (exists_last (l := ages)) as (front & a & ->).
  { intro E. subst. discriminate L. }
  revert L. unfold run_ages.
  rewrite fold_left_app. cbn [fold_left].
  unfold step_at at 1 2. unfold timeline_step. cbn [TL.rows TL.balance_nominal].
  rewrite map_app. cbn [map]. rewrite last_last.
  intro H. now inversion H.
Qed.

Lemma nth_repeat_in_range {A : Type} (a d : A) (m n : nat) :
  (n < m)%nat -> nth n (repeat a m) d = a.
Proof.
  revert n. induction m as [|m IH]; intros n H; [lia|].
  destruct n as [|n]; simpl; [reflexivity | apply IH; lia].
Qed.

Lemma grid_at_constant (v : Qc) (rows cols run_idx year_idx : nat) :
  (run_idx < rows)%nat ->
  (year_idx < cols)%nat ->
  grid_at (repeat (repeat v cols) rows) run_idx year_idx = v.
Proof.
  intros Hr Hc. unfold grid_at.
  rewrite (nth_repeat_in_range (repeat v cols) [] rows run_idx Hr).
  now apply nth_repeat_in_range.
Qed.

(** Under the percentage method with a frequency other than Monthly the
    two simulators withdraw the same amount. *)
Lemma mc_withdrawals_percentage (scenario : Scenario.t) (age : Z)
    (prior cpi cpi' : Qc) :
  Scenario.withdrawal_method scenario = PCT_METHOD ->
  Scenario.withdrawal_frequency scenario <> MONTHLY ->
  mc_withdrawals scenario age prior cpi
  = timeline_withdrawals scenario age prior cpi'.
Proof.
  intros Hm Hf. unfold mc_withdrawals, timeline_withdrawals.
  apply String.eqb_neq in Hf.
  now rewrite Hm, String.eqb_refl, Hf.
Qed.

(** One year of a trial whose drawn return is the mean leaves the trial
    with the balance the deterministic loop is left with. *)
Lemma mc_step_follows_timeline (scenario : Scenario.t)
    (liquidity_events : list LiquidityEvent.t) (returns : list (list Qc))
    (run_idx year_idx : nat) (age : Z) (mst : MC.locals) (st : TL.locals) :
  Scenario.withdrawal_method scenario = PCT_METHOD ->
  Scenario.withdrawal_frequency scenario <> MONTHLY ->
  grid_at returns run_idx year_idx = nominal_return scenario ->
  MC.balance_nominal mst = TL.balance_nominal st ->
  MC.prior_year_end_balance mst = TL.prior_year_end_balance st ->
  let mst' := mc_step scenario liquidity_events returns run_idx mst
                (year_idx, age) in
  let st' := step_at scenario liquidity_events st age in
  MC.balance_nominal mst' = TL.balance_nominal st'
  /\ MC.prior_year_end_balance mst' = TL.prior_year_end_balance st'.
Proof.
  intros Hm Hf Hg Hb Hp. cbv zeta.
  unfold mc_step, step_at, row_at.
  destruct (apply_liquidity_events age liquidity_events) as [[n l] t].
  cbn [MC.balance_nominal MC.prior_year_end_balance TL.balance_nominal
       TL.prior_year_end_balance TimelineRow.end_balance_nominal].
  rewrite Hg, Hb, Hp.
  rewrite (mc_withdrawals_percentage scenario age _ (MC.cpi_index mst)
             (TL.cpi_index st) Hm Hf).
  split; reflexivity.
Qed.

Lemma mc_fold_follows_timeline (scenario : Scenario.t)
    (liquidity_events : list LiquidityEvent.t) (returns : list (list Qc))
    (run_idx : nat) :
  Scenario.withdrawal_method scenario = PCT_METHOD ->
  Scenario.withdrawal_frequency scenario <> MONTHLY ->
  forall ages k mst st,
    (forall y, (k <= y < k + List.length ages)%nat ->
               grid_at returns run_idx y = nominal_return scenario) ->
    MC.balance_nominal mst = TL.balance_nominal st ->
    MC.prior_year_end_balance mst = TL.prior_year_end_balance st ->
    MC.balance_nominal
      (fold_left (mc_step scenario liquidity_events returns run_idx)
         (combine (seq k (List.length ages)) ages) mst)
    = TL.balance_nominal
        (fold_left (step_at scenario liquidity_events) ages st).
Proof.
  intros Hm Hf. induction ages as [|age rest IH]; intros k mst st Hg Hb Hp.
  - exact Hb.
  - cbn [List.length seq combine fold_left].
    destruct (mc_step_follows_timeline scenario liquidity_events returns
                run_idx k age mst st Hm Hf) as [Hb' Hp']; auto.
    { apply Hg. simpl. lia. }
    apply IH; auto.
    intros y Hy. apply Hg. simpl. lia.
Qed.

(** *** Statistics of a constant sample *)

Lemma insert_sorted_constant (v : Qc) (n : nat) :
  insert_sorted v (repeat v n) = v :: repeat v n.
Proof.
  destruct n as [|n]; simpl; [reflexivity|].
  assert (H : Qcleb v v = true) by (apply Qcleb_le, Qcle_refl).
  now rewrite H.
Qed.

Lemma sort_constant (v : Qc) (n : nat) : sort (repeat v n) = repeat v n.
Proof.
  induction n as [|n IH]; simpl; [reflexivity|].
  unfold sort in *. simpl. rewrite IH. apply insert_sorted_constant.
Qed.

Lemma np_median_constant (v : Qc) (n : nat) :
  (1 <= n)%nat -> np_median (repeat v n) = Some v.
Proof.
  intro Hn. unfold np_median.
  destruct (repeat v n) eqn:E; [destruct n; [lia | discriminate]|].
  rewrite <- E, sort_constant, repeat_length.
  assert (Hhalf : (n / 2 < n)%nat) by (apply Nat.div_lt; lia).
  destruct (Nat.even n).
  - rewrite !nth_repeat_in_range by lia.
    f_equal. rewrite num_2. field. discriminate.
  - now rewrite nth_repeat_in_range.
Qed.

Lemma this_num (z : Z) : (this (num z) == inject_Z z)%Q.
Proof. unfold num, Q2Qc. cbn [this]. apply Qred_correct. Qed.

Lemma np_percentile_constant (v q : Qc) (n : nat) :
  (1 <= n)%nat ->
  0 <= q -> q <= num 100 ->
  np_percentile (repeat v n) q = Ok v.
Proof.
  intros Hn Hq0 Hq1. unfold np_percentile.
  destruct (repeat v n) eqn:E; [destruct n; [lia | discriminate]|].
  rewrite <- E. unfold linear_percentile.
  rewrite sort_constant, repeat_length.
  set (vi := num (Z.of_nat (n - 1)) * (q / num 100)).
  assert (Hprev : (Z.to_nat (Qfloor vi) <= n - 1)%nat).
  { assert (Hvi : (this vi <= inject_Z (Z.of_nat (n - 1)))%Q).
    { subst vi. rewrite this_mult, this_div_100, this_num.
      unfold Qcle in Hq0, Hq1.
      change (this 0) with 0%Q in Hq0.
      change (this (num 100)) with 100%Q in Hq1.
      assert (Hk : (0 <= inject_Z (Z.of_nat (n - 1)))%Q).
      { change 0%Q with (inject_Z 0). rewrite <- Zle_Qle. lia. }
      generalize dependent (inject_Z (Z.of_nat (n - 1))).
      generalize dependent (this q).
      intros x Hx0 Hx1 k Hk.
      assert (H : (0 <= k * (1 - x * (1 # 100)))%Q)
        by (apply Qmult_le_0_compat; lra).
      lra. }
    apply Qfloor_resp_le in Hvi. rewrite Qfloor_Z in Hvi. lia. }
  rewrite !nth_repeat_in_range by lia.
  f_equal. ring.
Qed.

Lemma map_constant {A B : Type} (f : A -> B) (c : B) (l : list A) :
  (forall x, In x l -> f x = c) -> map f l = repeat c (List.length l).
Proof.
  induction l as [|x l IH]; intro H; simpl; [reflexivity|].
  rewrite (H x) by (now left). f_equal. apply IH.
  intros y Hy. apply H. now right.
Qed.

(** With at least one trial the statistics are all computed. *)
Lemma np_percentile_returns (l : list Qc) (q : Qc) :
  l <> [] -> exists v, np_percentile l q = Ok v.
Proof. destruct l; [congruence|]. intros _. eexists. reflexivity. Qed.

Lemma np_percentile_axis0_returns (all_paths : list (list Qc)) (q : Qc) :
  all_paths <> [] -> exists v, np_percentile_axis0 all_paths q = Ok v.
Proof. destruct all_paths; [congruence|]. intros _. eexists. reflexivity. Qed.

Lemma mc_aggregate_returns (trials : list MC.locals) :
  trials <> [] ->
  exists p10 p90 l10 l50 l90,
    np_percentile (map MC.balance_nominal trials) (num 10) = Ok p10
    /\ np_percentile (map MC.balance_nominal trials) (num 90) = Ok p90
    /\ np_percentile_axis0 (map MC.path trials) (num 10) = Ok l10
    /\ np_percentile_axis0 (map MC.path trials) (num 50) = Ok l50
    /\ np_percentile_axis0 (map MC.path trials) (num 90) = Ok l90
    /\ mc_aggregate trials
       = Ok (MCResult.mk
               (fraction_nonnegative (map MC.min_balance trials))
               (np_median (map MC.balance_nominal trials))
               (Some p10) (Some p90) (Some l10) (Some l50) (Some l90)).
Proof.
  intro Hne.
  assert (Hmap : forall (A : Type) (f : MC.locals -> A), map f trials <> []).
  { intros A f E. apply map_eq_nil in E. contradiction. }
  destruct (np_percentile_returns _ (num 10) (Hmap _ MC.balance_nominal))
    as [p10 H10].
  destruct (np_percentile_returns _ (num 90) (Hmap _ MC.balance_nominal))
    as [p90 H90].
  destruct (np_percentile_axis0_returns _ (num 10) (Hmap _ MC.path))
    as [l10 G10].
  destruct (np_percentile_axis0_returns _ (num 50) (Hmap _ MC.path))
    as [l50 G50].
  destruct (np_percentile_axis0_returns _ (num 90) (Hmap _ MC.path))
    as [l90 G90].
  exists p10, p90, l10, l50, l90.
  unfold mc_aggregate. rewrite H10, H90, G10, G50, G90.
  repeat (split; [reflexivity|]). reflexivity.
Qed.

Lemma trials_nonempty {A : Type} (f : nat -> A) (runs : Z) :
  (1 <= runs)%Z -> map f (seq 0 (Z.to_nat runs)) <> [].
Proof.
  intros H E. apply map_eq_nil in E.
  apply (f_equal (@List.length nat)) in E. rewrite length_seq in E.
  cbn [List.length] in E. lia.
Qed.

Section Agreement.

Variable rng : Type.
Variable np_random_seed : Z -> rng.
Variable gauss : rng -> Qc * rng.

(** X12. Where the Monte Carlo recurrence does coincide with the
    deterministic one.  For a scenario that uses the percentage method
    with a withdrawal frequency other than Monthly, has
    [return_stdev_pct = 0], [current_age <= end_age] and a price index
    that does not reach zero (over exact arithmetic: inflation off,
    [inflation_pct] other than -100, or fewer than three ages), for at
    least one trial and a seed numpy accepts ([0 <= seed < 2^32]),
    [run_monte_carlo] returns, whatever the generator, a median, a P10
    and a P90 terminal value that all equal the terminal nominal balance
    of [build_timeline]. *)
Theorem run_monte_carlo_zero_volatility_percentage :
  forall (scenario : Scenario.t) (liquidity_events : list LiquidityEvent.t)
         (runs seed : Z) (g : rng),
    Scenario.withdrawal_method scenario = PCT_METHOD ->
    Scenario.withdrawal_frequency scenario <> MONTHLY ->
    Scenario.return_stdev_pct scenario = 0 ->
    (Scenario.current_age scenario <= Scenario.end_age scenario)%Z ->
    index_hits_zero scenario = false ->
    (1 <= runs)%Z ->
    (0 <= seed < 2 ^ 32)%Z ->
    exists mc rows m,
      fst (run_monte_carlo rng np_random_seed gauss scenario
             liquidity_events runs seed g) = Ok mc
      /\ build_timeline scenario liquidity_events = Ok (rows, m)
      /\ MCResult.median_terminal mc = Some (terminal_nominal m)
      /\ MCResult.p10_terminal mc = Some (terminal_nominal m)
      /\ MCResult.p90_terminal mc = Some (terminal_nominal m).
Proof.
  intros scenario liquidity_events runs seed g Hm Hf Hs Hle Hz Hruns _.
  destruct (build_timeline_returns scenario liquidity_events Hz
              (timeline_rows_nonempty scenario liquidity_events Hle))
    as [m Hb].
  pose proof (run_monte_carlo_zero_stdev rng np_random_seed gauss scenario
                liquidity_events runs seed g Hs ltac:(lia) ltac:(lia))
    as Hrun.
  set (cols := Z.to_nat (Scenario.end_age scenario
                         - Scenario.current_age scenario + 1)) in *.
  set (returns := repeat (repeat (Scenario.nominal_return_pct scenario
                                  / num 100) cols) (Z.to_nat runs)) in *.
  assert (Hterm :
            map MC.balance_nominal
              (map (mc_trial scenario liquidity_events returns)
                   (seq 0 (Z.to_nat runs)))
            = repeat (terminal_nominal m) (Z.to_nat runs)).
  { rewrite map_map.
    rewrite (map_constant _ (terminal_nominal m)).
    - now rewrite length_seq.
    - intros run_idx Hin. apply in_seq in Hin.
      rewrite (run_ages_final_balance _ _ _ _ Hb).
      unfold mc_trial, enumerate, run_ages.
      apply mc_fold_follows_timeline; auto.
      intros y Hy. rewrite py_range_length in Hy.
      subst returns. apply grid_at_constant; [lia|].
      subst cols. lia. }
  destruct (mc_aggregate_returns
              (map (mc_trial scenario liquidity_events returns)
                 (seq 0 (Z.to_nat runs)))
              (trials_nonempty _ runs Hruns))
    as (p10 & p90 & l10 & l50 & l90 & H10 & H90 & _ & _ & _ & Hagg).
  rewrite Hterm in H10, H90, Hagg.
  rewrite np_percentile_constant in H10, H90 by (try lia; by_eval).
  rewrite np_median_constant in Hagg by lia.
  injection H10 as <-. injection H90 as <-.
  eexists. exists (timeline_rows scenario liquidity_events), m.
  split; [rewrite Hrun; exact Hagg|].
  split; [exact Hb|].
  cbn [MCResult.median_terminal MCResult.p10_terminal MCResult.p90_terminal].
  split; [reflexivity|]. split; reflexivity.
Qed.

End Agreement.

(** X12, witness: [last_year_scenario] run for three trials with a
    generator that always draws 5. *)
Lemma run_monte_carlo_zero_volatility_percentage_witness :
  exists mc rows m,
    fst (run_monte_carlo unit (fun _ => tt) (fun g => (num 5, g))
           last_year_scenario [] 3 42 tt) = Ok mc
    /\ build_timeline last_year_scenario [] = Ok (rows, m)
    /\ MCResult.median_terminal mc = Some (terminal_nominal m).
Proof.
  destruct (run_monte_carlo_zero_volatility_percentage
              unit (fun _ => tt) (fun g => (num 5, g))
              last_year_scenario [] 3 42 tt)
    as (mc & rows & m & Hmc & Hb & Hmed & _).
  - reflexivity.
  - intro H. discriminate H.
  - reflexivity.
  - by_eval.
  - reflexivity.
  - by_eval.
  - split; [by_eval | reflexivity].
  - exists mc, rows, m. repeat split; assumption.
Defined.

(** ** The independent check agrees with the engine *)

(** One simulated year of [test_swr.py] is one retirement year of
    [build_timeline] without events and taxes. *)
Lemma simulate_step_follows_timeline (scenario : Scenario.t)
    (sst : Sim.locals) (st : TL.locals) (year age : Z) :
  Scenario.withdrawal_method scenario = PCT_METHOD ->
  Scenario.enable_taxes scenario = false ->
  (Scenario.retirement_age scenario <= age)%Z ->
  Sim.balance sst = TL.balance_nominal st ->
  Sim.prior_year_balance sst = TL.prior_year_end_balance st ->
  simulate_step (Scenario.withdrawal_pct scenario / num 100)
    (nominal_return scenario) (fee_rate scenario) sst year
  = Sim.mk
      (TimelineRow.end_balance_nominal (row_at scenario [] st age))
      (if Qcltb (TimelineRow.end_balance_nominal
                   (row_at scenario [] st age))
                (Sim.min_balance sst)
       then TimelineRow.end_balance_nominal (row_at scenario [] st age)
       else Sim.min_balance sst)
      (TimelineRow.end_balance_nominal (row_at scenario [] st age)).
Proof.
  intros Hm Ht Hage Hb Hp.
  assert (He : Sim.prior_year_balance sst
               * (Scenario.withdrawal_pct scenario / num 100)
               = TimelineRow.withdrawals (row_at scenario [] st age)).
  { destruct (row_at_fields scenario [] st age)
      as (_ & _ & _ & _ & Hw & _).
    rewrite Hw, (timeline_withdrawals_pct scenario age _ _ Hm Hage).
    now rewrite Hp. }
  assert (Hend : TimelineRow.end_balance_nominal
                   (row_at scenario [] st age)
                 = (Sim.balance sst
                    - Sim.prior_year_balance sst
                      * (Scenario.withdrawal_pct scenario / num 100)
                    - Sim.balance sst * fee_rate scenario)
                   + (Sim.balance sst
                      - Sim.prior_year_balance sst
                        * (Scenario.withdrawal_pct scenario / num 100)
                      - Sim.balance sst * fee_rate scenario)
                     * nominal_return scenario).
  { destruct (row_at_fields scenario [] st age)
      as (_ & Hs & Hc & Hl & _ & Hf & Htax & Hg & Hen & _).
    rewrite Hen, Hg. unfold pre_growth.
    rewrite Hs, Hc, Hl, Hf, Htax, <- He, Ht, Hb.
    unfold contributions_at.
    destruct (Z.ltb_spec age (Scenario.retirement_age scenario)); [lia|].
    change (net_of (apply_liquidity_events age [])) with 0.
    change (taxes_of (apply_liquidity_events age [])) with 0.
    ring. }
  unfold simulate_step. rewrite <- Hend. reflexivity.
Qed.

Lemma fold_left_step {A B : Type} (f : A -> B -> A) (b : B) (l : list B)
    (a : A) :
  fold_left f (b :: l) a = fold_left f l (f a b).
Proof. reflexivity. Qed.

Lemma timeline_gen_step (scenario : Scenario.t)
    (liquidity_events : list LiquidityEvent.t) (age : Z) (rest : list Z)
    (st : TL.locals) :
  timeline_gen scenario liquidity_events (age :: rest) st
  = row_at scenario liquidity_events st age
    :: timeline_gen scenario liquidity_events rest
         (step_at scenario liquidity_events st age).
Proof. reflexivity. Qed.

Lemma step_at_prior (scenario : Scenario.t)
    (liquidity_events : list LiquidityEvent.t) (st : TL.locals) (age : Z) :
  TL.prior_year_end_balance (step_at scenario liquidity_events st age)
  = TimelineRow.end_balance_nominal
      (row_at scenario liquidity_events st age).
Proof. reflexivity. Qed.

Lemma sim_balance_mk (a b c : Qc) : Sim.balance (Sim.mk a b c) = a.
Proof. reflexivity. Qed.

Lemma sim_min_mk (a b c : Qc) : Sim.min_balance (Sim.mk a b c) = b.
Proof. reflexivity. Qed.

Lemma sim_prior_mk (a b c : Qc) : Sim.prior_year_balance (Sim.mk a b c) = c.
Proof. reflexivity. Qed.

Lemma simulate_fold_follows_timeline (scenario : Scenario.t) :
  Scenario.withdrawal_method scenario = PCT_METHOD ->
  Scenario.enable_taxes scenario = false ->
  forall ages years sst st,
    List.length years = List.length ages ->
    (forall a, In a ages -> (Scenario.retirement_age scenario <= a)%Z) ->
    Sim.balance sst = TL.balance_nominal st ->
    Sim.prior_year_balance sst = TL.prior_year_end_balance st ->
    Sim.balance
      (fold_left (simulate_step (Scenario.withdrawal_pct scenario / num 100)
                    (nominal_return scenario) (fee_rate scenario))
         years sst)
    = TL.balance_nominal (fold_left (step_at scenario []) ages st)
    /\ Sim.min_balance
         (fold_left (simulate_step (Scenario.withdrawal_pct scenario / num 100)
                       (nominal_return scenario) (fee_rate scenario))
            years sst)
       = fold_left (fun m y => if Qcltb y m then y else m)
           (map TimelineRow.end_balance_nominal
              (timeline_gen scenario [] ages st))
           (Sim.min_balance sst).
Proof.
  intros Hm Ht. induction ages as [|age rest IH];
    intros years sst st Hlen Hret Hb Hp; destruct years as [|year years];
    try discriminate Hlen.
  - split; [exact Hb | reflexivity].
  - rewrite !fold_left_step, timeline_gen_step, map_cons, fold_left_step.
    rewrite (simulate_step_follows_timeline scenario sst st year age
               Hm Ht (Hret age (or_introl eq_refl)) Hb Hp).
    assert (Hlen' : List.length years = List.length rest)
      by (cbn [List.length] in Hlen; lia).
    assert (Hret' : forall a, In a rest ->
                              (Scenario.retirement_age scenario <= a)%Z)
      by (intros a Ha; apply Hret; now right).
    match goal with
    | |- context [fold_left _ years ?s] =>
        assert (H1 : Sim.balance s
                     = TL.balance_nominal (step_at scenario [] st age))
          by (rewrite step_at_balance; apply sim_balance_mk);
        assert (H2 : Sim.prior_year_balance s
                     = TL.prior_year_end_balance
                         (step_at scenario [] st age))
          by (rewrite step_at_prior; apply sim_prior_mk);
        destruct (IH years s (step_at scenario [] st age)
                    Hlen' Hret' H1 H2) as [A B]
    end.
    rewrite sim_min_mk in B.
    split; [exact A | exact B].
Qed.

Lemma simulate_portfolio_follows_timeline (scenario : Scenario.t)
    (inflation_rate : Qc) (rows : list TimelineRow.t) (m : Metrics) :
  build_timeline scenario [] = Ok (rows, m) ->
  (Scenario.retirement_age scenario <= Scenario.current_age scenario)%Z ->
  Scenario.withdrawal_method scenario = PCT_METHOD ->
  Scenario.enable_taxes scenario = false ->
  simulate_portfolio (Scenario.current_balance scenario)
    (Scenario.end_age scenario - Scenario.current_age scenario + 1)
    (Scenario.withdrawal_pct scenario / num 100)
    (Scenario.nominal_return_pct scenario / num 100)
    (Scenario.fee_pct scenario / num 100) inflation_rate
  = (terminal_nominal m,
     series_min (Scenario.current_balance scenario
                 :: map TimelineRow.end_balance_nominal rows)).
Proof.
  intros Hb Hret Hm Ht.
  rewrite (run_ages_final_balance _ _ _ _ Hb).
  apply build_timeline_rows in Hb. destruct Hb as [-> _].
  rewrite timeline_rows_gen.
  unfold simulate_portfolio, run_ages.
  destruct (simulate_fold_follows_timeline scenario Hm Ht
              (py_range (Scenario.current_age scenario)
                        (Scenario.end_age scenario + 1))
              (py_range 0 (Scenario.end_age scenario
                           - Scenario.current_age scenario + 1))
              (Sim.mk (Scenario.current_balance scenario)
                      (Scenario.current_balance scenario)
                      (Scenario.current_balance scenario))
              (timeline_init scenario))
    as [Hbal Hmin]; try reflexivity.
  - rewrite !py_range_length. f_equal. lia.
  - intros a Ha. apply py_range_lower in Ha. lia.
  - unfold nominal_return, fee_rate in Hbal, Hmin.
    rewrite Hbal, Hmin. reflexivity.
Qed.

(** X13. [simulate_portfolio] of [test_swr.py] computes what
    [build_timeline] computes for an already retired investor: on a
    percentage-method scenario with [retirement_age <= current_age],
    taxes off and no cash flow from events, called with the starting
    balance, [end_age - current_age + 1] years and the three percentages
    divided by 100, it returns the terminal nominal balance of the
    timeline and the minimum over the starting balance and the rows'
    nominal end balances; its [inflation_rate] argument has no effect. *)
Theorem simulate_portfolio_matches_build_timeline :
  forall (scenario : Scenario.t) (liquidity_events : list LiquidityEvent.t)
         (inflation_rate : Qc) (rows : list TimelineRow.t) (m : Metrics),
    build_timeline scenario liquidity_events = Ok (rows, m) ->
    (Scenario.retirement_age scenario <= Scenario.current_age scenario)%Z ->
    Scenario.withdrawal_method scenario = PCT_METHOD ->
    Scenario.enable_taxes scenario = false ->
    same_cash_flows liquidity_events [] ->
    simulate_portfolio (Scenario.current_balance scenario)
      (Scenario.end_age scenario - Scenario.current_age scenario + 1)
      (Scenario.withdrawal_pct scenario / num 100)
      (Scenario.nominal_return_pct scenario / num 100)
      (Scenario.fee_pct scenario / num 100) inflation_rate
    = (terminal_nominal m,
       series_min (Scenario.current_balance scenario
                   :: map TimelineRow.end_balance_nominal rows)).
Proof.
  intros scenario liquidity_events inflation_rate rows m Hb Hret Hm Ht Hno.
  rewrite (build_timeline_same_flows scenario _ _ Hno) in Hb.
  now apply simulate_portfolio_follows_timeline.
Qed.

(** X13, witness: [last_year_scenario] with the pension switched off. *)
Lemma simulate_portfolio_matches_build_timeline_witness :
  exists rows m,
    build_timeline last_year_scenario [pension_disabled] = Ok (rows, m)
    /\ simulate_portfolio (num 100) 1 (num 4 / num 100) (num 7 / num 100)
         (0 / num 100) (num 3)
       = (terminal_nominal m,
          series_min (num 100 :: map TimelineRow.end_balance_nominal rows)).
Proof.
  eassert (Hb : build_timeline last_year_scenario [pension_disabled]
                = Ok (_, _)) by (vm_compute; reflexivity).
  do 2 eexists. split; [exact Hb|].
  apply (simulate_portfolio_matches_build_timeline last_year_scenario
           [pension_disabled] (num 3) _ _ Hb).
  - by_eval.
  - reflexivity.
  - reflexivity.
  - apply (same_cash_flows_disabled [] [] pension_disabled). reflexivity.
Defined.

Lemma swr_loop_cons (scenario : Scenario.t)
    (liquidity_events : list LiquidityEvent.t) (tolerance : Qc)
    (iteration : Z) (rest : list Z) (st : SWR.locals) :
  swr_loop scenario liquidity_events tolerance (iteration :: rest) st
  = match min_balance_of
            (Scenario.with_withdrawal_pct scenario
               ((SWR.low st + SWR.high st) / num 2))
            liquidity_events
    with
    | Raise e => Raise e
    | Ok mb =>
        if Qcltb (SWR.high (swr_next st iteration
                              ((SWR.low st + SWR.high st) / num 2) mb)
                  - SWR.low (swr_next st iteration
                               ((SWR.low st + SWR.high st) / num 2) mb))
                 tolerance
        then Ok (swr_next st iteration
                   ((SWR.low st + SWR.high st) / num 2) mb)
        else swr_loop scenario liquidity_events tolerance rest
               (swr_next st iteration
                  ((SWR.low st + SWR.high st) / num 2) mb)
    end.
Proof. reflexivity. Qed.

Lemma find_loop_cons (initial_balance : Qc) (years : Z)
    (return_rate fee_rate tolerance : Qc) (iteration : Z) (rest : list Z)
    (st : Find.locals) :
  find_loop initial_balance years return_rate fee_rate tolerance
    (iteration :: rest) st
  = (let mid := (Find.low st + Find.high st) / num 2 in
     let mb := snd (simulate_portfolio initial_balance years mid
                      return_rate fee_rate 0) in
     if Qcltb (Find.high (find_next st mid mb) - Find.low (find_next st mid mb))
              tolerance
     then find_next st mid mb
     else find_loop initial_balance years return_rate fee_rate tolerance
            rest (find_next st mid mb)).
Proof.
  cbn [find_loop]. cbv zeta.
  destruct (simulate_portfolio _ _ _ _ _ _) as [final_balance min_balance].
  reflexivity.
Qed.

Lemma series_min_with_start (x : Qc) (l : list Qc) :
  0 <= x -> l <> [] ->
  Qcleb 0 (series_min (x :: l)) = Qcleb 0 (series_min l).
Proof.
  intros Hx Hl.
  destruct (series_min_spec (x :: l) ltac:(discriminate)) as [Hin1 Hle1].
  destruct (series_min_spec l Hl) as [Hin2 Hle2].
  destruct (Qcleb 0 (series_min l)) eqn:E.
  - apply Qcleb_le in E. apply Qcleb_le.
    destruct Hin1 as [<- | Hin1]; [exact Hx|].
    eapply Qcle_trans; [exact E | now apply Hle2].
  - apply Qcleb_false_lt in E. apply Qcleb_false_lt.
    eapply Qcle_lt_trans; [|exact E].
    apply Hle1. now right.
Qed.

Lemma half_scaled (low high : Qc) :
  (low / num 100 + high / num 100) / num 2 = (low + high) / num 2 / num 100.
Proof. apply Qc_is_canon. to_Q. field. Qed.

Lemma width_scaled (low high tolerance : Qc) :
  Qcltb (high / num 100 - low / num 100) (tolerance / num 100)
  = Qcltb (high - low) tolerance.
Proof.
  destruct (Qcltb (high - low) tolerance) eqn:E.
  - apply Qcltb_lt in E. apply Qcltb_lt. to_Q. lra.
  - apply Qcltb_false_le in E. apply Qcltb_false_le. to_Q. lra.
Qed.

Lemma same_search_next (st : SWR.locals) (ft : Find.locals)
    (iteration : Z) (mid mb mb' : Qc) :
  same_search st ft ->
  Qcleb 0 mb' = Qcleb 0 mb ->
  same_search (swr_next st iteration mid mb)
    (find_next ft (mid / num 100) mb').
Proof.
  intros (Hl & Hh & Hb) Hs. unfold swr_next, find_next. rewrite Hs.
  destruct (Qcleb 0 mb); unfold same_search; simpl; auto.
Qed.

(** The two searches take the same decisions, iteration by iteration. *)
Lemma find_loop_follows_solver (scenario : Scenario.t) (tolerance : Qc) :
  Scenario.withdrawal_method scenario = PCT_METHOD ->
  (Scenario.retirement_age scenario <= Scenario.current_age scenario)%Z ->
  (Scenario.current_age scenario <= Scenario.end_age scenario)%Z ->
  index_hits_zero scenario = false ->
  Scenario.enable_taxes scenario = false ->
  0 <= Scenario.current_balance scenario ->
  forall iterations st ft,
    same_search st ft ->
    exists st',
      swr_loop scenario [] tolerance iterations st = Ok st'
      /\ same_search st'
           (find_loop (Scenario.current_balance scenario)
              (Scenario.end_age scenario - Scenario.current_age scenario + 1)
              (Scenario.nominal_return_pct scenario / num 100)
              (Scenario.fee_pct scenario / num 100)
              (tolerance / num 100) iterations ft).
Proof.
  intros Hm Hret Hle Hz Ht Hb.
  induction iterations as [|iteration rest IH]; intros st ft Hsame.
  - exists st. split; [reflexivity | exact Hsame].
  - rewrite swr_loop_cons, find_loop_cons. cbv zeta.
    set (mid := (SWR.low st + SWR.high st) / num 2).
    assert (Hmid : (Find.low ft + Find.high ft) / num 2 = mid / num 100).
    { destruct Hsame as (-> & -> & _). apply half_scaled. }
    rewrite Hmid.
    destruct (build_timeline_returns
                (Scenario.with_withdrawal_pct scenario mid) [] Hz
                (timeline_rows_nonempty
                   (Scenario.with_withdrawal_pct scenario mid) [] Hle))
      as [m Hbuild].
    pose proof (simulate_portfolio_follows_timeline
                  (Scenario.with_withdrawal_pct scenario mid) 0 _ m
                  Hbuild Hret Hm Ht) as Hsim.
    change (Scenario.current_balance
              (Scenario.with_withdrawal_pct scenario mid))
      with (Scenario.current_balance scenario) in Hsim.
    change (Scenario.end_age (Scenario.with_withdrawal_pct scenario mid))
      with (Scenario.end_age scenario) in Hsim.
    change (Scenario.current_age (Scenario.with_withdrawal_pct scenario mid))
      with (Scenario.current_age scenario) in Hsim.
    change (Scenario.withdrawal_pct
              (Scenario.with_withdrawal_pct scenario mid))
      with mid in Hsim.
    change (Scenario.nominal_return_pct
              (Scenario.with_withdrawal_pct scenario mid))
      with (Scenario.nominal_return_pct scenario) in Hsim.
    change (Scenario.fee_pct (Scenario.with_withdrawal_pct scenario mid))
      with (Scenario.fee_pct scenario) in Hsim.
    rewrite Hsim. cbn [snd].
    unfold min_balance_of. rewrite Hbuild.
    set (ends := map TimelineRow.end_balance_nominal
                   (timeline_rows (Scenario.with_withdrawal_pct scenario mid)
                      [])).
    assert (Hends : ends <> []).
    { subst ends. intro E. apply map_eq_nil in E.
      exact (timeline_rows_nonempty
               (Scenario.with_withdrawal_pct scenario mid) [] Hle E). }
    pose proof (same_search_next st ft iteration mid (series_min ends)
                  (series_min (Scenario.current_balance scenario :: ends))
                  Hsame
                  (series_min_with_start _ _ Hb Hends)) as Hnext.
    set (st1 := swr_next st iteration mid (series_min ends)) in *.
    set (ft1 := find_next ft (mid / num 100)
                  (series_min (Scenario.current_balance scenario :: ends)))
      in *.
    assert (Hstop : Qcltb (Find.high ft1 - Find.low ft1) (tolerance / num 100)
                    = Qcltb (SWR.high st1 - SWR.low st1) tolerance).
    { destruct Hnext as (-> & -> & _). apply width_scaled. }
    rewrite Hstop.
    destruct (Qcltb (SWR.high st1 - SWR.low st1) tolerance).
    + exists st1. split; [reflexivity | exact Hnext].
    + exact (IH st1 ft1 Hnext).
Qed.

(** X14. Over exact arithmetic, the search of [test_swr.py] and the
    solver of the app find the same rate.  On a percentage-method
    scenario with [retirement_age <= current_age <= end_age], a price
    index that does not reach zero, taxes off, no cash flow from events
    and a non-negative starting balance, the rate
    [solve_safe_withdrawal_rate] returns, divided by 100, is the rate
    [find_safe_withdrawal_rate] returns when called with the starting
    balance, [end_age - current_age + 1] years, the return and fee
    percentages divided by 100 and a hundredth of the tolerance.  (The
    two programs work on percentages and on fractions, so in binary64
    the two stopping tests can round to different sides.) *)
Theorem find_safe_withdrawal_rate_matches_solver :
  forall (scenario : Scenario.t) (liquidity_events : list LiquidityEvent.t)
         (tolerance : Qc) (max_iterations : Z) (swr_debug : list DebugEntry),
    Scenario.withdrawal_method scenario = PCT_METHOD ->
    (Scenario.retirement_age scenario <= Scenario.current_age scenario)%Z ->
    (Scenario.current_age scenario <= Scenario.end_age scenario)%Z ->
    index_hits_zero scenario = false ->
    Scenario.enable_taxes scenario = false ->
    same_cash_flows liquidity_events [] ->
    0 <= Scenario.current_balance scenario ->
    exists r log,
      solve_safe_withdrawal_rate scenario liquidity_events tolerance
        max_iterations swr_debug = Ok (Some r, log)
      /\ find_safe_withdrawal_rate (Scenario.current_balance scenario)
           (Scenario.end_age scenario - Scenario.current_age scenario + 1)
           (Scenario.nominal_return_pct scenario / num 100)
           (Scenario.fee_pct scenario / num 100)
           (tolerance / num 100) max_iterations
         = r / num 100.
Proof.
  intros scenario liquidity_events tolerance max_iterations swr_debug
    Hm Hret Hle Hz Ht Hno Hb.
  destruct (find_loop_follows_solver scenario tolerance Hm Hret Hle Hz Ht Hb
              (py_range 0 max_iterations) swr_init
              (Find.mk 0 (Q2Qc (20 # 100)) 0))
    as (st & Hrun & _ & _ & Hbest).
  { unfold same_search, swr_init. simpl.
    repeat split; apply Qc_is_canon; reflexivity. }
  exists (SWR.best_rate st), (SWR.debug_info st).
  split.
  - unfold solve_safe_withdrawal_rate, swr_search.
    rewrite Hm, String.eqb_refl. cbn [negb].
    rewrite (swr_loop_same_flows scenario _ _ tolerance Hno), Hrun.
    reflexivity.
  - unfold find_safe_withdrawal_rate. exact Hbest.
Qed.

(** X14, witness: [last_year_scenario] with the default arguments of both
    programs (tolerances 0.01 and 0.0001). *)
Lemma find_safe_withdrawal_rate_matches_solver_witness :
  exists r log,
    solve_safe_withdrawal_rate last_year_scenario [] default_tolerance
      default_max_iterations [] = Ok (Some r, log)
    /\ find_safe_withdrawal_rate (num 100) 1 (num 7 / num 100)
         (0 / num 100) (default_tolerance / num 100) default_max_iterations
       = r / num 100.
Proof.
  apply (find_safe_withdrawal_rate_matches_solver last_year_scenario []
           default_tolerance default_max_iterations []).
  - reflexivity.
  - by_eval.
  - by_eval.
  - reflexivity.
  - reflexivity.
  - intro age. split; reflexivity.
  - by_eval.
Defined.

(** ** The tax summary adds up *)

Lemma positive_times_12 (a : Qc) : Qcltb 0 (a * num 12) = Qcltb 0 a.
Proof.
  destruct (Qcltb 0 a) eqn:E.
  - apply Qcltb_lt in E. apply Qcltb_lt. to_Q.
    change (this (num 12)) with 12%Q. lra.
  - apply Qcltb_false_le in E. apply Qcltb_false_le. to_Q.
    change (this (num 12)) with 12%Q. lra.
Qed.

(** For an enabled event the summary adds what the aggregator adds. *)
Lemma breakdown_event_delta (age : Z) (total : Qc)
    (event : LiquidityEvent.t) :
  LiquidityEvent.enabled event = true ->
  breakdown_event age total event
  = total + taxes_of (event_delta age event).
Proof.
  intro He. rewrite event_delta_cases, He.
  unfold breakdown_event, annualized.
  destruct (LiquidityEvent.start_age event <=? age)%Z;
    cbn [andb]; [|unfold taxes_of; cbn [snd]; ring].
  destruct (age <=? LiquidityEvent.end_age event)%Z;
    cbn [andb]; [|unfold taxes_of; cbn [snd]; ring].
  destruct (LiquidityEvent.recurrence event =? ONE_TIME)%string eqn:R.
  - apply String.eqb_eq in R. rewrite R.
    change (ONE_TIME =? MONTHLY)%string with false.
    cbn [negb orb].
    destruct (LiquidityEvent.taxable event),
             (age =? LiquidityEvent.start_age event)%Z,
             (Qcltb 0 (LiquidityEvent.amount event));
      cbn [andb]; unfold taxes_of; cbn [snd]; ring.
  - cbn [negb orb].
    destruct (LiquidityEvent.recurrence event =? MONTHLY)%string.
    + rewrite positive_times_12.
      destruct (LiquidityEvent.taxable event),
               (Qcltb 0 (LiquidityEvent.amount event));
        cbn [andb]; unfold taxes_of; cbn [snd]; ring.
    + destruct (LiquidityEvent.taxable event),
               (Qcltb 0 (LiquidityEvent.amount event));
        cbn [andb]; unfold taxes_of; cbn [snd]; ring.
Qed.

Lemma breakdown_events_fold (age : Z) (events : list LiquidityEvent.t) :
  (forall e, In e events -> LiquidityEvent.enabled e = true) ->
  forall total,
    fold_left (breakdown_event age) events total
    = total + taxes_of (apply_liquidity_events age events).
Proof.
  induction events as [|e rest IH]; intros Hen total.
  - cbn [fold_left]. change (taxes_of (apply_liquidity_events age [])) with 0.
    ring.
  - rewrite fold_left_step, apply_liquidity_events_cons.
    rewrite IH by (intros e' He'; apply Hen; now right).
    rewrite breakdown_event_delta by (apply Hen; now left).
    unfold acc_add, taxes_of. cbn [snd]. ring.
Qed.

Lemma breakdown_rows_fold (scenario : Scenario.t)
    (liquidity_events : list LiquidityEvent.t) :
  Scenario.enable_taxes scenario
  = Qcltb 0 (Scenario.effective_tax_rate_pct scenario) ->
  (forall e, In e liquidity_events -> LiquidityEvent.enabled e = true) ->
  forall rows,
    (forall row, In row rows ->
                 0 <= TimelineRow.withdrawals row
                 /\ TimelineRow.taxes row
                    = taxes_of (apply_liquidity_events (TimelineRow.age row)
                                  liquidity_events)
                      + (if Scenario.enable_taxes scenario
                         then TimelineRow.withdrawals row
                              * (Scenario.effective_tax_rate_pct scenario
                                 / num 100)
                         else 0)) ->
    forall w e s,
      w + e = s ->
      fst (fold_left (breakdown_row (Scenario.effective_tax_rate_pct scenario)
                        liquidity_events) rows (w, e))
      + snd (fold_left (breakdown_row
                          (Scenario.effective_tax_rate_pct scenario)
                          liquidity_events) rows (w, e))
      = fold_left Qcplus (map TimelineRow.taxes rows) s.
Proof.
  intros Hflag Hen. induction rows as [|row rest IH]; intros Hrows w e s Hs.
  - exact Hs.
  - rewrite map_cons, !fold_left_step.
    destruct (Hrows row (or_introl eq_refl)) as [Hw Htax].
    unfold breakdown_row at 2 4.
    rewrite breakdown_events_fold by exact Hen.
    apply IH; [intros r Hr; apply Hrows; now right|].
    rewrite Htax, <- Hs, Hflag.
    destruct (Qcltb 0 (Scenario.effective_tax_rate_pct scenario));
      [|rewrite andb_false_r; ring].
    rewrite andb_true_r.
    destruct (Qcltb 0 (TimelineRow.withdrawals row)) eqn:P; [ring|].
    apply Qcltb_false_le in P.
    rewrite (Qcle_antisym _ _ P Hw). ring.
Qed.

(** X15. The lifetime tax summary adds up, over exact arithmetic.  When
    the timeline is the one [build_timeline] returns for the scenario and
    events, taxes are enabled exactly when the withdrawal tax rate is
    positive (as the sidebar sets the flag), every event is enabled and
    no row has a negative withdrawal, the two categories the dashboard
    reports (withdrawal taxes and event taxes) sum to the total of the
    timeline's taxes column.  (In binary64 the two totals are summed in
    different orders and agree only up to rounding.) *)
Theorem tax_breakdown_adds_up :
  forall (scenario : Scenario.t) (liquidity_events : list LiquidityEvent.t)
         (rows : list TimelineRow.t) (m : Metrics),
    build_timeline scenario liquidity_events = Ok (rows, m) ->
    Scenario.enable_taxes scenario
    = Qcltb 0 (Scenario.effective_tax_rate_pct scenario) ->
    (forall e, In e liquidity_events -> LiquidityEvent.enabled e = true) ->
    (forall row, In row rows -> 0 <= TimelineRow.withdrawals row) ->
    fst (tax_breakdown rows liquidity_events
           (Scenario.effective_tax_rate_pct scenario))
    + snd (tax_breakdown rows liquidity_events
             (Scenario.effective_tax_rate_pct scenario))
    = taxes_total rows.
Proof.
  intros scenario liquidity_events rows m Hb Hflag Hen Hw.
  unfold tax_breakdown, taxes_total.
  apply (breakdown_rows_fold scenario liquidity_events Hflag Hen);
    [|ring].
  intros row Hin. split; [now apply Hw|].
  apply build_timeline_rows in Hb. destruct Hb as [-> _].
  rewrite timeline_rows_gen in Hin.
  assert (F : Forall
                (fun row =>
                   TimelineRow.taxes row
                   = taxes_of (apply_liquidity_events (TimelineRow.age row)
                                 liquidity_events)
                     + (if Scenario.enable_taxes scenario
                        then TimelineRow.withdrawals row
                             * (Scenario.effective_tax_rate_pct scenario
                                / num 100)
                        else 0))
                (timeline_gen scenario liquidity_events
                   (py_range (Scenario.current_age scenario)
                             (Scenario.end_age scenario + 1))
                   (timeline_init scenario))).
  { apply timeline_gen_Forall. intros st age.
    destruct (row_at_fields scenario liquidity_events st age)
      as (Ha & _ & _ & _ & _ & _ & Ht & _).
    rewrite Ha, Ht. unfold tax_rate.
    destruct (Scenario.enable_taxes scenario); ring. }
  rewrite Forall_forall in F. exact (F row Hin).
Qed.

(** X15, witness: [taxed_scenario] with the taxable pension. *)
Lemma tax_breakdown_adds_up_witness :
  exists rows m,
    build_timeline taxed_scenario [pension] = Ok (rows, m)
    /\ fst (tax_breakdown rows [pension] (num 20))
       + snd (tax_breakdown rows [pension] (num 20))
       = taxes_total rows.
Proof.
  eassert (Hb : build_timeline taxed_scenario [pension] = Ok (_, _))
    by (vm_compute; reflexivity).
  do 2 eexists. split; [exact Hb|].
  apply (tax_breakdown_adds_up taxed_scenario [pension] _ _ Hb).
  - reflexivity.
  - intros e [<- | []]. reflexivity.
  - intros row [<- | [<- | []]]; by_eval.
Defined.

(** ** Loading and saving events *)

Lemma event_step_from_dict (age : Z) (acc : Qc * list string * Qc)
    (data : LiquidityEvent.t) :
  event_step age acc (event_from_dict data) = event_step age acc data.
Proof. reflexivity. Qed.

(** X16. [LiquidityEvent.from_dict] on a full dictionary: relabelling is
    idempotent; an event already tagged Credit or Debit comes back
    unchanged; the type afterwards is the old type, Credit or Debit; and
    loading the events through [from_dict] changes nothing of what
    [apply_liquidity_events] returns, at any age. *)
Theorem event_from_dict_relabel :
  forall data : LiquidityEvent.t,
    event_from_dict (event_from_dict data) = event_from_dict data
    /\ (LiquidityEvent.type data = "Credit"%string
        \/ LiquidityEvent.type data = "Debit"%string ->
        event_from_dict data = data)
    /\ (LiquidityEvent.type (event_from_dict data) = LiquidityEvent.type data
        \/ LiquidityEvent.type (event_from_dict data) = "Credit"%string
        \/ LiquidityEvent.type (event_from_dict data) = "Debit"%string)
    /\ (forall age events,
           apply_liquidity_events age (map event_from_dict events)
           = apply_liquidity_events age events).
Proof.
  intro data. destruct data as [t l s e a r en tx tr].
  split; [|split; [|split]].
  - unfold event_from_dict. cbn [LiquidityEvent.type LiquidityEvent.label
      LiquidityEvent.start_age LiquidityEvent.end_age LiquidityEvent.amount
      LiquidityEvent.recurrence LiquidityEvent.enabled LiquidityEvent.taxable
      LiquidityEvent.tax_rate].
    destruct (contains "inflow" (lower t)) eqn:E1; [reflexivity|].
    destruct (contains "outflow" (lower t)) eqn:E2; [reflexivity|].
    now rewrite E1, E2.
  - cbn [LiquidityEvent.type]. intros [-> | ->]; reflexivity.
  - unfold event_from_dict. cbn [LiquidityEvent.type].
    destruct (contains "inflow" (lower t)); [right; left; reflexivity|].
    destruct (contains "outflow" (lower t));
      [right; right; reflexivity | left; reflexivity].
  - intros age events. unfold apply_liquidity_events.
    generalize (0, @nil string, 0).
    induction events as [|ev rest IH]; intro acc; [reflexivity|].
    rewrite map_cons, !fold_left_step, event_step_from_dict. apply IH.
Qed.

(** X16, witness: an event tagged Credit is returned as it is. *)
Lemma event_from_dict_relabel_witness : event_from_dict pension = pension.
Proof.
  apply (event_from_dict_relabel pension). left. reflexivity.
Defined.

Lemma py_abs_nonneg (x : Qc) : 0 <= py_abs x.
Proof.
  unfold py_abs. destruct (Qcltb x 0) eqn:E.
  - apply Qcltb_lt in E. to_Q. lra.
  - now apply Qcltb_false_le in E.
Qed.

Lemma py_abs_of_nonneg (x : Qc) : 0 <= x -> py_abs x = x.
Proof.
  intro H. unfold py_abs. destruct (Qcltb x 0) eqn:E; [|reflexivity].
  apply Qcltb_lt in E. exfalso. exact (Qcle_not_lt _ _ H E).
Qed.

Lemma py_abs_opp (x : Qc) : py_abs (- x) = py_abs x.
Proof.
  unfold py_abs.
  destruct (Qcltb (- x) 0) eqn:E1; destruct (Qcltb x 0) eqn:E2;
    try reflexivity.
  - apply Qcltb_lt in E1, E2. exfalso. to_Q. lra.
  - ring.
  - apply Qcltb_false_le in E1, E2. apply Qc_is_canon. to_Q. lra.
Qed.

(** X17. What the "Save Events" handler guarantees of a stored event.
    The amount of an event typed debit (in any letter case) is at most
    zero and that of any other event at least zero; a one-time event
    ends at its start age; a recurring event keeps an end age that is
    after its start age and otherwise gets the planning horizon; and
    saving an already saved event again changes nothing. *)
Theorem validated_event_invariants :
  forall (planning_end_age : Z) (typ label : string) (start_age end_age : Z)
         (amount tax_rate : Qc) (recurrence : string)
         (enabled taxable : bool),
    let e := validated_event planning_end_age typ label start_age end_age
               amount tax_rate recurrence enabled taxable in
    (lower typ = "debit"%string -> LiquidityEvent.amount e <= 0)
    /\ (lower typ <> "debit"%string -> 0 <= LiquidityEvent.amount e)
    /\ (LiquidityEvent.recurrence e = ONE_TIME ->
        LiquidityEvent.end_age e = LiquidityEvent.start_age e)
    /\ (LiquidityEvent.recurrence e <> ONE_TIME ->
        (start_age < end_age)%Z -> LiquidityEvent.end_age e = end_age)
    /\ (LiquidityEvent.recurrence e <> ONE_TIME ->
        (end_age <= start_age)%Z ->
        LiquidityEvent.end_age e = planning_end_age)
    /\ validated_event planning_end_age (LiquidityEvent.type e)
         (LiquidityEvent.label e) (LiquidityEvent.start_age e)
         (LiquidityEvent.end_age e) (LiquidityEvent.amount e)
         (LiquidityEvent.tax_rate e) (LiquidityEvent.recurrence e)
         (LiquidityEvent.enabled e) (LiquidityEvent.taxable e)
       = e.
Proof.
  intros planning_end_age typ label start_age end_age amount tax_rate
    recurrence enabled taxable e.
  subst e. unfold validated_event.
  cbn [LiquidityEvent.type LiquidityEvent.label LiquidityEvent.start_age
       LiquidityEvent.end_age LiquidityEvent.amount LiquidityEvent.recurrence
       LiquidityEvent.enabled LiquidityEvent.taxable LiquidityEvent.tax_rate].
  set (rec := if (recurrence =? "")%string then ONE_TIME else recurrence).
  assert (Hrec : (rec =? "")%string = false).
  { subst rec. destruct (recurrence =? "")%string eqn:E; [reflexivity|].
    exact E. }
  pose proof (py_abs_nonneg amount) as Habs.
  split; [|split; [|split; [|split; [|split]]]].
  - intros ->. cbn. to_Q. lra.
  - intro Hne. apply String.eqb_neq in Hne. now rewrite Hne.
  - intros ->. reflexivity.
  - intros Hne Hlt. apply String.eqb_neq in Hne. rewrite Hne.
    destruct (Z.leb_spec end_age start_age); [lia | reflexivity].
  - intros Hne Hle. apply String.eqb_neq in Hne. rewrite Hne.
    destruct (Z.leb_spec end_age start_age); [reflexivity | lia].
  - rewrite Hrec.
    assert (Hend :
              (if (rec =? ONE_TIME)%string then start_age
               else if ((if (rec =? ONE_TIME)%string then start_age
                         else if (end_age <=? start_age)%Z
                              then planning_end_age else end_age)
                        <=? start_age)%Z
                    then planning_end_age
                    else if (rec =? ONE_TIME)%string then start_age
                         else if (end_age <=? start_age)%Z
                              then planning_end_age else end_age)
              = (if (rec =? ONE_TIME)%string then start_age
                 else if (end_age <=? start_age)%Z
                      then planning_end_age else end_age)).
    { destruct (rec =? ONE_TIME)%string; [reflexivity|].
      destruct (Z.leb_spec end_age start_age) as [H1 | H1].
      - now destruct (planning_end_age <=? start_age)%Z.
      - destruct (Z.leb_spec end_age start_age); [lia | reflexivity]. }
    rewrite Hend.
    assert (Hamount :
              (if (lower typ =? "debit")%string
               then - py_abs (if (lower typ =? "debit")%string
                              then - py_abs amount else py_abs amount)
               else py_abs (if (lower typ =? "debit")%string
                            then - py_abs amount else py_abs amount))
              = (if (lower typ =? "debit")%string
                 then - py_abs amount else py_abs amount)).
    { destruct (lower typ =? "debit")%string.
      - now rewrite py_abs_opp, (py_abs_of_nonneg _ Habs).
      - now rewrite (py_abs_of_nonneg _ Habs). }
    rewrite Hamount. reflexivity.
Qed.

(** X17, witness: a debit entered as +30000 is stored as -30000. *)
Lemma validated_event_invariants_witness :
  LiquidityEvent.amount
    (validated_event 95 "Debit" "Car" 66 0 (num 30000) 0 ONE_TIME true false)
  <= 0.
Proof.
  apply (validated_event_invariants 95 "Debit" "Car" 66 0 (num 30000) 0
           ONE_TIME true false).
  reflexivity.
Defined.

(** The fields of a stored event. *)
Lemma validated_event_fields (planning_end_age : Z) (typ label : string)
    (start_age end_age : Z) (amount tax_rate : Qc) (recurrence : string)
    (enabled taxable : bool) :
  let e := validated_event planning_end_age typ label start_age end_age
             amount tax_rate recurrence enabled taxable in
  LiquidityEvent.start_age e = start_age
  /\ LiquidityEvent.enabled e = enabled
  /\ LiquidityEvent.taxable e = taxable
  /\ (lower typ = "debit"%string -> LiquidityEvent.amount e <= 0)
  /\ (LiquidityEvent.recurrence e = ONE_TIME ->
      LiquidityEvent.end_age e = start_age)
  /\ (LiquidityEvent.recurrence e <> ONE_TIME ->
      (end_age <= start_age)%Z ->
      LiquidityEvent.end_age e = planning_end_age).
Proof.
  cbv zeta. unfold validated_event.
  cbn [LiquidityEvent.start_age LiquidityEvent.end_age LiquidityEvent.amount
       LiquidityEvent.recurrence LiquidityEvent.enabled
       LiquidityEvent.taxable].
  split; [reflexivity|]. split; [reflexivity|]. split; [reflexivity|].
  pose proof (py_abs_nonneg amount) as Habs.
  split; [|split].
  - intros ->. cbn. to_Q. lra.
  - intros ->. reflexivity.
  - intros Hne Hle. apply String.eqb_neq in Hne. rewrite Hne.
    destruct (Z.leb_spec end_age start_age); [reflexivity | lia].
Qed.

(** X18. Saved events in the aggregator.  An event the "Save Events"
    handler stored with type debit adds no tax at any age, wherever it
    stands in the event list; a stored, enabled one-time event adds its
    amount to the net at its start age and nothing at any other age; and
    a stored recurring event whose end age was not after its start age,
    with the planning horizon before its start age, is never applied: the
    aggregator returns what it returns without it. *)
Theorem validated_event_in_the_aggregator :
  forall (planning_end_age : Z) (typ label : string) (start_age end_age : Z)
         (amount tax_rate : Qc) (recurrence : string)
         (enabled taxable : bool),
    let e := validated_event planning_end_age typ label start_age end_age
               amount tax_rate recurrence enabled taxable in
    (lower typ = "debit"%string ->
     forall age l1 l2,
       taxes_of (apply_liquidity_events age (l1 ++ e :: l2))
       = taxes_of (apply_liquidity_events age (l1 ++ l2)))
    /\ (LiquidityEvent.recurrence e = ONE_TIME ->
        enabled = true ->
        forall age l1 l2,
          net_of (apply_liquidity_events age (l1 ++ e :: l2))
          = net_of (apply_liquidity_events age (l1 ++ l2))
            + (if (age =? start_age)%Z then LiquidityEvent.amount e else 0))
    /\ (LiquidityEvent.recurrence e <> ONE_TIME ->
        (end_age <= start_age)%Z ->
        (planning_end_age < start_age)%Z ->
        forall age l1 l2,
          apply_liquidity_events age (l1 ++ e :: l2)
          = apply_liquidity_events age (l1 ++ l2)).
Proof.
  intros planning_end_age typ label start_age end_age amount tax_rate
    recurrence enabled taxable e.
  destruct (validated_event_fields planning_end_age typ label start_age
              end_age amount tax_rate recurrence enabled taxable)
    as (Hstart & Hen & Htax & Hdebit & Hone & Hrecur).
  fold e in Hstart, Hen, Htax, Hdebit, Hone, Hrecur.
  split; [|split].
  - intros Htyp age l1 l2.
    destruct (apply_liquidity_events_insert age l1 l2 e) as (_ & _ & Ht).
    rewrite Ht, event_delta_cases.
    assert (Hpos : Qcltb 0 (annualized e) = false).
    { unfold annualized.
      destruct (LiquidityEvent.recurrence e =? MONTHLY)%string;
        [rewrite positive_times_12|];
        apply Qcltb_false_le; exact (Hdebit Htyp). }
    rewrite Hpos, andb_false_r.
    match goal with
    | |- context [if ?c then _ else _] => destruct c
    end; unfold taxes_of; cbn [snd]; ring.
  - intros Hrec Henabled age l1 l2.
    destruct (apply_liquidity_events_insert age l1 l2 e) as (Hn & _ & _).
    rewrite Hn, event_delta_cases. f_equal.
    rewrite Hen, Henabled, Hstart, (Hone Hrec), Hrec.
    unfold annualized. rewrite Hrec.
    change (ONE_TIME =? ONE_TIME)%string with true.
    change (ONE_TIME =? MONTHLY)%string with false.
    cbn [negb orb andb].
    destruct (Z.eqb_spec age start_age) as [-> | Hne].
    + rewrite Z.leb_refl. reflexivity.
    + destruct (Z.leb_spec start_age age), (Z.leb_spec age start_age);
        try reflexivity; lia.
  - intros Hrec Hle Hlt age l1 l2.
    rewrite !apply_liquidity_events_app, apply_liquidity_events_cons.
    rewrite event_delta_cases, Hstart, (Hrecur Hrec Hle).
    assert (Hrange : ((start_age <=? age)%Z && (age <=? planning_end_age)%Z)%bool
                     = false).
    { destruct (Z.leb_spec start_age age), (Z.leb_spec age planning_end_age);
        try reflexivity; lia. }
    rewrite <- !andb_assoc.
    rewrite (andb_assoc (start_age <=? age)%Z), Hrange.
    rewrite andb_false_l, andb_false_r.
    now rewrite acc_add_zero_l.
Qed.

(** X18, witness: the car purchase as the handler stores it. *)
Lemma validated_event_in_the_aggregator_witness :
  taxes_of
    (apply_liquidity_events 66
       ([pension]
        ++ validated_event 95 "Debit" "Car" 66 0 (num 30000) (num 20)
             ONE_TIME true true :: []))
  = taxes_of (apply_liquidity_events 66 ([pension] ++ [])).
Proof.
  apply (validated_event_in_the_aggregator 95 "Debit" "Car" 66 0
           (num 30000) (num 20) ONE_TIME true true).
  reflexivity.
Defined.

(** ** The inflation toggle *)

Lemma mc_step_inflation_flag (scenario : Scenario.t) (flag : bool)
    (liquidity_events : list LiquidityEvent.t) (returns : list (list Qc))
    (run_idx : nat) (st : MC.locals) (ya : nat * Z) :
  mc_step (with_inflation_enabled scenario flag) liquidity_events returns
    run_idx st ya
  = mc_step scenario liquidity_events returns run_idx st ya.
Proof. reflexivity. Qed.

Lemma mc_trial_inflation_flag (scenario : Scenario.t) (flag : bool)
    (liquidity_events : list LiquidityEvent.t) (returns : list (list Qc))
    (run_idx : nat) :
  mc_trial (with_inflation_enabled scenario flag) liquidity_events returns
    run_idx
  = mc_trial scenario liquidity_events returns run_idx.
Proof.
  unfold mc_trial.
  change (Scenario.current_age (with_inflation_enabled scenario flag))
    with (Scenario.current_age scenario).
  change (Scenario.end_age (with_inflation_enabled scenario flag))
    with (Scenario.end_age scenario).
  change (mc_init (with_inflation_enabled scenario flag))
    with (mc_init scenario).
  generalize (mc_init scenario).
  generalize (enumerate (py_range (Scenario.current_age scenario)
                           (Scenario.end_age scenario + 1))).
  induction l as [|ya rest IH]; intro st; [reflexivity|].
  rewrite !fold_left_step, mc_step_inflation_flag. apply IH.
Qed.

Section InflationToggle.

Variable rng : Type.
Variable np_random_seed : Z -> rng.
Variable gauss : rng -> Qc * rng.

(** X19. [run_monte_carlo] never reads the "Apply Inflation" toggle:
    switching [inflation_enabled] on or off leaves its whole result
    unchanged; the simulator compounds the price index by [inflation_pct]
    in either case. *)
Theorem run_monte_carlo_ignores_inflation_toggle :
  forall (scenario : Scenario.t) (flag : bool)
         (liquidity_events : list LiquidityEvent.t) (runs seed : Z) (g : rng),
    run_monte_carlo rng np_random_seed gauss
      (with_inflation_enabled scenario flag) liquidity_events runs seed g
    = run_monte_carlo rng np_random_seed gauss scenario liquidity_events
        runs seed g.
Proof.
  intros scenario flag liquidity_events runs seed g.
  unfold run_monte_carlo.
  change (Scenario.nominal_return_pct (with_inflation_enabled scenario flag))
    with (Scenario.nominal_return_pct scenario).
  change (Scenario.return_stdev_pct (with_inflation_enabled scenario flag))
    with (Scenario.return_stdev_pct scenario).
  change (Scenario.end_age (with_inflation_enabled scenario flag))
    with (Scenario.end_age scenario).
  change (Scenario.current_age (with_inflation_enabled scenario flag))
    with (Scenario.current_age scenario).
  destruct (np_random_normal _ _ _ _ _ _ _) as [[returns | e] g'];
    [|reflexivity].
  rewrite (map_ext _ _
             (mc_trial_inflation_flag scenario flag liquidity_events
                returns)).
  reflexivity.
Qed.

End InflationToggle.

Lemma last_row_terminal (scenario : Scenario.t)
    (liquidity_events : list LiquidityEvent.t)
    (rows : list TimelineRow.t) (m : Metrics) :
  build_timeline scenario liquidity_events = Ok (rows, m) ->
  exists front last_row,
    rows = front ++ [last_row]
    /\ terminal_nominal m = TimelineRow.end_balance_nominal last_row.
Proof.
  intro Hb. apply build_timeline_result in Hb. revert Hb.
  unfold timeline_result.
  destruct (last (map Some _) None) as [last_row|] eqn:L; [|discriminate].
  intro H. inversion H; subst; clear H.
  destruct (last_map_Some_split _ _ L) as [front Hfront].
  exists front, last_row. split; [exact Hfront | reflexivity].
Qed.

Lemma first_negative_columns (rows rows' : list TimelineRow.t) :
  map nominal_columns rows' = map nominal_columns rows ->
  option_map TimelineRow.age
    (find (fun row => Qcltb (TimelineRow.end_balance_nominal row) 0) rows')
  = option_map TimelineRow.age
      (find (fun row => Qcltb (TimelineRow.end_balance_nominal row) 0) rows).
Proof.
  revert rows'. induction rows as [|r rows IH]; intros [|r' rows'] H;
    try discriminate H; [reflexivity|].
  rewrite !map_cons in H. inversion H as [[Ha Hs Hc Hl Hw Hf Ht Hg He Hrest]].
  cbn [find]. rewrite He.
  destruct (Qcltb (TimelineRow.end_balance_nominal r) 0);
    [cbn [option_map]; now rewrite Ha | now apply IH].
Qed.

Lemma row_at_nominal_columns (scenario : Scenario.t) (pct : Qc)
    (flag : bool) (liquidity_events : list LiquidityEvent.t)
    (st st' : TL.locals) (age : Z) :
  Scenario.withdrawal_method scenario = PCT_METHOD ->
  TL.balance_nominal st' = TL.balance_nominal st ->
  TL.prior_year_end_balance st' = TL.prior_year_end_balance st ->
  nominal_columns
    (row_at (with_inflation scenario pct flag) liquidity_events st' age)
  = nominal_columns (row_at scenario liquidity_events st age).
Proof.
  intros Hm Hb Hp. unfold nominal_columns, row_at.
  destruct (apply_liquidity_events age liquidity_events) as [[n l] t].
  cbn [TimelineRow.age TimelineRow.start_balance_nominal
       TimelineRow.contributions TimelineRow.liquidity_net
       TimelineRow.withdrawals TimelineRow.fees TimelineRow.taxes
       TimelineRow.growth TimelineRow.end_balance_nominal].
  unfold timeline_withdrawals.
  change (Scenario.withdrawal_method (with_inflation scenario pct flag))
    with (Scenario.withdrawal_method scenario).
  rewrite Hm, String.eqb_refl, Hb, Hp. reflexivity.
Qed.

Lemma timeline_gen_nominal_columns (scenario : Scenario.t) (pct : Qc)
    (flag : bool) (liquidity_events : list LiquidityEvent.t) :
  Scenario.withdrawal_method scenario = PCT_METHOD ->
  forall ages st st',
    TL.balance_nominal st' = TL.balance_nominal st ->
    TL.prior_year_end_balance st' = TL.prior_year_end_balance st ->
    map nominal_columns
      (timeline_gen (with_inflation scenario pct flag) liquidity_events
         ages st')
    = map nominal_columns (timeline_gen scenario liquidity_events ages st).
Proof.
  intro Hm. induction ages as [|age rest IH]; intros st st' Hb Hp;
    [reflexivity|].
  rewrite !timeline_gen_step, !map_cons.
  pose proof (row_at_nominal_columns scenario pct flag
                liquidity_events st st' age Hm Hb Hp) as Hrow.
  rewrite Hrow. f_equal.
  assert (Hend : TimelineRow.end_balance_nominal
                   (row_at (with_inflation scenario pct flag)
                      liquidity_events st' age)
                 = TimelineRow.end_balance_nominal
                     (row_at scenario liquidity_events st age)).
  { unfold nominal_columns in Hrow. now inversion Hrow. }
  apply IH.
  - now rewrite !step_at_balance.
  - now rewrite !step_at_prior.
Qed.

Lemma nominal_columns_end (rows rows' : list TimelineRow.t) :
  map nominal_columns rows' = map nominal_columns rows ->
  map TimelineRow.end_balance_nominal rows'
  = map TimelineRow.end_balance_nominal rows.
Proof.
  revert rows'. induction rows as [|r rows IH]; intros [|r' rows'] H;
    try discriminate H; [reflexivity|].
  rewrite !map_cons in *. inversion H as [[Ha Hs Hc Hl Hw Hf Ht Hg He Hrest]].
  f_equal. now apply IH.
Qed.

Lemma timeline_rows_nominal_columns (scenario : Scenario.t) (pct : Qc)
    (flag : bool) (liquidity_events : list LiquidityEvent.t) :
  Scenario.withdrawal_method scenario = PCT_METHOD ->
  map nominal_columns
    (timeline_rows (with_inflation scenario pct flag) liquidity_events)
  = map nominal_columns (timeline_rows scenario liquidity_events).
Proof.
  intro Hm. rewrite !timeline_rows_gen.
  change (Scenario.current_age (with_inflation scenario pct flag))
    with (Scenario.current_age scenario).
  change (Scenario.end_age (with_inflation scenario pct flag))
    with (Scenario.end_age scenario).
  apply timeline_gen_nominal_columns; [exact Hm | reflexivity | reflexivity].
Qed.

Lemma min_balance_of_inflation (scenario : Scenario.t) (pct : Qc)
    (flag : bool) (liquidity_events : list LiquidityEvent.t) :
  Scenario.withdrawal_method scenario = PCT_METHOD ->
  index_hits_zero scenario = false ->
  index_hits_zero (with_inflation scenario pct flag) = false ->
  min_balance_of (with_inflation scenario pct flag) liquidity_events
  = min_balance_of scenario liquidity_events.
Proof.
  intros Hm Hz Hz'. unfold min_balance_of.
  pose proof (nominal_columns_end _ _
                (timeline_rows_nominal_columns scenario pct flag
                   liquidity_events Hm)) as Hends.
  destruct (build_timeline scenario liquidity_events)
    as [[rows m] | e] eqn:B.
  - destruct (build_timeline_rows _ _ _ _ B) as [-> Hne].
    destruct (build_timeline_returns (with_inflation scenario pct flag)
                liquidity_events Hz') as [m' B'].
    { intro E. apply Hne.
      apply (f_equal (map TimelineRow.end_balance_nominal)) in E.
      rewrite Hends in E. now apply map_eq_nil in E. }
    rewrite B'. now rewrite Hends.
  - assert (Hnil : timeline_rows scenario liquidity_events = []).
    { destruct (timeline_rows scenario liquidity_events) eqn:R;
        [reflexivity|].
      destruct (build_timeline_returns scenario liquidity_events Hz)
        as [m Hm']; [rewrite R; discriminate | congruence]. }
    rewrite Hnil in Hends. apply map_eq_nil in Hends.
    rewrite (build_timeline_raises _ _ Hends).
    rewrite (build_timeline_raises _ _ Hnil) in B. congruence.
Qed.

(** X20. Under the percentage method inflation never reaches the nominal
    figures.  Take two settings of [inflation_pct] and
    [inflation_enabled], under neither of which the price index reaches
    zero (a zero index makes [build_timeline] raise [ZeroDivisionError];
    over exact arithmetic the index is zero when inflation is applied at
    -100% over three ages or more).
    Going from one to the other leaves every nominal column of every row
    of [build_timeline] unchanged (only the price index and the real
    balance can move), and therefore leaves the result of
    [solve_safe_withdrawal_rate] unchanged. *)
Theorem percentage_method_ignores_inflation :
  forall (scenario : Scenario.t) (pct : Qc) (flag : bool)
         (liquidity_events : list LiquidityEvent.t),
    Scenario.withdrawal_method scenario = PCT_METHOD ->
    index_hits_zero scenario = false ->
    index_hits_zero (with_inflation scenario pct flag) = false ->
    (forall rows m,
        build_timeline scenario liquidity_events = Ok (rows, m) ->
        exists rows' m',
          build_timeline (with_inflation scenario pct flag) liquidity_events
          = Ok (rows', m')
          /\ map nominal_columns rows' = map nominal_columns rows
          /\ terminal_nominal m' = terminal_nominal m
          /\ first_shortfall_age m' = first_shortfall_age m)
    /\ (forall tolerance max_iterations swr_debug,
           solve_safe_withdrawal_rate (with_inflation scenario pct flag)
             liquidity_events tolerance max_iterations swr_debug
           = solve_safe_withdrawal_rate scenario liquidity_events
               tolerance max_iterations swr_debug).
Proof.
  intros scenario pct flag liquidity_events Hm Hz Hz'.
  pose proof (timeline_rows_nominal_columns scenario pct flag
                liquidity_events Hm) as Hcols.
  split.
  - intros rows m Hb.
    pose proof (build_timeline_first_negative _ _ _ _ Hb) as Hf.
    destruct (last_row_terminal _ _ _ _ Hb)
      as (front & last_row & Hrows & Hterm).
    destruct (build_timeline_rows _ _ _ _ Hb) as [-> Hne].
    destruct (build_timeline_returns (with_inflation scenario pct flag)
                liquidity_events Hz') as [m' Hb'].
    { intro E. apply Hne. rewrite E in Hcols. symmetry in Hcols.
      now apply map_eq_nil in Hcols. }
    exists (timeline_rows (with_inflation scenario pct flag)
              liquidity_events), m'.
    split; [exact Hb'|]. split; [exact Hcols|].
    pose proof (nominal_columns_end _ _ Hcols) as Hends.
    split.
    + destruct (last_row_terminal _ _ _ _ Hb')
        as (front' & last_row' & Hrows' & Hterm').
      rewrite Hterm, Hterm'.
      rewrite Hrows, Hrows', !map_app in Hends. cbn [map] in Hends.
      apply app_inj_tail in Hends. now destruct Hends.
    + rewrite Hf, (build_timeline_first_negative _ _ _ _ Hb').
      unfold first_negative.
      apply first_negative_columns. exact Hcols.
  - intros tolerance max_iterations swr_debug.
    unfold solve_safe_withdrawal_rate, swr_search.
    change (Scenario.withdrawal_method (with_inflation scenario pct flag))
      with (Scenario.withdrawal_method scenario).
    assert (E : forall iterations st,
               swr_loop (with_inflation scenario pct flag) liquidity_events
                 tolerance iterations st
               = swr_loop scenario liquidity_events tolerance iterations st).
    { induction iterations as [|i rest IH]; intro st; [reflexivity|].
      rewrite !swr_loop_cons.
      change (Scenario.with_withdrawal_pct
                (with_inflation scenario pct flag)
                ((SWR.low st + SWR.high st) / num 2))
        with (with_inflation
                (Scenario.with_withdrawal_pct scenario
                   ((SWR.low st + SWR.high st) / num 2)) pct flag).
      rewrite (min_balance_of_inflation
                 (Scenario.with_withdrawal_pct scenario
                    ((SWR.low st + SWR.high st) / num 2))
                 pct flag liquidity_events Hm Hz Hz').
      destruct (min_balance_of _ _) as [mb | e]; [|reflexivity].
      destruct (Qcltb _ tolerance); [reflexivity | apply IH]. }
    now rewrite E.
Qed.

(** X20, witness: [last_year_scenario] with inflation switched off. *)
Lemma percentage_method_ignores_inflation_witness :
  solve_safe_withdrawal_rate
    (with_inflation last_year_scenario (num 10) false) []
    default_tolerance default_max_iterations []
  = solve_safe_withdrawal_rate last_year_scenario []
      default_tolerance default_max_iterations [].
Proof.
  apply (percentage_method_ignores_inflation last_year_scenario (num 10)
           false []); reflexivity.
Defined.

(** ** The currency unit does not matter *)

Lemma scale_positive (k a : Qc) : 0 < k -> Qcltb 0 (k * a) = Qcltb 0 a.
Proof.
  intro Hk. destruct (Qcltb 0 a) eqn:E.
  - apply Qcltb_lt in E. apply Qcltb_lt.
    assert (H : 0 * k < a * k) by (apply Qcmult_lt_compat_r; assumption).
    rewrite Qcmult_0_l in H. rewrite Qcmult_comm. exact H.
  - apply Qcltb_false_le in E. apply Qcltb_false_le.
    assert (H : a * k <= 0 * k)
      by (apply Qcmult_le_compat_r; [exact E | now apply Qclt_le_weak]).
    rewrite Qcmult_0_l in H. rewrite Qcmult_comm. exact H.
Qed.

Lemma scale_lt (k a b : Qc) : 0 < k -> Qcltb (k * a) (k * b) = Qcltb a b.
Proof.
  intro Hk. destruct (Qcltb a b) eqn:E.
  - apply Qcltb_lt in E. apply Qcltb_lt.
    rewrite (Qcmult_comm k a), (Qcmult_comm k b).
    now apply Qcmult_lt_compat_r.
  - apply Qcltb_false_le in E. apply Qcltb_false_le.
    rewrite (Qcmult_comm k a), (Qcmult_comm k b).
    apply Qcmult_le_compat_r; [exact E | now apply Qclt_le_weak].
Qed.

Lemma scale_negative (k a : Qc) : 0 < k -> Qcltb (k * a) 0 = Qcltb a 0.
Proof.
  intro Hk. rewrite <- (scale_lt k a 0 Hk). f_equal. ring.
Qed.

Lemma scale_nonneg (k a : Qc) : 0 < k -> Qcleb 0 (k * a) = Qcleb 0 a.
Proof.
  intro Hk. pose proof (scale_negative k a Hk) as H.
  destruct (Qcleb 0 a) eqn:E.
  - apply Qcleb_le in E. apply Qcleb_le.
    apply Qcltb_false_le. rewrite H. now apply Qcltb_false_le.
  - apply Qcleb_false_lt in E. apply Qcleb_false_lt.
    apply Qcltb_lt. rewrite H. now apply Qcltb_lt.
Qed.

Lemma event_delta_scale (k : Qc) (age : Z) (e : LiquidityEvent.t) :
  0 < k ->
  event_delta age (scale_event k e)
  = (k * net_of (event_delta age e),
     labels_of (event_delta age e),
     k * taxes_of (event_delta age e)).
Proof.
  intro Hk. rewrite !event_delta_cases.
  assert (Hann : annualized (scale_event k e) = k * annualized e).
  { unfold annualized, scale_event.
    cbn [LiquidityEvent.recurrence LiquidityEvent.amount].
    destruct (LiquidityEvent.recurrence e =? MONTHLY)%string; ring. }
  rewrite Hann, (scale_positive k _ Hk).
  unfold scale_event at 1 2 3 4 5 6 7 8.
  cbn [LiquidityEvent.enabled LiquidityEvent.start_age LiquidityEvent.end_age
       LiquidityEvent.recurrence LiquidityEvent.taxable LiquidityEvent.label
       LiquidityEvent.tax_rate].
  match goal with
  | |- (if ?c then _ else _) = _ => destruct c
  end; unfold net_of, labels_of, taxes_of; cbn [fst snd].
  - destruct (LiquidityEvent.taxable e && Qcltb 0 (annualized e))%bool;
      apply triple_eq; try reflexivity; ring.
  - apply triple_eq; try reflexivity; ring.
Qed.

Lemma apply_liquidity_events_scale (k : Qc) (age : Z)
    (events : list LiquidityEvent.t) :
  0 < k ->
  net_of (apply_liquidity_events age (map (scale_event k) events))
  = k * net_of (apply_liquidity_events age events)
  /\ taxes_of (apply_liquidity_events age (map (scale_event k) events))
     = k * taxes_of (apply_liquidity_events age events).
Proof.
  intro Hk. induction events as [|e rest [IHn IHt]].
  - cbn [map]. change (apply_liquidity_events age []) with (0, @nil string, 0).
    unfold net_of, taxes_of. cbn [fst snd]. split; ring.
  - rewrite map_cons, !apply_liquidity_events_cons.
    rewrite (event_delta_scale k age e Hk).
    unfold acc_add at 1 3. unfold net_of at 1 4, taxes_of at 1 4.
    cbn [fst snd].
    fold (net_of (apply_liquidity_events age (map (scale_event k) rest))).
    fold (taxes_of (apply_liquidity_events age (map (scale_event k) rest))).
    rewrite IHn, IHt.
    unfold acc_add, net_of, taxes_of. cbn [fst snd]. split; ring.
Qed.

Lemma contributions_at_scale (k : Qc) (scenario : Scenario.t) (age : Z) :
  contributions_at (scale_scenario k scenario) age
  = k * contributions_at scenario age.
Proof.
  unfold contributions_at, scale_scenario.
  cbn [Scenario.retirement_age Scenario.contrib_cadence
       Scenario.contrib_amount].
  destruct (age <? Scenario.retirement_age scenario)%Z; [|ring].
  destruct (Scenario.contrib_cadence scenario =? MONTHLY)%string; ring.
Qed.

Lemma timeline_withdrawals_scale (k : Qc) (scenario : Scenario.t) (age : Z)
    (prior cpi : Qc) :
  timeline_withdrawals (scale_scenario k scenario) age (k * prior) cpi
  = k * timeline_withdrawals scenario age prior cpi.
Proof.
  unfold timeline_withdrawals, scale_scenario.
  cbn [Scenario.retirement_age Scenario.withdrawal_method
       Scenario.withdrawal_pct Scenario.inflation_enabled
       Scenario.withdrawal_real_amount Scenario.withdrawal_frequency].
  destruct (Scenario.retirement_age scenario <=? age)%Z; [|ring].
  destruct (Scenario.withdrawal_method scenario =? PCT_METHOD)%string;
    [ring|].
  destruct (Scenario.inflation_enabled scenario);
    destruct (Scenario.withdrawal_frequency scenario =? MONTHLY)%string;
    ring.
Qed.

Lemma fee_rate_scale (k : Qc) (scenario : Scenario.t) :
  fee_rate (scale_scenario k scenario) = fee_rate scenario.
Proof. reflexivity. Qed.

Lemma tax_rate_scale (k : Qc) (scenario : Scenario.t) :
  tax_rate (scale_scenario k scenario) = tax_rate scenario.
Proof. reflexivity. Qed.

Lemma nominal_return_scale (k : Qc) (scenario : Scenario.t) :
  nominal_return (scale_scenario k scenario) = nominal_return scenario.
Proof. reflexivity. Qed.

Lemma inflation_rate_scale (k : Qc) (scenario : Scenario.t) :
  inflation_rate (scale_scenario k scenario) = inflation_rate scenario.
Proof. reflexivity. Qed.

Lemma enable_taxes_scale (k : Qc) (scenario : Scenario.t) :
  Scenario.enable_taxes (scale_scenario k scenario)
  = Scenario.enable_taxes scenario.
Proof. reflexivity. Qed.

Lemma inflation_enabled_scale (k : Qc) (scenario : Scenario.t) :
  Scenario.inflation_enabled (scale_scenario k scenario)
  = Scenario.inflation_enabled scenario.
Proof. reflexivity. Qed.

Lemma current_age_scale (k : Qc) (scenario : Scenario.t) :
  Scenario.current_age (scale_scenario k scenario)
  = Scenario.current_age scenario.
Proof. reflexivity. Qed.

Lemma end_age_scale (k : Qc) (scenario : Scenario.t) :
  Scenario.end_age (scale_scenario k scenario) = Scenario.end_age scenario.
Proof. reflexivity. Qed.

Lemma row_eq (a a' : Z) (b c d e f g h i j l b' c' d' e' f' g' h' i' j' l' : Qc) :
  a = a' -> b = b' -> c = c' -> d = d' -> e = e' -> f = f' -> g = g' ->
  h = h' -> i = i' -> j = j' -> l = l' ->
  TimelineRow.mk a b c d e f g h i j l
  = TimelineRow.mk a' b' c' d' e' f' g' h' i' j' l'.
Proof. intros; subst; reflexivity. Qed.

Lemma scale_row_end (k : Qc) (r : TimelineRow.t) :
  TimelineRow.end_balance_nominal (scale_row k r)
  = k * TimelineRow.end_balance_nominal r.
Proof. reflexivity. Qed.

Lemma scale_row_real (k : Qc) (r : TimelineRow.t) :
  TimelineRow.end_balance_real (scale_row k r)
  = k * TimelineRow.end_balance_real r.
Proof. reflexivity. Qed.

Lemma scale_row_cpi (k : Qc) (r : TimelineRow.t) :
  TimelineRow.cpi_index (scale_row k r) = TimelineRow.cpi_index r.
Proof. reflexivity. Qed.

Lemma scale_row_age (k : Qc) (r : TimelineRow.t) :
  TimelineRow.age (scale_row k r) = TimelineRow.age r.
Proof. reflexivity. Qed.

Lemma row_at_scale (k : Qc) (scenario : Scenario.t)
    (liquidity_events : list LiquidityEvent.t) (st st' : TL.locals)
    (age : Z) :
  0 < k ->
  scaled_locals k st st' ->
  row_at (scale_scenario k scenario)
    (map (scale_event k) liquidity_events) st' age
  = scale_row k (row_at scenario liquidity_events st age).
Proof.
  intros Hk (Hb & Hp & Hc).
  destruct (apply_liquidity_events_scale k age liquidity_events Hk)
    as [Hn Ht].
  revert Hn Ht. unfold row_at, scale_row, net_of, taxes_of.
  destruct (apply_liquidity_events age liquidity_events) as [[n l] t].
  destruct (apply_liquidity_events age (map (scale_event k) liquidity_events))
    as [[n' l'] t'].
  cbn [fst snd]. intros -> ->.
  cbv beta iota zeta.
  cbn [TimelineRow.age TimelineRow.start_balance_nominal
       TimelineRow.contributions TimelineRow.liquidity_net
       TimelineRow.withdrawals TimelineRow.fees TimelineRow.taxes
       TimelineRow.growth TimelineRow.end_balance_nominal
       TimelineRow.cpi_index TimelineRow.end_balance_real].
  rewrite Hb, Hp, Hc, contributions_at_scale, timeline_withdrawals_scale,
    !fee_rate_scale, !tax_rate_scale, !nominal_return_scale,
    !enable_taxes_scale, !inflation_enabled_scale, !current_age_scale.
  destruct (Scenario.enable_taxes scenario);
    destruct (Scenario.inflation_enabled scenario);
    apply row_eq; try reflexivity; unfold Qcdiv; ring.
Qed.

Lemma step_at_scale (k : Qc) (scenario : Scenario.t)
    (liquidity_events : list LiquidityEvent.t) (st st' : TL.locals)
    (age : Z) :
  0 < k ->
  scaled_locals k st st' ->
  scaled_locals k
    (step_at scenario liquidity_events st age)
    (step_at (scale_scenario k scenario)
       (map (scale_event k) liquidity_events) st' age).
Proof.
  intros Hk Hs.
  pose proof (row_at_scale k scenario liquidity_events st st' age
                Hk Hs) as Hrow.
  unfold scaled_locals.
  rewrite !step_at_balance, !step_at_prior, !step_at_cpi,
    Hrow, scale_row_end, scale_row_cpi, inflation_rate_scale,
    inflation_enabled_scale, current_age_scale.
  repeat split; reflexivity.
Qed.

Lemma timeline_gen_scale (k : Qc) (scenario : Scenario.t)
    (liquidity_events : list LiquidityEvent.t) :
  0 < k ->
  forall ages st st',
    scaled_locals k st st' ->
    timeline_gen (scale_scenario k scenario)
      (map (scale_event k) liquidity_events) ages st'
    = map (scale_row k) (timeline_gen scenario liquidity_events ages st).
Proof.
  intro Hk. induction ages as [|age rest IH]; intros st st' Hs;
    [reflexivity|].
  rewrite !timeline_gen_step, map_cons.
  rewrite (row_at_scale k scenario liquidity_events st st' age Hk Hs).
  f_equal. apply IH. now apply step_at_scale.
Qed.

Lemma timeline_rows_scale (k : Qc) (scenario : Scenario.t)
    (liquidity_events : list LiquidityEvent.t) :
  0 < k ->
  timeline_rows (scale_scenario k scenario)
    (map (scale_event k) liquidity_events)
  = map (scale_row k) (timeline_rows scenario liquidity_events).
Proof.
  intro Hk. rewrite !timeline_rows_gen, current_age_scale, end_age_scale.
  apply timeline_gen_scale; [exact Hk|].
  repeat split; reflexivity.
Qed.

Lemma last_row_metrics (scenario : Scenario.t)
    (liquidity_events : list LiquidityEvent.t)
    (rows : list TimelineRow.t) (m : Metrics) :
  build_timeline scenario liquidity_events = Ok (rows, m) ->
  exists front last_row,
    rows = front ++ [last_row]
    /\ terminal_nominal m = TimelineRow.end_balance_nominal last_row
    /\ terminal_real m = TimelineRow.end_balance_real last_row.
Proof.
  intro Hb. apply build_timeline_result in Hb. revert Hb.
  unfold timeline_result.
  destruct (last (map Some _) None) as [last_row|] eqn:L; [|discriminate].
  intro H. inversion H; subst; clear H.
  destruct (last_map_Some_split _ _ L) as [front Hfront].
  exists front, last_row. split; [exact Hfront | split; reflexivity].
Qed.

Lemma first_negative_scale (k : Qc) (rows : list TimelineRow.t) :
  0 < k -> first_negative (map (scale_row k) rows) = first_negative rows.
Proof.
  intro Hk. unfold first_negative.
  induction rows as [|r rows IH]; [reflexivity|].
  rewrite map_cons. cbn [find].
  rewrite scale_row_end, (scale_negative k _ Hk).
  destruct (Qcltb (TimelineRow.end_balance_nominal r) 0);
    [reflexivity | exact IH].
Qed.

(** X21. The projection is homogeneous in the currency unit: multiply the
    starting balance, the contribution, the fixed real withdrawal and the
    amount of every liquidity event by the same [k > 0], and
    [build_timeline] returns the same rows with every money column
    multiplied by [k], the same price index, terminal balances multiplied
    by [k] and the same first shortfall age. *)
Theorem build_timeline_scales_with_currency :
  forall (k : Qc) (scenario : Scenario.t)
         (liquidity_events : list LiquidityEvent.t)
         (rows : list TimelineRow.t) (m : Metrics),
    0 < k ->
    build_timeline scenario liquidity_events = Ok (rows, m) ->
    exists m',
      build_timeline (scale_scenario k scenario)
        (map (scale_event k) liquidity_events)
      = Ok (map (scale_row k) rows, m')
      /\ terminal_nominal m' = k * terminal_nominal m
      /\ terminal_real m' = k * terminal_real m
      /\ first_shortfall_age m' = first_shortfall_age m.
Proof.
  intros k scenario liquidity_events rows m Hk Hb.
  pose proof (timeline_rows_scale k scenario liquidity_events Hk) as Hrows.
  pose proof (build_timeline_first_negative _ _ _ _ Hb) as Hf.
  destruct (last_row_metrics _ _ _ _ Hb)
    as (front & last_row & Hsplit & Hterm & Hreal).
  pose proof (build_timeline_no_zero _ _ _ _ Hb) as Hz.
  destruct (build_timeline_rows _ _ _ _ Hb) as [-> Hne].
  destruct (build_timeline_returns (scale_scenario k scenario)
              (map (scale_event k) liquidity_events) Hz) as [m' Hb'].
  { rewrite Hrows. intro E. apply Hne. now apply map_eq_nil in E. }
  exists m'.
  destruct (build_timeline_rows _ _ _ _ Hb') as [Hr' _].
  destruct (last_row_metrics _ _ _ _ Hb')
    as (front' & last_row' & Hsplit' & Hterm' & Hreal').
  pose proof (build_timeline_first_negative _ _ _ _ Hb') as Hf'.
  rewrite Hrows in Hsplit', Hf'.
  rewrite Hsplit, map_app in Hsplit'. cbn [map] in Hsplit'.
  apply app_inj_tail in Hsplit'. destruct Hsplit' as [_ Hlast].
  split; [rewrite Hb'; rewrite <- Hrows; reflexivity|].
  rewrite Hterm, Hterm', Hreal, Hreal', <- Hlast, scale_row_end,
    scale_row_real, Hf, Hf'.
  split; [reflexivity|]. split; [reflexivity|].
  now apply first_negative_scale.
Qed.

(** X21, witness: [three_year_scenario] with the pension, in a currency
    unit half the size. *)
Lemma build_timeline_scales_with_currency_witness :
  exists rows m m',
    build_timeline three_year_scenario [pension] = Ok (rows, m)
    /\ build_timeline (scale_scenario (num 2) three_year_scenario)
         (map (scale_event (num 2)) [pension])
       = Ok (map (scale_row (num 2)) rows, m')
    /\ terminal_nominal m' = num 2 * terminal_nominal m.
Proof.
  eassert (Hb : build_timeline three_year_scenario [pension] = Ok (_, _))
    by (vm_compute; reflexivity).
  destruct (build_timeline_scales_with_currency (num 2) three_year_scenario
              [pension] _ _ ltac:(vm_compute; reflexivity) Hb)
    as (m' & H1 & H2 & _).
  do 2 eexists. exists m'.
  split; [exact Hb|]. split; [exact H1 | exact H2].
Defined.

Lemma series_fold_scale (k : Qc) :
  0 < k ->
  forall xs x,
    fold_left (fun m y => if Qcltb y m then y else m) (map (Qcmult k) xs)
      (k * x)
    = k * fold_left (fun m y => if Qcltb y m then y else m) xs x.
Proof.
  intro Hk. induction xs as [|y xs IH]; intro x; [reflexivity|].
  rewrite map_cons, !fold_left_step, (scale_lt k y x Hk).
  destruct (Qcltb y x); apply IH.
Qed.

Lemma series_min_scale (k : Qc) (l : list Qc) :
  0 < k -> series_min (map (Qcmult k) l) = k * series_min l.
Proof.
  intro Hk. destruct l as [|x xs].
  - unfold series_min. cbn [map]. ring.
  - unfold series_min. rewrite map_cons. now apply series_fold_scale.
Qed.

Lemma scaled_timeline_returns (k : Qc)
    (scenario : Scenario.t) (liquidity_events : list LiquidityEvent.t)
    (rows : list TimelineRow.t) (m : Metrics) :
  0 < k ->
  build_timeline scenario liquidity_events = Ok (rows, m) ->
  exists m',
    build_timeline (scale_scenario k scenario)
      (map (scale_event k) liquidity_events)
    = Ok (map (scale_row k) rows, m').
Proof.
  intros Hk Hb.
  pose proof (timeline_rows_scale k scenario liquidity_events Hk) as Hrows.
  pose proof (build_timeline_no_zero _ _ _ _ Hb) as Hz.
  destruct (build_timeline_rows _ _ _ _ Hb) as [-> Hne].
  destruct (build_timeline_returns (scale_scenario k scenario)
              (map (scale_event k) liquidity_events) Hz) as [m' Hb'].
  { rewrite Hrows. intro E. apply Hne. now apply map_eq_nil in E. }
  exists m'. rewrite Hb', <- Hrows. reflexivity.
Qed.

Lemma min_balance_of_scale (k : Qc) (scenario : Scenario.t)
    (liquidity_events : list LiquidityEvent.t) :
  0 < k ->
  min_balance_of (scale_scenario k scenario)
    (map (scale_event k) liquidity_events)
  = match min_balance_of scenario liquidity_events with
    | Ok mb => Ok (k * mb)
    | Raise e => Raise e
    end.
Proof.
  intro Hk. unfold min_balance_of.
  destruct (index_hits_zero scenario) eqn:Hz.
  { rewrite !build_timeline_cases.
    change (index_hits_zero (scale_scenario k scenario))
      with (index_hits_zero scenario).
    now rewrite Hz. }
  pose proof (timeline_rows_scale k scenario liquidity_events Hk) as Hrows.
  destruct (build_timeline scenario liquidity_events)
    as [[rows m] | e] eqn:B.
  - destruct (scaled_timeline_returns k scenario
                liquidity_events rows m Hk B) as [m' ->].
    rewrite map_map.
    rewrite (map_ext _ (fun r => k * TimelineRow.end_balance_nominal r)
               (scale_row_end k)).
    rewrite <- (map_map TimelineRow.end_balance_nominal (Qcmult k)).
    now rewrite series_min_scale.
  - assert (Hnil : timeline_rows scenario liquidity_events = []).
    { destruct (timeline_rows scenario liquidity_events) eqn:R;
        [reflexivity|].
      destruct (build_timeline_returns scenario liquidity_events Hz)
        as [m Hm']; [rewrite R; discriminate | congruence]. }
    rewrite Hnil in Hrows. cbn [map] in Hrows.
    rewrite (build_timeline_raises _ _ Hrows).
    rewrite (build_timeline_raises _ _ Hnil) in B. congruence.
Qed.

Lemma swr_loop_scale (k : Qc) (scenario : Scenario.t)
    (liquidity_events : list LiquidityEvent.t) (tolerance : Qc) :
  0 < k ->
  forall iterations l h b d d',
    search_interval
      (swr_loop (scale_scenario k scenario)
         (map (scale_event k) liquidity_events) tolerance iterations
         (SWR.mk l h b d'))
    = search_interval
        (swr_loop scenario liquidity_events tolerance iterations
           (SWR.mk l h b d)).
Proof.
  intro Hk. induction iterations as [|i rest IH]; intros l h b d d';
    [reflexivity|].
  rewrite !swr_loop_cons.
  cbn [SWR.low SWR.high].
  change (Scenario.with_withdrawal_pct (scale_scenario k scenario)
            ((l + h) / num 2))
    with (scale_scenario k
            (Scenario.with_withdrawal_pct scenario ((l + h) / num 2))).
  rewrite (min_balance_of_scale k _ liquidity_events Hk).
  destruct (min_balance_of
              (Scenario.with_withdrawal_pct scenario ((l + h) / num 2))
              liquidity_events) as [mb | e]; [|reflexivity].
  unfold swr_next. rewrite (scale_nonneg k mb Hk).
  cbn [SWR.low SWR.high SWR.best_rate SWR.debug_info].
  destruct (Qcleb 0 mb); cbn [SWR.low SWR.high];
    match goal with
    | |- context [if ?c then _ else _] => destruct c
    end; solve [reflexivity | apply IH].
Qed.

(** X22. The safe withdrawal rate has no unit: the rate that
    [solve_safe_withdrawal_rate] returns (a rate, [None] or the exception)
    is the same after every money amount of the scenario and of the events
    is multiplied by the same [k > 0]. *)
Theorem solve_safe_withdrawal_rate_scale_free :
  forall (k : Qc) (scenario : Scenario.t)
         (liquidity_events : list LiquidityEvent.t)
         (tolerance : Qc) (max_iterations : Z)
         (swr_debug : list DebugEntry),
    0 < k ->
    returned_rate
      (solve_safe_withdrawal_rate (scale_scenario k scenario)
         (map (scale_event k) liquidity_events)
         tolerance max_iterations swr_debug)
    = returned_rate
        (solve_safe_withdrawal_rate scenario liquidity_events
           tolerance max_iterations swr_debug).
Proof.
  intros k scenario liquidity_events tolerance max_iterations swr_debug Hk.
  unfold solve_safe_withdrawal_rate, swr_search.
  change (Scenario.withdrawal_method (scale_scenario k scenario))
    with (Scenario.withdrawal_method scenario).
  destruct (negb (Scenario.withdrawal_method scenario =? PCT_METHOD)%string);
    [reflexivity|].
  pose proof (swr_loop_scale k scenario liquidity_events tolerance Hk
                (py_range 0 max_iterations) 0 (num 20) 0 [] []) as H.
  fold swr_init in H.
  destruct (swr_loop (scale_scenario k scenario) _ _ _ _) as [st' | e'];
    destruct (swr_loop scenario _ _ _ _) as [st | e];
    cbn [search_interval] in H; try discriminate H.
  - unfold returned_rate. injection H as _ _ Hbest. now rewrite Hbest.
  - unfold returned_rate. now injection H as ->.
Qed.

(** X22, witness: [last_year_scenario] in a currency unit half the size. *)
Lemma solve_safe_withdrawal_rate_scale_free_witness :
  returned_rate
    (solve_safe_withdrawal_rate (scale_scenario (num 2) last_year_scenario)
       (map (scale_event (num 2)) [])
       default_tolerance default_max_iterations [])
  = returned_rate
      (solve_safe_withdrawal_rate last_year_scenario []
         default_tolerance default_max_iterations []).
Proof.
  apply (solve_safe_withdrawal_rate_scale_free (num 2) last_year_scenario
           [] default_tolerance default_max_iterations []).
  vm_compute. reflexivity.
Defined.

(** ** Statistics of the Monte Carlo trials *)

Lemma np_percentile_interpolate (l : list Qc) (q : Qc) :
  l <> [] ->
  np_percentile l q
  = Ok (interpolate (sort l)
          (num (Z.of_nat (List.length (sort l) - 1)) * (q / num 100))).
Proof. destruct l; [congruence | reflexivity]. Qed.

Lemma num_le (a b : Z) : (a <= b)%Z -> num a <= num b.
Proof.
  intro H. unfold Qcle. rewrite !this_num, <- Zle_Qle. exact H.
Qed.

Lemma floor_bounds (x : Qc) :
  0 <= x ->
  num (Z.of_nat (Z.to_nat (Qfloor x))) <= x
  /\ x < num (Z.of_nat (Z.to_nat (Qfloor x))) + 1.
Proof.
  intro H0.
  assert (Hf : (0 <= Qfloor x)%Z).
  { change 0%Z with (Qfloor 0). apply Qfloor_resp_le. exact H0. }
  rewrite Z2Nat.id by exact Hf. split.
  - unfold Qcle. rewrite this_num. apply Qfloor_le.
  - unfold Qclt. rewrite this_plus, this_num.
    pose proof (Qlt_floor x) as H. rewrite inject_Z_plus in H. exact H.
Qed.

Lemma floor_mono (x y : Qc) :
  x <= y -> (Z.to_nat (Qfloor x) <= Z.to_nat (Qfloor y))%nat.
Proof.
  intro H. pose proof (Qfloor_resp_le x y H). lia.
Qed.

Lemma floor_num (z : Z) : Qfloor (num z) = z.
Proof.
  rewrite <- (Qfloor_Z z) at 2. apply Qfloor_comp. apply this_num.
Qed.

Lemma num_nonneg (n : nat) : 0 <= num (Z.of_nat n).
Proof. change 0 with (num 0). apply num_le. lia. Qed.

Lemma insert_sorted_In (x y : Qc) (l : list Qc) :
  In y (insert_sorted x l) -> y = x \/ In y l.
Proof.
  induction l as [|z l IH]; cbn [insert_sorted].
  - intros [<- | []]. now left.
  - destruct (Qcleb x z).
    + intros [<- | H]; [now left | now right].
    + intros [<- | H]; [right; now left|].
      destruct (IH H) as [-> | H']; [now left | right; now right].
Qed.

Lemma insert_sorted_sorted (x : Qc) (l : list Qc) :
  StronglySorted Qcle l -> StronglySorted Qcle (insert_sorted x l).
Proof.
  induction 1 as [|z l Hs IH Hall]; cbn [insert_sorted].
  - constructor; constructor.
  - destruct (Qcleb x z) eqn:E.
    + apply Qcleb_le in E. constructor.
      * now constructor.
      * constructor; [exact E|].
        rewrite Forall_forall in *. intros y Hy.
        apply Qcle_trans with z; [exact E | now apply Hall].
    + apply Qcleb_false_lt in E. constructor; [exact IH|].
      rewrite Forall_forall in *. intros y Hy.
      destruct (insert_sorted_In _ _ _ Hy) as [-> | Hy'];
        [now apply Qclt_le_weak | now apply Hall].
Qed.

Lemma sort_sorted (l : list Qc) : StronglySorted Qcle (sort l).
Proof.
  induction l as [|x l IH]; [constructor|].
  now apply insert_sorted_sorted.
Qed.

Lemma insert_sorted_length (x : Qc) (l : list Qc) :
  List.length (insert_sorted x l) = S (List.length l).
Proof.
  induction l as [|z l IH]; [reflexivity|]. cbn [insert_sorted].
  destruct (Qcleb x z); cbn [List.length]; [reflexivity | now rewrite IH].
Qed.

Lemma sort_length (l : list Qc) : List.length (sort l) = List.length l.
Proof.
  induction l as [|x l IH]; [reflexivity|].
  change (sort (x :: l)) with (insert_sorted x (sort l)).
  now rewrite insert_sorted_length, IH.
Qed.

Lemma sorted_nth (a : list Qc) :
  StronglySorted Qcle a ->
  forall i j, (i <= j)%nat -> (j < List.length a)%nat ->
              nth i a 0 <= nth j a 0.
Proof.
  induction 1 as [|z l Hs IH Hall]; intros i j Hij Hj.
  - cbn [List.length] in Hj. lia.
  - destruct j as [|j].
    + assert (i = 0)%nat as -> by lia. apply Qcle_refl.
    + cbn [List.length] in Hj. destruct i as [|i].
      * cbn [nth]. rewrite Forall_forall in Hall. apply Hall.
        apply nth_In. lia.
      * cbn [nth]. apply IH; lia.
Qed.

Lemma lin_lo (lo hi g : Qc) : lo <= hi -> 0 <= g -> lo <= lo + (hi - lo) * g.
Proof.
  intros H G. to_Q.
  assert (0 <= (this hi - this lo) * this g)%Q
    by (apply Qmult_le_0_compat; lra).
  lra.
Qed.

Lemma lin_mono (lo hi g1 g2 : Qc) :
  lo <= hi -> g1 <= g2 -> lo + (hi - lo) * g1 <= lo + (hi - lo) * g2.
Proof.
  intros H G. to_Q.
  assert (0 <= (this hi - this lo) * (this g2 - this g1))%Q
    by (apply Qmult_le_0_compat; lra).
  lra.
Qed.

Lemma lin_hi (lo hi g : Qc) : lo <= hi -> g <= 1 -> lo + (hi - lo) * g <= hi.
Proof.
  intros H G.
  apply Qcle_trans with (lo + (hi - lo) * 1); [now apply lin_mono|].
  to_Q. lra.
Qed.

Lemma interpolate_bounds (a : list Qc) (x : Qc) :
  StronglySorted Qcle a ->
  0 <= x -> x <= num (Z.of_nat (List.length a - 1)) ->
  (0 < List.length a)%nat ->
  (Z.to_nat (Qfloor x) <= List.length a - 1)%nat
  /\ nth (Z.to_nat (Qfloor x)) a 0 <= interpolate a x
  /\ interpolate a x
     <= nth (Nat.min (S (Z.to_nat (Qfloor x))) (List.length a - 1)) a 0.
Proof.
  intros Hs H0 Hx Hn.
  assert (Hp : (Z.to_nat (Qfloor x) <= List.length a - 1)%nat).
  { pose proof (floor_mono _ _ Hx) as H. rewrite floor_num in H. lia. }
  destruct (floor_bounds x H0) as [Hlo Hhi].
  assert (Hord : nth (Z.to_nat (Qfloor x)) a 0
                 <= nth (Nat.min (S (Z.to_nat (Qfloor x)))
                           (List.length a - 1)) a 0)
    by (apply sorted_nth; [exact Hs | lia | lia]).
  split; [exact Hp|]. unfold interpolate. split.
  - apply lin_lo; [exact Hord|]. to_Q. lra.
  - apply lin_hi; [exact Hord|]. to_Q. lra.
Qed.

Lemma interpolate_mono (a : list Qc) (x y : Qc) :
  StronglySorted Qcle a ->
  (0 < List.length a)%nat ->
  0 <= x -> x <= y -> y <= num (Z.of_nat (List.length a - 1)) ->
  interpolate a x <= interpolate a y.
Proof.
  intros Hs Hn H0 Hxy Hy.
  assert (H0y : 0 <= y) by (now apply Qcle_trans with x).
  assert (Hx : x <= num (Z.of_nat (List.length a - 1)))
    by (now apply Qcle_trans with y).
  destruct (interpolate_bounds a x Hs H0 Hx Hn) as (Hpx & Hlx & Hux).
  destruct (interpolate_bounds a y Hs H0y Hy Hn) as (Hpy & Hly & Huy).
  pose proof (floor_mono _ _ Hxy) as Hfl.
  destruct (Nat.eq_dec (Z.to_nat (Qfloor x)) (Z.to_nat (Qfloor y)))
    as [E | NE].
  - unfold interpolate. rewrite <- E. apply lin_mono.
    + apply sorted_nth; [exact Hs | lia | lia].
    + to_Q. lra.
  - apply Qcle_trans with (nth (Z.to_nat (Qfloor y)) a 0); [|exact Hly].
    apply Qcle_trans
      with (nth (Nat.min (S (Z.to_nat (Qfloor x))) (List.length a - 1)) a 0);
      [exact Hux|].
    apply sorted_nth; [exact Hs | lia | lia].
Qed.

Lemma floor_unique (x : Qc) (z : Z) :
  num z <= x -> x < num z + 1 -> Qfloor x = z.
Proof.
  unfold Qcle, Qclt. rewrite this_plus, this_num. intros Hlo Hhi.
  change (this 1) with (inject_Z 1) in Hhi. rewrite <- inject_Z_plus in Hhi.
  pose proof (Qfloor_le x) as Fl. pose proof (Qlt_floor x) as Fh.
  assert (H1 : (z < Qfloor x + 1)%Z).
  { rewrite Zlt_Qlt. now apply Qle_lt_trans with x. }
  assert (H2 : (Qfloor x < z + 1)%Z).
  { rewrite Zlt_Qlt. now apply Qle_lt_trans with x. }
  lia.
Qed.

Lemma num_plus (a b : Z) : num (a + b) = num a + num b.
Proof.
  apply Qc_is_canon. rewrite this_plus, !this_num, inject_Z_plus. reflexivity.
Qed.

Lemma half_index_even (m : nat) :
  num (Z.of_nat (2 * S m - 1)) * (num 50 / num 100)
  = num (Z.of_nat m) + 1 / (1 + 1).
Proof.
  replace (Z.of_nat (2 * S m - 1)) with (Z.of_nat m + Z.of_nat m + 1)%Z
    by lia.
  rewrite !num_plus.
  replace (num 50 / num 100) with (1 / (1 + 1)) by qc_eq.
  change (num 1) with 1. field. discriminate.
Qed.

Lemma half_index_odd (m : nat) :
  num (Z.of_nat (2 * m + 1 - 1)) * (num 50 / num 100) = num (Z.of_nat m).
Proof.
  replace (Z.of_nat (2 * m + 1 - 1)) with (Z.of_nat m + Z.of_nat m)%Z by lia.
  rewrite !num_plus.
  replace (num 50 / num 100) with (1 / (1 + 1)) by qc_eq.
  field. discriminate.
Qed.

Lemma interpolate_half_even (a : list Qc) (m : nat) :
  List.length a = (2 * S m)%nat ->
  interpolate a (num (Z.of_nat (List.length a - 1)) * (num 50 / num 100))
  = (nth m a 0 + nth (S m) a 0) / num 2.
Proof.
  intro Hn. unfold interpolate. rewrite Hn, half_index_even.
  assert (Hf : Qfloor (num (Z.of_nat m) + 1 / (1 + 1))%Qc = Z.of_nat m).
  { apply floor_unique.
    - to_Q. assert (0 <= this (1 / (1 + 1)))%Q by by_eval. lra.
    - to_Q. assert (this (1 / (1 + 1)) < 1)%Q by (vm_compute; reflexivity).
      lra. }
  rewrite Hf, Nat2Z.id.
  replace (Nat.min (S m) (2 * S m - 1)) with (S m) by lia.
  rewrite num_2. field. discriminate.
Qed.

Lemma interpolate_half_odd (a : list Qc) (m : nat) :
  List.length a = (2 * m + 1)%nat ->
  interpolate a (num (Z.of_nat (List.length a - 1)) * (num 50 / num 100))
  = nth m a 0.
Proof.
  intro Hn. unfold interpolate. rewrite Hn, half_index_odd.
  rewrite floor_num, Nat2Z.id. ring.
Qed.

(** [np.median] is the 50th percentile. *)
Lemma np_median_percentile (l : list Qc) (v : Qc) :
  np_percentile l (num 50) = Ok v -> np_median l = Some v.
Proof.
  destruct l as [|x l]; [discriminate|].
  rewrite np_percentile_interpolate by discriminate.
  intro H.
  apply (f_equal (fun r => match r with Ok w => Some w | Raise _ => None end))
    in H.
  rewrite <- H. clear H v.
  unfold np_median.
  set (a := sort (x :: l)).
  assert (Hpos : (0 < List.length a)%nat).
  { unfold a. rewrite sort_length. cbn [List.length]. lia. }
  cbv zeta.
  destruct (Nat.even (List.length a)) eqn:E.
  - apply Nat.even_spec in E. destruct E as [m Hm].
    destruct m as [|m]; [lia|].
    rewrite (interpolate_half_even a m Hm), Hm.
    replace (2 * S m / 2)%nat with (S m)
      by (symmetry; rewrite Nat.mul_comm; apply Nat.div_mul; lia).
    replace (S m - 1)%nat with m by lia. reflexivity.
  - assert (O : Nat.odd (List.length a) = true)
      by (rewrite <- Nat.negb_even, E; reflexivity).
    apply Nat.odd_spec in O. destruct O as [m Hm].
    rewrite (interpolate_half_odd a m Hm), Hm.
    replace ((2 * m + 1) / 2)%nat with m.
    + reflexivity.
    + rewrite (Nat.mul_comm 2 m), Nat.div_add_l by lia.
      cbn. lia.
Qed.

Lemma np_percentile_mono (l : list Qc) (q1 q2 : Qc) :
  l <> [] -> 0 <= q1 -> q1 <= q2 -> q2 <= num 100 ->
  exists v1 v2,
    np_percentile l q1 = Ok v1 /\ np_percentile l q2 = Ok v2
    /\ v1 <= v2.
Proof.
  intros Hne H0 H12 H100.
  rewrite !np_percentile_interpolate by exact Hne.
  do 2 eexists. split; [reflexivity|]. split; [reflexivity|].
  pose proof (num_nonneg (List.length (sort l) - 1)) as Hn.
  apply interpolate_mono.
  - apply sort_sorted.
  - rewrite sort_length. destruct l; [congruence | cbn [List.length]; lia].
  - to_Q. apply Qmult_le_0_compat; lra.
  - to_Q.
    assert (0 <= this (num (Z.of_nat (List.length (sort l) - 1)))
                 * (this q2 - this q1))%Q
      by (apply Qmult_le_0_compat; lra).
    lra.
  - to_Q. change (this (num 100)) with (100 # 1)%Q in H100.
    assert (0 <= this (num (Z.of_nat (List.length (sort l) - 1)))
                 * ((100 # 1) - this q2))%Q
      by (apply Qmult_le_0_compat; lra).
    lra.
Qed.

Lemma linear_percentile_mono (l : list Qc) (q1 q2 : Qc) :
  l <> [] -> 0 <= q1 -> q1 <= q2 -> q2 <= num 100 ->
  linear_percentile l q1 <= linear_percentile l q2.
Proof.
  intros Hne H0 H12 H100.
  destruct (np_percentile_mono l q1 q2 Hne H0 H12 H100)
    as (v1 & v2 & E1 & E2 & Hv).
  destruct l as [|x l]; [congruence|].
  unfold np_percentile in E1, E2.
  injection E1 as E1. injection E2 as E2. now rewrite E1, E2.
Qed.

Lemma this_inv (x : Qc) : (this (/ x) == / this x)%Q.
Proof. unfold Qcinv, Q2Qc. cbn [this]. apply Qred_correct. Qed.

Lemma ratio_bounds (x y : Qc) :
  0 <= x -> x <= y -> 0 < y -> 0 <= x / y /\ x / y <= 1.
Proof.
  intros H0 Hxy Hy.
  assert (Hinv : 0 <= / y).
  { unfold Qcle. rewrite this_inv. apply Qinv_le_0_compat.
    now apply Qlt_le_weak. }
  assert (Hne : y <> 0).
  { intros ->. revert Hy. vm_compute. discriminate. }
  unfold Qcdiv. split.
  - rewrite <- (Qcmult_0_l (/ y)). now apply Qcmult_le_compat_r.
  - rewrite <- (Qcmult_inv_r y Hne). now apply Qcmult_le_compat_r.
Qed.

Lemma fraction_nonnegative_bounds (l : list Qc) :
  l <> [] ->
  exists p, fraction_nonnegative l = Some p /\ 0 <= p /\ p <= 1.
Proof.
  intro Hne. destruct l as [|x l]; [congruence|].
  unfold fraction_nonnegative. eexists. split; [reflexivity|].
  apply ratio_bounds.
  - apply num_nonneg.
  - apply num_le. apply Nat2Z.inj_le. apply filter_length_le.
  - change 0 with (num 0). unfold Qclt. rewrite !this_num, <- Zlt_Qlt.
    cbn [List.length]. lia.
Qed.

Lemma Forall2_map_seq (f g : nat -> Qc) (n : nat) :
  (forall i, (i < n)%nat -> f i <= g i) ->
  Forall2 Qcle (map f (seq 0 n)) (map g (seq 0 n)).
Proof.
  intro H.
  assert (G : forall l, (forall i, In i l -> f i <= g i) ->
                        Forall2 Qcle (map f l) (map g l)).
  { induction l as [|i l IH]; intro Hl; [constructor|].
    cbn [map]. constructor; [apply Hl; now left|].
    apply IH. intros j Hj. apply Hl. now right. }
  apply G. intros i Hi. apply in_seq in Hi. apply H. lia.
Qed.

Lemma np_percentile_axis0_mono (all_paths : list (list Qc)) (q1 q2 : Qc) :
  all_paths <> [] -> 0 <= q1 -> q1 <= q2 -> q2 <= num 100 ->
  exists l1 l2,
    np_percentile_axis0 all_paths q1 = Ok l1
    /\ np_percentile_axis0 all_paths q2 = Ok l2
    /\ Forall2 Qcle l1 l2
    /\ List.length l1 = List.length (hd [] all_paths).
Proof.
  intros Hne H0 H12 H100. destruct all_paths as [|first_path rest];
    [congruence|].
  unfold np_percentile_axis0. do 2 eexists.
  split; [reflexivity|]. split; [reflexivity|]. split.
  - apply Forall2_map_seq. intros i _.
    apply linear_percentile_mono; try assumption. discriminate.
  - now rewrite length_map, length_seq.
Qed.

Lemma mc_step_path (scenario : Scenario.t)
    (liquidity_events : list LiquidityEvent.t) (returns : list (list Qc))
    (run_idx : nat) (st : MC.locals) (ya : nat * Z) :
  List.length (MC.path (mc_step scenario liquidity_events returns run_idx
                          st ya))
  = S (List.length (MC.path st)).
Proof.
  destruct ya as [year_idx age]. unfold mc_step.
  destruct (apply_liquidity_events age liquidity_events) as [[n l] t].
  cbn [MC.path]. rewrite length_app. cbn [List.length]. lia.
Qed.

Lemma mc_fold_path (scenario : Scenario.t)
    (liquidity_events : list LiquidityEvent.t) (returns : list (list Qc))
    (run_idx : nat) (yas : list (nat * Z)) :
  forall st,
    List.length
      (MC.path (fold_left (mc_step scenario liquidity_events returns run_idx)
                  yas st))
    = (List.length (MC.path st) + List.length yas)%nat.
Proof.
  induction yas as [|ya yas IH]; intro st; [cbn [fold_left List.length]; lia|].
  rewrite fold_left_step, IH, mc_step_path. cbn [List.length]. lia.
Qed.

Lemma mc_trial_path (scenario : Scenario.t)
    (liquidity_events : list LiquidityEvent.t) (returns : list (list Qc))
    (run_idx : nat) :
  List.length (MC.path (mc_trial scenario liquidity_events returns run_idx))
  = Z.to_nat (Scenario.end_age scenario + 1 - Scenario.current_age scenario).
Proof.
  unfold mc_trial. rewrite mc_fold_path. unfold enumerate.
  rewrite length_combine, length_seq, Nat.min_id, py_range_length.
  reflexivity.
Qed.

Section Statistics.

Variable rng : Type.
Variable np_random_seed : Z -> rng.
Variable gauss : rng -> Qc * rng.

Lemma run_monte_carlo_returns (scenario : Scenario.t)
    (liquidity_events : list LiquidityEvent.t) (runs seed : Z) (g : rng) :
  0 <= Scenario.return_stdev_pct scenario ->
  (Scenario.current_age scenario <= Scenario.end_age scenario + 1)%Z ->
  (0 <= runs)%Z ->
  exists returns,
    fst (run_monte_carlo rng np_random_seed gauss scenario liquidity_events
           runs seed g)
    = mc_aggregate
        (map (mc_trial scenario liquidity_events returns)
             (seq 0 (Z.to_nat runs))).
Proof.
  intros Hs Hages Hruns.
  unfold run_monte_carlo, np_random_normal.
  assert (Hq : Qcltb (Scenario.return_stdev_pct scenario / num 100) 0
               = false).
  { apply Qcltb_false_le. to_Q. lra. }
  rewrite Hq.
  destruct (Z.ltb_spec runs 0); [lia|].
  destruct (Z.ltb_spec (Scenario.end_age scenario
                        - Scenario.current_age scenario + 1) 0); [lia|].
  cbn [orb fst snd]. eexists. reflexivity.
Qed.

(** X23. Over exact arithmetic, with a non-negative [return_stdev_pct],
    at least one trial, [current_age <= end_age + 1] and a seed numpy
    accepts ([0 <= seed < 2^32]; any other makes [np.random.seed] raise
    [ValueError]), [run_monte_carlo] returns, for every generator, a
    probability of no shortfall between 0 and 1 and terminal percentiles
    in order: P10 <= median <= P90 (the median being the 50th
    percentile). *)
Theorem run_monte_carlo_terminal_statistics :
  forall (scenario : Scenario.t) (liquidity_events : list LiquidityEvent.t)
         (runs seed : Z) (g : rng),
    0 <= Scenario.return_stdev_pct scenario ->
    (Scenario.current_age scenario <= Scenario.end_age scenario + 1)%Z ->
    (1 <= runs)%Z ->
    (0 <= seed < 2 ^ 32)%Z ->
    exists mc probability p10 median p90,
      fst (run_monte_carlo rng np_random_seed gauss scenario
             liquidity_events runs seed g) = Ok mc
      /\ MCResult.probability_no_shortfall mc = Some probability
      /\ 0 <= probability /\ probability <= 1
      /\ MCResult.p10_terminal mc = Some p10
      /\ MCResult.median_terminal mc = Some median
      /\ MCResult.p90_terminal mc = Some p90
      /\ p10 <= median /\ median <= p90.
Proof.
  intros scenario liquidity_events runs seed g Hs Hages Hruns _.
  destruct (run_monte_carlo_returns scenario liquidity_events runs seed g
              Hs Hages) as [returns Hmc]; [lia|].
  set (trials := map (mc_trial scenario liquidity_events returns)
                     (seq 0 (Z.to_nat runs))) in *.
  assert (Htrials : trials <> []) by (apply trials_nonempty; exact Hruns).
  assert (Hne : forall (A : Type) (f : MC.locals -> A), map f trials <> []).
  { intros A f E. apply map_eq_nil in E. contradiction. }
  destruct (mc_aggregate_returns trials Htrials)
    as (p10 & p90 & l10 & l50 & l90 & G10 & G90 & _ & _ & _ & Hagg).
  destruct (fraction_nonnegative_bounds (map MC.min_balance trials)
              (Hne _ _)) as (p & Hp & Hp0 & Hp1).
  destruct (np_percentile_mono (map MC.balance_nominal trials)
              (num 10) (num 50)) as (v10 & v50 & H10 & H50 & Hlo);
    [apply Hne | by_eval | by_eval | by_eval |].
  destruct (np_percentile_mono (map MC.balance_nominal trials)
              (num 50) (num 90)) as (v50' & v90 & H50' & H90 & Hhi);
    [apply Hne | by_eval | by_eval | by_eval |].
  assert (v50' = v50) as -> by congruence.
  assert (v10 = p10) as -> by congruence.
  assert (v90 = p90) as -> by congruence.
  eexists. exists p, p10, v50, p90.
  split; [rewrite Hmc; exact Hagg|].
  cbn [MCResult.probability_no_shortfall MCResult.p10_terminal
       MCResult.median_terminal MCResult.p90_terminal].
  split; [exact Hp|]. split; [exact Hp0|]. split; [exact Hp1|].
  split; [reflexivity|].
  split; [apply np_median_percentile; exact H50|].
  split; [reflexivity|]. split; [exact Hlo | exact Hhi].
Qed.

(** X24. Over exact arithmetic, under the same conditions and with
    [inflation_pct] other than -100 (at -100 the price index the real
    paths are divided by is zero from the second year on, and numpy fills
    the paths with [inf] and [nan]), the three percentile paths of the
    fan chart have one entry per simulated age and never cross: at every
    age P10 <= P50 <= P90. *)
Theorem run_monte_carlo_fan_chart :
  forall (scenario : Scenario.t) (liquidity_events : list LiquidityEvent.t)
         (runs seed : Z) (g : rng),
    0 <= Scenario.return_stdev_pct scenario ->
    (Scenario.current_age scenario <= Scenario.end_age scenario + 1)%Z ->
    (1 <= runs)%Z ->
    (0 <= seed < 2 ^ 32)%Z ->
    Scenario.inflation_pct scenario <> - num 100 ->
    exists mc p10 p50 p90,
      fst (run_monte_carlo rng np_random_seed gauss scenario
             liquidity_events runs seed g) = Ok mc
      /\ MCResult.p10_path mc = Some p10
      /\ MCResult.p50_path mc = Some p50
      /\ MCResult.p90_path mc = Some p90
      /\ List.length p50
         = Z.to_nat (Scenario.end_age scenario + 1
                     - Scenario.current_age scenario)
      /\ Forall2 Qcle p10 p50 /\ Forall2 Qcle p50 p90.
Proof.
  intros scenario liquidity_events runs seed g Hs Hages Hruns _ _.
  destruct (run_monte_carlo_returns scenario liquidity_events runs seed g
              Hs Hages) as [returns Hmc]; [lia|].
  set (trials := map (mc_trial scenario liquidity_events returns)
                     (seq 0 (Z.to_nat runs))) in *.
  destruct (mc_aggregate_returns trials (trials_nonempty _ runs Hruns))
    as (p10 & p90 & g10 & g50 & g90 & _ & _ & G10 & G50 & G90 & Hagg).
  assert (Hhd : exists first rest,
             map MC.path trials
             = MC.path (mc_trial scenario liquidity_events returns first)
               :: rest).
  { unfold trials. destruct (Z.to_nat runs) as [|n] eqn:E; [lia|].
    rewrite <- cons_seq. cbn [map]. do 2 eexists. reflexivity. }
  destruct Hhd as (first & rest & Hpaths).
  assert (Hne : map MC.path trials <> []) by (rewrite Hpaths; discriminate).
  destruct (np_percentile_axis0_mono (map MC.path trials)
              (num 10) (num 50)) as (l10 & l50 & H10 & H50 & Hlo & _);
    [exact Hne | by_eval | by_eval | by_eval |].
  destruct (np_percentile_axis0_mono (map MC.path trials)
              (num 50) (num 90)) as (l50' & l90 & H50' & H90 & Hhi & Hlen);
    [exact Hne | by_eval | by_eval | by_eval |].
  assert (l50' = l50) as -> by congruence.
  assert (l10 = g10) as -> by congruence.
  assert (l50 = g50) as -> by congruence.
  assert (l90 = g90) as -> by congruence.
  eexists. exists g10, g50, g90.
  split; [rewrite Hmc; exact Hagg|].
  cbn [MCResult.p10_path MCResult.p50_path MCResult.p90_path].
  split; [reflexivity|]. split; [reflexivity|]. split; [reflexivity|].
  split; [|split; assumption].
  rewrite Hlen, Hpaths. cbn [hd]. apply mc_trial_path.
Qed.

End Statistics.

(** X23, witness: [saver_scenario] (volatility 15%) run for two trials
    with a generator that always draws 1. *)
Lemma run_monte_carlo_terminal_statistics_witness :
  exists mc p10 median p90,
    fst (run_monte_carlo unit (fun _ => tt) (fun g => (num 1, g))
           saver_scenario [] 2 42 tt) = Ok mc
    /\ MCResult.p10_terminal mc = Some p10
    /\ MCResult.median_terminal mc = Some median
    /\ MCResult.p90_terminal mc = Some p90
    /\ p10 <= median /\ median <= p90.
Proof.
  destruct (run_monte_carlo_terminal_statistics
              unit (fun _ => tt) (fun g => (num 1, g))
              saver_scenario [] 2 42 tt)
    as (mc & pr & p10 & med & p90 & H1 & _ & _ & _ & H2 & H3 & H4 & H5 & H6).
  - by_eval.
  - by_eval.
  - by_eval.
  - split; [by_eval | reflexivity].
  - exists mc, p10, med, p90.
    split; [exact H1|]. split; [exact H2|]. split; [exact H3|].
    split; [exact H4|]. split; [exact H5 | exact H6].
Defined.

(** X24, witness: the same run. *)
Lemma run_monte_carlo_fan_chart_witness :
  exists mc p10 p50 p90,
    fst (run_monte_carlo unit (fun _ => tt) (fun g => (num 1, g))
           saver_scenario [] 2 42 tt) = Ok mc
    /\ MCResult.p10_path mc = Some p10
    /\ MCResult.p50_path mc = Some p50
    /\ MCResult.p90_path mc = Some p90
    /\ List.length p50 = 4%nat
    /\ Forall2 Qcle p10 p50 /\ Forall2 Qcle p50 p90.
Proof.
  destruct (run_monte_carlo_fan_chart
              unit (fun _ => tt) (fun g => (num 1, g))
              saver_scenario [] 2 42 tt)
    as (mc & p10 & p50 & p90 & H1 & H2 & H3 & H4 & H5 & H6 & H7).
  - by_eval.
  - by_eval.
  - by_eval.
  - split; [by_eval | reflexivity].
  - by_eval.
  - exists mc, p10, p50, p90.
    split; [exact H1|]. split; [exact H2|]. split; [exact H3|].
    split; [exact H4|]. split; [exact H5|]. split; [exact H6 | exact H7].
Defined.

(** ** The currency unit in the Monte Carlo simulator *)

Lemma scale_le (k a b : Qc) : 0 < k -> Qcleb (k * a) (k * b) = Qcleb a b.
Proof.
  intro Hk. destruct (Qcleb a b) eqn:E.
  - apply Qcleb_le in E. apply Qcleb_le.
    rewrite (Qcmult_comm k a), (Qcmult_comm k b).
    apply Qcmult_le_compat_r; [exact E | now apply Qclt_le_weak].
  - apply Qcleb_false_lt in E. apply Qcleb_false_lt.
    rewrite (Qcmult_comm k a), (Qcmult_comm k b).
    now apply Qcmult_lt_compat_r.
Qed.

Lemma mc_withdrawals_scale (k : Qc) (scenario : Scenario.t) (age : Z)
    (prior cpi : Qc) :
  mc_withdrawals (scale_scenario k scenario) age (k * prior) cpi
  = k * mc_withdrawals scenario age prior cpi.
Proof.
  unfold mc_withdrawals, scale_scenario.
  cbn [Scenario.retirement_age Scenario.withdrawal_method
       Scenario.withdrawal_pct Scenario.withdrawal_real_amount
       Scenario.withdrawal_frequency].
  destruct (Scenario.retirement_age scenario <=? age)%Z; [|ring].
  destruct (Scenario.withdrawal_method scenario =? PCT_METHOD)%string;
    destruct (Scenario.withdrawal_frequency scenario =? MONTHLY)%string;
    ring.
Qed.

Lemma mc_step_fields (scenario : Scenario.t)
    (liquidity_events : list LiquidityEvent.t) (returns : list (list Qc))
    (run_idx : nat) (st : MC.locals) (ya : nat * Z) :
  let st' := mc_step scenario liquidity_events returns run_idx st ya in
  MC.cpi_index st' = MC.cpi_index st * (1 + inflation_rate scenario)
  /\ MC.prior_year_end_balance st' = MC.balance_nominal st'
  /\ MC.path st' = MC.path st ++ [MC.balance_nominal st' / MC.cpi_index st]
  /\ MC.min_balance st' = py_min (MC.min_balance st) (MC.balance_nominal st').
Proof.
  destruct ya as [year_idx age]. unfold mc_step.
  destruct (apply_liquidity_events age liquidity_events) as [[n l] t].
  cbv zeta.
  cbn [MC.cpi_index MC.prior_year_end_balance MC.path MC.min_balance
       MC.balance_nominal].
  split; [reflexivity|]. split; [reflexivity|]. split; reflexivity.
Qed.

Lemma mc_step_balance_scale (k : Qc) (scenario : Scenario.t)
    (liquidity_events : list LiquidityEvent.t) (returns : list (list Qc))
    (run_idx : nat) (st st' : MC.locals) (ya : nat * Z) :
  0 < k ->
  scaled_trial k st st' ->
  MC.balance_nominal
    (mc_step (scale_scenario k scenario)
       (map (scale_event k) liquidity_events) returns run_idx st' ya)
  = k * MC.balance_nominal
          (mc_step scenario liquidity_events returns run_idx st ya).
Proof.
  intros Hk (Hb & Hc & Hp & _ & _). destruct ya as [year_idx age].
  destruct (apply_liquidity_events_scale k age liquidity_events Hk)
    as [Hn Ht].
  revert Hn Ht. unfold mc_step, net_of, taxes_of.
  destruct (apply_liquidity_events age liquidity_events) as [[n l] t].
  destruct (apply_liquidity_events age (map (scale_event k) liquidity_events))
    as [[n' l'] t'].
  cbn [fst snd]. intros -> ->.
  cbv beta iota zeta. cbn [MC.balance_nominal].
  rewrite Hb, Hp, Hc, contributions_at_scale, mc_withdrawals_scale,
    !fee_rate_scale, !tax_rate_scale, !enable_taxes_scale.
  destruct (Scenario.enable_taxes scenario); ring.
Qed.

Lemma py_min_scale (k a b : Qc) :
  0 < k -> py_min (k * a) (k * b) = k * py_min a b.
Proof.
  intro Hk. unfold py_min. rewrite (scale_lt k b a Hk).
  now destruct (Qcltb b a).
Qed.

Lemma mc_step_scale (k : Qc) (scenario : Scenario.t)
    (liquidity_events : list LiquidityEvent.t) (returns : list (list Qc))
    (run_idx : nat) (st st' : MC.locals) (ya : nat * Z) :
  0 < k ->
  scaled_trial k st st' ->
  scaled_trial k
    (mc_step scenario liquidity_events returns run_idx st ya)
    (mc_step (scale_scenario k scenario)
       (map (scale_event k) liquidity_events) returns run_idx st' ya).
Proof.
  intros Hk Hs.
  pose proof (mc_step_balance_scale k scenario liquidity_events returns
                run_idx st st' ya Hk Hs) as Hbal.
  destruct (mc_step_fields scenario liquidity_events returns run_idx st ya)
    as (Hc & Hp & Hpath & Hmin).
  destruct (mc_step_fields (scale_scenario k scenario)
              (map (scale_event k) liquidity_events) returns run_idx st' ya)
    as (Hc' & Hp' & Hpath' & Hmin').
  destruct Hs as (Hb0 & Hc0 & Hp0 & Hpath0 & Hmin0).
  unfold scaled_trial.
  rewrite Hc', Hp', Hpath', Hmin', Hc, Hp, Hpath, Hmin, Hbal, Hc0, Hpath0,
    Hmin0, inflation_rate_scale, map_app, (py_min_scale k _ _ Hk).
  split; [reflexivity|]. split; [reflexivity|]. split; [reflexivity|].
  split; [|reflexivity].
  f_equal. cbn [map]. f_equal. unfold Qcdiv. ring.
Qed.

Lemma mc_fold_scale (k : Qc) (scenario : Scenario.t)
    (liquidity_events : list LiquidityEvent.t) (returns : list (list Qc))
    (run_idx : nat) :
  0 < k ->
  forall yas st st',
    scaled_trial k st st' ->
    scaled_trial k
      (fold_left (mc_step scenario liquidity_events returns run_idx) yas st)
      (fold_left (mc_step (scale_scenario k scenario)
                    (map (scale_event k) liquidity_events) returns run_idx)
         yas st').
Proof.
  intro Hk. induction yas as [|ya yas IH]; intros st st' Hs; [exact Hs|].
  rewrite !fold_left_step. apply IH. now apply mc_step_scale.
Qed.

Lemma mc_trial_scale (k : Qc) (scenario : Scenario.t)
    (liquidity_events : list LiquidityEvent.t) (returns : list (list Qc))
    (run_idx : nat) :
  0 < k ->
  scaled_trial k
    (mc_trial scenario liquidity_events returns run_idx)
    (mc_trial (scale_scenario k scenario)
       (map (scale_event k) liquidity_events) returns run_idx).
Proof.
  intro Hk. unfold mc_trial. rewrite current_age_scale, end_age_scale.
  apply mc_fold_scale; [exact Hk|].
  unfold scaled_trial, mc_init, scale_scenario.
  cbn [MC.balance_nominal MC.cpi_index MC.prior_year_end_balance MC.path
       MC.min_balance Scenario.current_balance map].
  repeat split; reflexivity.
Qed.

Lemma nth_scale (k : Qc) (a : list Qc) (i : nat) :
  nth i (map (Qcmult k) a) 0 = k * nth i a 0.
Proof.
  revert i. induction a as [|x a IH]; intros [|i]; cbn [map nth];
    try ring; try reflexivity. apply IH.
Qed.

Lemma insert_sorted_scale (k x : Qc) (l : list Qc) :
  0 < k ->
  insert_sorted (k * x) (map (Qcmult k) l)
  = map (Qcmult k) (insert_sorted x l).
Proof.
  intro Hk. induction l as [|y l IH]; [reflexivity|].
  cbn [map insert_sorted]. rewrite (scale_le k x y Hk).
  destruct (Qcleb x y); cbn [map]; [reflexivity | now rewrite IH].
Qed.

Lemma sort_scale (k : Qc) (l : list Qc) :
  0 < k -> sort (map (Qcmult k) l) = map (Qcmult k) (sort l).
Proof.
  intro Hk. induction l as [|x l IH]; [reflexivity|].
  cbn [map]. change (sort (k * x :: map (Qcmult k) l))
    with (insert_sorted (k * x) (sort (map (Qcmult k) l))).
  rewrite IH. now apply insert_sorted_scale.
Qed.

Lemma interpolate_scale (k : Qc) (a : list Qc) (x : Qc) :
  interpolate (map (Qcmult k) a) x = k * interpolate a x.
Proof.
  unfold interpolate. rewrite length_map, !nth_scale. ring.
Qed.

Lemma np_percentile_scale (k : Qc) (l : list Qc) (q : Qc) :
  0 < k ->
  np_percentile (map (Qcmult k) l) q
  = match np_percentile l q with
    | Ok v => Ok (k * v)
    | Raise e => Raise e
    end.
Proof.
  intro Hk. destruct l as [|x l]; [reflexivity|].
  rewrite !np_percentile_interpolate by discriminate.
  rewrite (sort_scale k _ Hk), length_map, interpolate_scale. reflexivity.
Qed.

Lemma linear_percentile_scale (k : Qc) (l : list Qc) (q : Qc) :
  0 < k ->
  linear_percentile (map (Qcmult k) l) q = k * linear_percentile l q.
Proof.
  intro Hk.
  change (linear_percentile (map (Qcmult k) l) q)
    with (interpolate (sort (map (Qcmult k) l))
            (num (Z.of_nat (List.length (sort (map (Qcmult k) l)) - 1))
             * (q / num 100))).
  change (linear_percentile l q)
    with (interpolate (sort l)
            (num (Z.of_nat (List.length (sort l) - 1)) * (q / num 100))).
  rewrite (sort_scale k _ Hk), length_map, interpolate_scale. reflexivity.
Qed.

Lemma np_median_scale (k : Qc) (l : list Qc) :
  0 < k -> np_median (map (Qcmult k) l) = option_map (Qcmult k) (np_median l).
Proof.
  intro Hk. destruct l as [|x l]; [reflexivity|].
  destruct (np_percentile_returns (x :: l) (num 50)) as [v Hv];
    [discriminate|].
  pose proof (np_percentile_scale k (x :: l) (num 50) Hk) as Hs.
  rewrite Hv in Hs.
  rewrite (np_median_percentile _ _ Hv), (np_median_percentile _ _ Hs).
  reflexivity.
Qed.

Lemma fraction_nonnegative_scale (k : Qc) (l : list Qc) :
  0 < k -> fraction_nonnegative (map (Qcmult k) l) = fraction_nonnegative l.
Proof.
  intro Hk. destruct l as [|x l]; [reflexivity|].
  unfold fraction_nonnegative.
  assert (E : forall l', List.length (filter (Qcleb 0) (map (Qcmult k) l'))
                         = List.length (filter (Qcleb 0) l')).
  { induction l' as [|y l' IH]; [reflexivity|].
    cbn [map filter]. rewrite (scale_nonneg k y Hk).
    destruct (Qcleb 0 y); cbn [List.length]; now rewrite IH. }
  rewrite E, length_map. reflexivity.
Qed.

Lemma np_percentile_axis0_scale (k : Qc) (paths : list (list Qc)) (q : Qc) :
  0 < k ->
  np_percentile_axis0 (map (map (Qcmult k)) paths) q
  = match np_percentile_axis0 paths q with
    | Ok p => Ok (map (Qcmult k) p)
    | Raise e => Raise e
    end.
Proof.
  intro Hk. destruct paths as [|first_path rest]; [reflexivity|].
  unfold np_percentile_axis0. rewrite map_cons, length_map.
  f_equal. rewrite map_map. apply map_ext.
  intro i.
  assert (E : map (fun path => nth i path 0)
                (map (Qcmult k) first_path :: map (map (Qcmult k)) rest)
              = map (Qcmult k)
                  (map (fun path => nth i path 0) (first_path :: rest))).
  { rewrite <- (map_cons (map (Qcmult k))), !map_map. apply map_ext.
    intro path. apply nth_scale. }
  rewrite E. now apply linear_percentile_scale.
Qed.

Lemma Forall2_map_eq {A B : Type} (R : A -> A -> Prop) (f g : A -> B)
    (l l' : list A) :
  Forall2 R l l' ->
  (forall x y, R x y -> f y = g x) ->
  map f l' = map g l.
Proof.
  intros H Hfg. induction H as [|x y l l' Hxy _ IH]; [reflexivity|].
  cbn [map]. now rewrite (Hfg x y Hxy), IH.
Qed.

Lemma mc_aggregate_scale (k : Qc) (trials trials' : list MC.locals) :
  0 < k ->
  Forall2 (scaled_trial k) trials trials' ->
  mc_aggregate trials'
  = match mc_aggregate trials with
    | Ok mc => Ok (scale_result k mc)
    | Raise e => Raise e
    end.
Proof.
  intros Hk H.
  assert (Hb : map MC.balance_nominal trials'
               = map (Qcmult k) (map MC.balance_nominal trials)).
  { rewrite map_map. apply (Forall2_map_eq _ _ _ _ _ H).
    now intros st st' (E & _). }
  assert (Hm : map MC.min_balance trials'
               = map (Qcmult k) (map MC.min_balance trials)).
  { rewrite map_map. apply (Forall2_map_eq _ _ _ _ _ H).
    now intros st st' (_ & _ & _ & _ & E). }
  assert (Hp : map MC.path trials'
               = map (map (Qcmult k)) (map MC.path trials)).
  { rewrite map_map. apply (Forall2_map_eq _ _ _ _ _ H).
    now intros st st' (_ & _ & _ & E & _). }
  unfold mc_aggregate.
  rewrite Hb, Hm, Hp, (fraction_nonnegative_scale k _ Hk),
    (np_median_scale k _ Hk), !(np_percentile_scale k _ _ Hk),
    !(np_percentile_axis0_scale k _ _ Hk).
  destruct (np_percentile (map MC.balance_nominal trials) (num 10));
    [|reflexivity].
  destruct (np_percentile (map MC.balance_nominal trials) (num 90));
    [|reflexivity].
  destruct (np_percentile_axis0 (map MC.path trials) (num 10));
    [|reflexivity].
  destruct (np_percentile_axis0 (map MC.path trials) (num 50));
    [|reflexivity].
  destruct (np_percentile_axis0 (map MC.path trials) (num 90));
    [|reflexivity].
  reflexivity.
Qed.

Section CurrencyUnit.

Variable rng : Type.
Variable np_random_seed : Z -> rng.
Variable gauss : rng -> Qc * rng.

(** X25. The Monte Carlo simulator is homogeneous in the currency unit as
    well: with every money amount of the scenario and of the events
    multiplied by [k > 0], [run_monte_carlo] draws the same returns, raises
    in the same cases, and returns the same probability of no shortfall
    with every terminal percentile and every point of the percentile paths
    multiplied by [k]. *)
Theorem run_monte_carlo_scales_with_currency :
  forall (k : Qc) (scenario : Scenario.t)
         (liquidity_events : list LiquidityEvent.t)
         (runs seed : Z) (g : rng),
    0 < k ->
    fst (run_monte_carlo rng np_random_seed gauss
           (scale_scenario k scenario)
           (map (scale_event k) liquidity_events) runs seed g)
    = match fst (run_monte_carlo rng np_random_seed gauss scenario
                   liquidity_events runs seed g)
      with
      | Ok mc => Ok (scale_result k mc)
      | Raise e => Raise e
      end.
Proof.
  intros k scenario liquidity_events runs seed g Hk.
  unfold run_monte_carlo.
  change (Scenario.nominal_return_pct (scale_scenario k scenario))
    with (Scenario.nominal_return_pct scenario).
  change (Scenario.return_stdev_pct (scale_scenario k scenario))
    with (Scenario.return_stdev_pct scenario).
  rewrite current_age_scale, end_age_scale.
  destruct (np_random_normal _ _ _ _ _ _ _) as [[returns | e] g'];
    [|reflexivity].
  cbn [fst]. apply mc_aggregate_scale; [exact Hk|].
  induction (seq 0 (Z.to_nat runs)) as [|i l IH]; [constructor|].
  cbn [map]. constructor; [now apply mc_trial_scale | exact IH].
Qed.

End CurrencyUnit.

(** X25, witness: [saver_scenario] in a currency unit half the size, two
    trials, a generator that always draws 1. *)
Lemma run_monte_carlo_scales_with_currency_witness :
  fst (run_monte_carlo unit (fun _ => tt) (fun g => (num 1, g))
         (scale_scenario (num 2) saver_scenario)
         (map (scale_event (num 2)) [pension]) 2 42 tt)
  = match fst (run_monte_carlo unit (fun _ => tt) (fun g => (num 1, g))
                 saver_scenario [pension] 2 42 tt)
    with
    | Ok mc => Ok (scale_result (num 2) mc)
    | Raise e => Raise e
    end.
Proof.
  apply (run_monte_carlo_scales_with_currency
           unit (fun _ => tt) (fun g => (num 1, g)) (num 2)
           saver_scenario [pension] 2 42 tt).
  vm_compute. reflexivity.
Defined.
